(** * PINT timing model: a shallow embedding of [pint/models/timing_model.py]

    The development follows the Python source method by method.  Python
    objects that are mutated in place (the [Cache] instance behind
    [self.cache], the list behind [self.params], the [Parameter] objects bound
    as attributes) live in an explicit store, so that aliasing is visible.
    Exceptions are an explicit outcome; [log.debug] calls, which change
    neither results nor the model, are elided.  A chronological [trace] of
    ghost events records which component functions ran and when. *)

From Stdlib Require Import ZArith Lia Ascii SpecFloat.
From stdpp Require Import base option list strings pretty gmap.

Set Default Proof Using "Type".

(** ** Python outcomes *)

(** The exceptions that the modelled code can raise or let through:
    Python's own, [MissingParameter] of lines 547-565 (raised by the [setup]
    of components), and whatever a component function raises. *)
Inductive exn : Type :=
  | AttributeError (attr : string)
  | TypeError
  | ValueError
  | KeyError (key : string)
  | IndexError
  | MissingParameter (module param : string) (msg : option string)
  | ComponentError (msg : string).

Inductive outcome (A : Type) : Type :=
  | Ret (a : A)
  | Raise (e : exn).
Arguments Ret {A} a.
Arguments Raise {A} e.

Definition is_ret {A} (o : outcome A) : bool :=
  match o with Ret _ => true | Raise _ => false end.

(** Object identities in the store. *)
Abbreviation loc := nat.

(** What the attribute [cache] of a receiver can hold, as far as
    [hasattr(args[0], "cache")] and [isinstance(cache, Cache)] distinguish:
    no such attribute, [None], some other non-[Cache] object, or a reference
    to a [Cache] instance. *)
Inductive cache_attr : Type :=
  | Missing
  | PyNone
  | Foreign
  | Scope (l : loc).

Definition scope_active (c : cache_attr) : bool :=
  match c with Scope _ => true | _ => false end.

(** Ghost events.  [Entered f]: the body of the method or wrapped function
    named [f] started to execute.  [Called lvl i] / [Summed lvl i]: the [i]-th
    delay function of level [lvl] was called / its result was added into the
    running total.  [CalledPhase i toas delay]: the [i]-th phase function was
    called with these arguments.  [Offered l]: [read_parfile] starts to match
    the line [l] against the parameters of the model. *)
Inductive event (num TOA : Type) : Type :=
  | Entered (f : string)
  | Called (lvl : string) (i : nat)
  | Summed (lvl : string) (i : nat)
  | CalledPhase (i : nat) (toas : list TOA) (delay : list num)
  | Offered (l : string).
Arguments Entered {num TOA} f.
Arguments Called {num TOA} lvl i.
Arguments Summed {num TOA} lvl i.
Arguments CalledPhase {num TOA} i toas delay.
Arguments Offered {num TOA} l.

(** The value of a parameter: none yet, a number, or text. *)
Inductive pvalue (num : Type) : Type :=
  | PVNone
  | PVNum (x : num)
  | PVStr (s : string).
Arguments PVNone {num}.
Arguments PVNum {num} x.
Arguments PVStr {num} s.

(** Modelled from the spec: the [Parameter] class of [pint/models/parameter.py],
    which is not among the sources.  Only the fields that [timing_model.py]
    reads are kept (spec section 3: name, value, frozen flag, aliases, prefix
    flag, prefix and index). *)
Record ParameterObj (num : Type) : Type := mkParameter {
  name : string;
  value : pvalue num;
  frozen : bool;
  aliases : list string;
  is_prefix : bool;
  prefix : string;
  index : nat
}.
Arguments mkParameter {num}.
Arguments name {num}.
Arguments value {num}.
Arguments frozen {num}.
Arguments aliases {num}.
Arguments is_prefix {num}.
Arguments prefix {num}.
Arguments index {num}.

(** [MissingParameter.__str__], lines 561-565. *)
Definition MissingParameter_str (module param : string) (msg : option string) : string :=
  let result := module +:+ "." +:+ param in
  match msg with
  | Some m => result +:+ String (ascii_of_nat 10) "  " +:+ m
  | None => result
  end.

(** ** The mutable world *)

Section World.
Context {num val TOA : Type}.

(** [self_cache]: the receiver's [cache] attribute.
    [caches]: the store of [Cache] instances, each with its instance
    dictionary ([setattr(cache, the_func, result)] writes there).
    [lists]: the store of Python list objects holding parameter names.
    [attrs]: the [Parameter] objects bound on the receiver by [add_param].
    [trace]: ghost events, oldest first.
    [warnings]: lines given to [log.warn]. *)
Record World : Type := mkWorld {
  self_cache : cache_attr;
  caches : list (gmap string val);
  lists : list (list string);
  attrs : gmap string (ParameterObj num);
  trace : list (event num TOA);
  warnings : list string
}.

Definition set_self_cache (c : cache_attr) (w : World) : World :=
  mkWorld c (caches w) (lists w) (attrs w) (trace w) (warnings w).
Definition set_caches (cs : list (gmap string val)) (w : World) : World :=
  mkWorld (self_cache w) cs (lists w) (attrs w) (trace w) (warnings w).
Definition set_lists (ls : list (list string)) (w : World) : World :=
  mkWorld (self_cache w) (caches w) ls (attrs w) (trace w) (warnings w).
Definition set_attrs (a : gmap string (ParameterObj num)) (w : World) : World :=
  mkWorld (self_cache w) (caches w) (lists w) a (trace w) (warnings w).
Definition set_trace (t : list (event num TOA)) (w : World) : World :=
  mkWorld (self_cache w) (caches w) (lists w) (attrs w) t (warnings w).
Definition set_warnings (ws : list string) (w : World) : World :=
  mkWorld (self_cache w) (caches w) (lists w) (attrs w) (trace w) ws.

(** Computations: state passing with an exception outcome.  A raised
    exception keeps the world as it was when it was raised. *)
Definition Comp (A : Type) : Type := World → outcome A * World.

Definition ret {A} (a : A) : Comp A := λ w, (Ret a, w).
Definition raise {A} (e : exn) : Comp A := λ w, (Raise e, w).
Definition bind {A B} (c : Comp A) (k : A → Comp B) : Comp B :=
  λ w, match c w with
       | (Ret a, w') => k a w'
       | (Raise e, w') => (Raise e, w')
       end.
Definition lift {A} (o : outcome A) : Comp A := λ w, (o, w).
Definition emit (e : event num TOA) : Comp unit :=
  λ w, (Ret tt, set_trace (trace w ++ [e]) w).
Definition warn (s : string) : Comp unit :=
  λ w, (Ret tt, set_warnings (warnings w ++ [s]) w).
End World.

Arguments World : clear implicits.
Arguments Comp : clear implicits.

Notation "'let!' x ':=' c 'in' k" := (bind c (λ x, k))
  (at level 10, x name, c at level 200, k at level 200).
Notation "'do!' c 'in' k" := (bind c (λ _, k))
  (at level 10, c at level 200, k at level 200).

(** ** class Cache *)

Section Cache.
Context {num val TOA : Type}.
Local Abbreviation World := (World num val TOA).
Local Abbreviation Comp := (Comp num val TOA).

(** Attributes every [Cache] instance has without any [setattr]: those of
    the class body ([the_cache], [cache_result], [use_cache]) and those
    inherited from [object].  [hasattr(cache, name)] is true for them. *)
Variable class_attr : string → option val.

(** [hasattr(cache, the_func)] / [getattr(cache, the_func)] on the [Cache]
    instance at [l]: the instance dictionary first, then the class. *)
Definition cache_getattr (w : World) (l : loc) (the_func : string) : option val :=
  match caches w !! l with
  | Some d => match d !! the_func with
              | Some v => Some v
              | None => class_attr the_func
              end
  | None => class_attr the_func
  end.

(** [setattr(cache, the_func, result)] on the [Cache] instance at [l]. *)
Definition cache_setattr (l : loc) (the_func : string) (result : val) (w : World) : World :=
  set_caches (alter (λ d, <[the_func := result]> d) l (caches w)) w.

(** [cls()]: a new [Cache] instance with an empty instance dictionary. *)
Definition new_cache (w : World) : loc * World :=
  (length (caches w), set_caches (caches w ++ [∅]) w).

(** The body of the method named [the_func]: the ghost event marks that it
    starts to run. *)
Definition invoke {A} (the_func : string) (body : Comp A) : Comp A :=
  do! emit (Entered the_func) in body.

(** [Cache.cache_result], lines 29-62, for a function whose [__name__] is
    [the_func].  The [Cache] instance is fetched before the function is
    called, and the result is stored in that same instance. *)
Definition cache_result (the_func : string) (function : Comp val) : Comp val :=
  λ w,
    match self_cache w with
    | Scope l =>
        match cache_getattr w l the_func with
        | Some v => (Ret v, w)
        | None =>
            match function w with
            | (Ret result, w1) => (Ret result, cache_setattr l the_func result w1)
            | (Raise e, w1) => (Raise e, w1)
            end
        end
    | Missing | PyNone | Foreign => function w
    end.

(** [Cache.use_cache], lines 64-95.  There is no [try]/[finally]: when
    [function] raises, the [setattr(args[0], "cache", None)] after it is not
    reached. *)
Definition use_cache {A} (function : Comp A) : Comp A :=
  λ w,
    match self_cache w with
    | Scope _ => function w
    | PyNone | Foreign =>
        let '(l, w0) := new_cache w in
        match function (set_self_cache (Scope l) w0) with
        | (Ret result, w1) => (Ret result, set_self_cache PyNone w1)
        | (Raise e, w1) => (Raise e, w1)
        end
    | Missing => function w
    end.
End Cache.

(** ** Numbers and arrays

    numpy floats are kept abstract: a carrier with the constants and the
    operations the modelled code applies to them.  Nothing is assumed about
    the operations unless a theorem says so. *)

Class Numeric (num : Type) : Type := mkNumeric {
  zero : num;
  one : num;
  add : num → num → num;
  div : num → num → num;
  ltb : num → num → bool
}.

(** A value handed to numpy where an array of shape [(N,)] is expected: a
    0-d value or a 1-d array. *)
Inductive ndarray (num : Type) : Type :=
  | Scalar (x : num)
  | Vec (xs : list num).
Arguments Scalar {num} x.
Arguments Vec {num} xs.

(** An astropy quantity: values with a unit. *)
Record quantity (num unit_t : Type) : Type := mkQuantity {
  qval : ndarray num;
  qunit : unit_t
}.
Arguments mkQuantity {num unit_t}.
Arguments qval {num unit_t}.
Arguments qunit {num unit_t}.

(** A numpy 2-d array with its shape; [rows] holds [nrows] lists of [ncols]
    entries. *)
Record matrix (num : Type) : Type := mkMatrix {
  nrows : nat;
  ncols : nat;
  rows : list (list num)
}.
Arguments mkMatrix {num}.
Arguments nrows {num}.
Arguments ncols {num}.
Arguments rows {num}.

(** Modelled from the spec: the [Phase] value of [pint/phase.py], which is not
    among the sources: a two-field value, integer turns and fractional turns
    (spec section 3).  [ph[1]] is [frac]. *)
Record Phase (num : Type) : Type := mkPhase {
  int : list num;
  frac : list num
}.
Arguments mkPhase {num}.
Arguments int {num}.
Arguments frac {num}.

(** The constructors and the addition of [Phase] are not among the sources
    either; they are taken as given.  [Phase1 x] is [Phase(x)], [Phase2 i f]
    is [Phase(i, f)], [Phase_add] is what [phase += ...] evaluates. *)
Class PhaseOps (num : Type) : Type := mkPhaseOps {
  Phase1 : ndarray num → outcome (Phase num);
  Phase2 : list num → list num → outcome (Phase num);
  Phase_add : Phase num → Phase num → outcome (Phase num)
}.

Section Arrays.
Context {num : Type} `{Numeric num}.

(** [np.zeros(n)] *)
Definition np_zeros (n : nat) : list num := replicate n zero.

(** [np.zeros((n, m))] *)
Definition np_zeros2 (n m : nat) : matrix num :=
  mkMatrix n m (replicate n (replicate m zero)).

(** numpy broadcasting of a value to shape [(n,)]: a 0-d value and an array
    of length one are repeated, an array of length [n] is taken as it is, any
    other shape is a [ValueError]. *)
Definition broadcast_to (n : nat) (a : ndarray num) : outcome (list num) :=
  match a with
  | Scalar x => Ret (replicate n x)
  | Vec xs =>
      if decide (length xs = n) then Ret xs
      else match xs with
           | [x] => Ret (replicate n x)
           | _ => Raise ValueError
           end
  end.

(** [acc += x] on a float array [acc]. *)
Definition iadd (acc : list num) (x : ndarray num) : outcome (list num) :=
  match broadcast_to (length acc) x with
  | Ret v => Ret (zip_with add acc v)
  | Raise e => Raise e
  end.

(** [M[:,ii] = x] *)
Definition set_column (ii : nat) (x : ndarray num) (M : matrix num) : outcome (matrix num) :=
  match broadcast_to (nrows M) x with
  | Ret col =>
      Ret (mkMatrix (nrows M) (ncols M)
             (zip_with (λ row c, <[ii := c]> row) (rows M) col))
  | Raise e => Raise e
  end.

(** [q / F0] on the values of a quantity. *)
Definition ndarray_div (a : ndarray num) (d : num) : ndarray num :=
  match a with
  | Scalar x => Scalar (div x d)
  | Vec xs => Vec (map (λ x, div x d) xs)
  end.
End Arrays.

(** ** class TimingModel *)

Section TimingModel.
Context {num val TOA unit_t : Type} `{Numeric num} `{PhaseOps num}.
Local Abbreviation World := (World num val TOA).
Local Abbreviation Comp := (Comp num val TOA).

(** What the evaluation methods read on [self] and never write.
    [params], [prefix_params], [binary_params]: references to the list
    objects behind the attributes of these names ([binary_params] is not
    set by [__init__]).
    [delay_funcs]: the dictionary of delay functions by level, in the order
    in which [keys()] yields its keys.
    [phase_funcs]: the list of phase functions.
    [methods]: the callables that [hasattr]/[getattr] find on [self] under a
    name such as [d_phase_d_F0] or [d_delay_d_PX], with what calling them on
    the observations gives (the methods of the base class that have such a
    name, [d_phase_d_toa] and the like, are among them).
    [PLANET_SHAPIRO]: whether [self] has an attribute of that name.
    [BinaryModelName]: that attribute, when [self] has it.
    [setup]: the [setup] method, which subclasses override. *)
Record TimingModel : Type := mkTimingModel {
  params : loc;
  prefix_params : loc;
  binary_params : option loc;
  delay_funcs : list (string * list (list TOA → outcome (ndarray num)));
  phase_funcs : list (list TOA → list num → outcome (ndarray num));
  methods : string → option (list TOA → outcome (quantity num unit_t));
  PLANET_SHAPIRO : bool;
  BinaryModelName : option string;
  setup : Comp unit
}.

(** The list object at [l], read.  A reference held by a live object is never
    dangling; the default only makes the function total. *)
Definition get_list (l : loc) : Comp (list string) :=
  λ w, (Ret (default [] (lists w !! l)), w).

(** The list object at [l], replaced in place. *)
Definition put_list (l : loc) (xs : list string) : Comp unit :=
  λ w, (Ret tt, set_lists (<[l := xs]> (lists w)) w).

(** [getattr(self, par)] for a name bound by [add_param]. *)
Definition getattr_param (par : string) : Comp (ParameterObj num) :=
  λ w, match attrs w !! par with
       | Some p => (Ret p, w)
       | None => (Raise (AttributeError par), w)
       end.

(** [setattr(self, par, p)], also used for a [Parameter] mutated in place. *)
Definition setattr_param (par : string) (p : ParameterObj num) : Comp unit :=
  λ w, (Ret tt, set_attrs (<[par := p]> (attrs w)) w).

(** [TimingModel.add_param], lines 149-157. *)
Definition add_param (self : TimingModel) (param : ParameterObj num) (binary_param : bool) : Comp unit :=
  do! setattr_param (name param) param in
  let! ps := get_list (params self) in
  do! put_list (params self) (ps ++ [name param]) in
  if binary_param then
    match binary_params self with
    | Some l => let! bs := get_list l in put_list l (bs ++ [name param])
    | None => raise (AttributeError "binary_params")
    end
  else ret tt.

(** [self.delay_funcs[dlevel]] *)
Fixpoint dict_get {A} (d : list (string * A)) (k : string) : option A :=
  match d with
  | [] => None
  | (k', v) :: d' => if decide (k' = k) then Some v else dict_get d' k
  end.

(** The inner loop of [delay]: [for df in self.delay_funcs[dlevel]:
    delay += df(toas)], from the function of index [i] on. *)
Fixpoint delay_level (dlevel : string) (i : nat)
    (dfs : list (list TOA → outcome (ndarray num)))
    (toas : list TOA) (delay : list num) : Comp (list num) :=
  match dfs with
  | [] => ret delay
  | df :: dfs' =>
      do! emit (Called dlevel i) in
      let! x := lift (df toas) in
      let! delay' := lift (iadd delay x) in
      do! emit (Summed dlevel i) in
      delay_level dlevel (S i) dfs' toas delay'
  end.

(** The outer loop of [delay]: [for dlevel in self.delay_funcs.keys()]. *)
Fixpoint delay_levels (self : TimingModel) (keys : list string)
    (toas : list TOA) (delay : list num) : Comp (list num) :=
  match keys with
  | [] => ret delay
  | dlevel :: keys' =>
      match dict_get (delay_funcs self) dlevel with
      | Some dfs =>
          let! delay' := delay_level dlevel 0 dfs toas delay in
          delay_levels self keys' toas delay'
      | None => raise (KeyError dlevel)
      end
  end.

(** [TimingModel.delay], lines 212-224. *)
Definition delay (self : TimingModel) (toas : list TOA) : Comp (list num) :=
  use_cache
    (invoke "delay"
       (delay_levels self (map fst (delay_funcs self)) toas (np_zeros (length toas)))).

(** The loop of [phase]: [for pf in self.phase_funcs:
    phase += Phase(pf(toas, delay))], from the function of index [i] on. *)
Fixpoint phase_loop (i : nat)
    (pfs : list (list TOA → list num → outcome (ndarray num)))
    (toas : list TOA) (delay : list num) (phase : Phase num) : Comp (Phase num) :=
  match pfs with
  | [] => ret phase
  | pf :: pfs' =>
      do! emit (CalledPhase i toas delay) in
      let! x := lift (pf toas delay) in
      let! p := lift (Phase1 x) in
      let! phase' := lift (Phase_add phase p) in
      phase_loop (S i) pfs' toas delay phase'
  end.

(** [TimingModel.phase], lines 201-210. *)
Definition phase (self : TimingModel) (toas : list TOA) : Comp (Phase num) :=
  use_cache
    (invoke "phase"
       (let! delay := delay self toas in
        let! phase0 := lift (Phase2 (np_zeros (length toas)) (np_zeros (length toas))) in
        phase_loop 0 (phase_funcs self) toas delay phase0)).

(** [emcee_fitter.get_event_phases] of [examples/event_optimize.py], lines
    98-104: [phss = self.model.phase(self.toas.table)[1]], then
    [np.where(phss < 0.0, phss + 1.0, phss)]. *)
Definition get_event_phases (model : TimingModel) (toas : list TOA) : Comp (list num) :=
  let! ph := phase model toas in
  let phss := frac ph in
  ret (map (λ x, if ltb x zero then add x one else x) phss).
End TimingModel.

(** ** Python string methods used by [read_parfile] *)

(** The characters that [str.strip()] and [str.split()] treat as blanks:
    space, tab, newline, vertical tab, form feed, carriage return. *)
Definition is_space (c : ascii) : bool :=
  let n := nat_of_ascii c in
  Nat.eqb n 32 || (Nat.leb 9 n && Nat.leb n 13).

Definition upper_char (c : ascii) : ascii :=
  let n := nat_of_ascii c in
  if Nat.leb 97 n && Nat.leb n 122 then ascii_of_nat (n - 32) else c.

(** [s.upper()] *)
Fixpoint upper (s : string) : string :=
  match s with
  | EmptyString => EmptyString
  | String c s' => String (upper_char c) (upper s')
  end.

Fixpoint lstrip (s : string) : string :=
  match s with
  | EmptyString => EmptyString
  | String c s' => if is_space c then lstrip s' else s
  end.

(** [s.strip()] *)
Definition strip (s : string) : string :=
  String.rev (lstrip (String.rev (lstrip s))).

(** [s.split()]: the maximal runs of non-blank characters. [cur] is the run
    being read. *)
Fixpoint split_from (cur : string) (s : string) : list string :=
  match s with
  | EmptyString => if decide (cur = "") then [] else [cur]
  | String c s' =>
      if is_space c then
        (if decide (cur = "") then split_from "" s' else cur :: split_from "" s')
      else split_from (cur +:+ String c "") s'
  end.

Definition split (s : string) : list string := split_from "" s.

(** [sep.join(xs)] *)
Definition join (sep : string) (xs : list string) : string := String.concat sep xs.

(** [s.startswith(p)] *)
Definition startswith (s p : string) : bool := String.prefix p s.

(** [str(n)] for a non-negative integer. *)
Definition str (n : nat) : string := pretty n.

(** Lines 14-18. *)
Definition ignore_params : list string :=
  ["START"; "FINISH"; "SOLARN0"; "EPHEM"; "CLK"; "UNITS";
   "TIMEEPH"; "T2CMETHOD"; "CORRECT_TROPOSPHERE"; "DILATEFREQ";
   "NTOA"; "CLOCK"; "TRES"; "TZRMJD"; "TZRFRQ"; "TZRSITE";
   "NITS"; "IBOOT"; "BINARY"].
Definition ignore_prefix : list string := ["DMXF1_"; "DMXF2_"; "DMXEP_"].

(** What [d_phase_d_param] can return: the quantity an analytic function
    returned, or the Python float of the numeric stub. *)
Inductive pyresult (num unit_t : Type) : Type :=
  | RQuantity (q : quantity num unit_t)
  | RFloat (x : num).
Arguments RQuantity {num unit_t} q.
Arguments RFloat {num unit_t} x.

(** The state of the loop of [read_parfile]. *)
Record parfile_state : Type := mkParfileState {
  checked_param : list string;
  repeat_param : gmap string nat
}.

(** The newline character. *)
Definition nl : string := String (ascii_of_nat 10) EmptyString.

Section Derivatives.
Context {num val TOA unit_t : Type} `{Numeric num} `{PhaseOps num}.
Local Abbreviation World := (World num val TOA).
Local Abbreviation Comp := (Comp num val TOA).
Local Abbreviation TimingModel := (@TimingModel num val TOA unit_t).

(** The unit of [u.s/u.s], and the unit of [q / F0] from the unit of [q]
    ([F0 = self.F0.value / u.s]). *)
Variable u_dimensionless : unit_t.
Variable u_over_F0 : unit_t → unit_t.

(** Methods of [Parameter] and a function of [pint.utils] that the sources
    do not include: [from_parfile_line] returns whether the line matched and
    the parameter as the call left it. *)
Variable from_parfile_line : ParameterObj num → string → outcome (bool * ParameterObj num).
Variable as_parfile_line : ParameterObj num → string.
Variable param_str : ParameterObj num → string.
Variable split_prefixed_name : string → outcome (string * string * nat).

(** [TimingModel.d_phase_d_param_num], lines 326-337: a stub. *)
Definition d_phase_d_param_num (self : TimingModel) (toas : list TOA) (param : string)
    : Comp (pyresult num unit_t) :=
  use_cache (invoke "d_phase_d_param_num" (ret (RFloat zero))).

(** [TimingModel.d_phase_d_param], lines 309-324. *)
Definition d_phase_d_param (self : TimingModel) (toas : list TOA) (param : string)
    : Comp (pyresult num unit_t) :=
  use_cache
    (invoke "d_phase_d_param"
       (let an_funcname := "d_phase_d_" +:+ param in
        match methods self an_funcname with
        | Some f => let! q := lift (f toas) in ret (RQuantity q)
        | None => d_phase_d_param_num self toas param
        end)).

(** [[par for par in self.params if incfrozen or not getattr(self, par).frozen]] *)
Fixpoint select_params (incfrozen : bool) (ps : list string) : Comp (list string) :=
  match ps with
  | [] => ret []
  | par :: ps' =>
      let! keep := (if incfrozen then ret true
                    else let! p := getattr_param par in ret (negb (frozen p))) in
      let! rest := select_params incfrozen ps' in
      ret (if keep : bool then par :: rest else rest)
  end.

(** [F0 = self.F0.value / u.s] *)
Definition F0_value : Comp num :=
  let! p := getattr_param "F0" in
  match value p with
  | PVNum x => ret x
  | PVNone | PVStr _ => raise TypeError
  end.

(** The loop of [designmatrix]: [for ii, param in enumerate(params)], from
    the column [ii] on. *)
Fixpoint fill_columns (self : TimingModel) (toas : list TOA) (F0 : num) (ii : nat)
    (ps : list string) (M : matrix num) (units : list unit_t)
    : Comp (matrix num * list unit_t) :=
  match ps with
  | [] => ret (M, units)
  | param :: ps' =>
      let dpdp := "d_phase_d_" +:+ param in
      let dddp := "d_delay_d_" +:+ param in
      let! Mu :=
        (if decide (param = "Offset") then
           let! M' := lift (set_column ii (Scalar one) M) in
           ret (M', (units ++ [u_dimensionless]))
         else
           match methods self dpdp with
           | Some f =>
               let! q0 := lift (f toas) in
               let q := mkQuantity (ndarray_div (qval q0) F0) (u_over_F0 (qunit q0)) in
               let! M' := lift (set_column ii (qval q) M) in
               ret (M', (units ++ [qunit q]))
           | None =>
               match methods self dddp with
               | Some g =>
                   let! q := lift (g toas) in
                   let! M' := lift (set_column ii (qval q) M) in
                   ret (M', (units ++ [qunit q]))
               | None => ret (M, units)
               end
           end) in
      fill_columns self toas F0 (S ii) ps' (fst Mu) (snd Mu)
  end.

(** [TimingModel.designmatrix], lines 348-386. *)
Definition designmatrix (self : TimingModel) (toas : list TOA)
    (incfrozen incoffset : bool)
    : Comp (matrix num * list string * list unit_t) :=
  use_cache
    (invoke "designmatrix"
       (let! names := get_list (params self) in
        let! selected := select_params incfrozen names in
        let params := ((if incoffset then ["Offset"] else []) ++ selected) in
        let! F0 := F0_value in
        let ntoas := length toas in
        let nparams := length params in
        let! delay := delay self toas in
        let! Mu := fill_columns self toas F0 0 params (np_zeros2 ntoas nparams) [] in
        ret (fst Mu, params, snd Mu))).

(** [TimingModel.__str__], lines 388-392. *)
Fixpoint str_loop (ps : list string) (result : string) : Comp string :=
  match ps with
  | [] => ret result
  | par :: ps' =>
      let! p := getattr_param par in
      str_loop ps' (result +:+ param_str p +:+ nl)
  end.

Definition __str__ (self : TimingModel) : Comp string :=
  let! names := get_list (params self) in
  str_loop names "".

(** [TimingModel.as_parfile], lines 394-403. *)
Fixpoint as_parfile_loop (ps : list string) (result : string) : Comp string :=
  match ps with
  | [] => ret result
  | par :: ps' =>
      let! p := getattr_param par in
      as_parfile_loop ps' (result +:+ as_parfile_line p)
  end.

(** [as_parfile] once [self.params] has been read as [names]. *)
Definition as_parfile_over (self : TimingModel) (names : list string) : Comp string :=
  let! result := as_parfile_loop names "" in
  let result := result +:+ "UNITS TDB" +:+ nl in
  match BinaryModelName self with
  | Some b => ret (result +:+ "BINARY " +:+ b +:+ nl)
  | None => ret result
  end.

Definition as_parfile (self : TimingModel) : Comp string :=
  let! names := get_list (params self) in
  as_parfile_over self names.

(** The inner loop of [read_parfile]: [for par in self.params:
    if getattr(self, par).from_parfile_line(l): parsed = True]. *)
Fixpoint offer_line (ps : list string) (l : string) (parsed : bool) : Comp bool :=
  match ps with
  | [] => ret parsed
  | par :: ps' =>
      let! p := getattr_param par in
      let! r := lift (from_parfile_line p l) in
      do! setattr_param par (snd r) in
      offer_line ps' l (if fst r then true else parsed)
  end.

(** The [if not parsed:] block of [read_parfile], lines 433-440.  The bare
    [except:] catches whatever [split_prefixed_name] raises. *)
Definition report_unrecognized (l : string) : Comp unit :=
  let unrecognized := warn ("Unrecognized parfile line '" +:+ l +:+ "'") in
  match split l with
  | tok :: _ =>
      match split_prefixed_name tok with
      | Ret (pfx, _, _) =>
          if decide (pfx ∈ ignore_prefix) then ret tt else unrecognized
      | Raise _ =>
          if decide (tok ∈ ignore_params) then ret tt else unrecognized
      end
  | [] => raise IndexError
  end.

(** One iteration of the loop of [read_parfile] on the raw line [pl]. *)
Definition read_line (self : TimingModel) (st : parfile_state) (pl : string)
    : Comp parfile_state :=
  let l := strip pl in
  if decide (l = "") then ret st
  else if startswith l "#" || bool_decide (String.substring 0 2 l = "C ") then ret st
  else
    match split l with
    | [] => raise IndexError
    | k0 :: krest =>
        let name := upper k0 in
        let rl :=
          if decide (name ∈ checked_param st) then
            let n := match repeat_param st !! name with
                     | Some c => c + 1
                     | None => 2
                     end in
            (<[name := n]> (repeat_param st), join " " ((k0 +:+ str n) :: krest))
          else (repeat_param st, l) in
        let l' := snd rl in
        do! emit (Offered l') in
        let! names := get_list (params self) in
        let! parsed := offer_line names l' false in
        do! (if parsed : bool then ret tt else report_unrecognized l') in
        ret (mkParfileState (checked_param st ++ [name]) (fst rl))
    end.

Fixpoint read_lines (self : TimingModel) (st : parfile_state) (pls : list string)
    : Comp parfile_state :=
  match pls with
  | [] => ret st
  | pl :: pls' =>
      let! st' := read_line self st pl in
      read_lines self st' pls'
  end.

(** [TimingModel.read_parfile], lines 405-446, on the lines that
    [pfile.readlines()] returned. *)
Definition read_parfile (self : TimingModel) (pfile : list string) : Comp unit :=
  let! st := read_lines self (mkParfileState [] ∅) pfile in
  setup self.

(** [xs.index(x)] *)
Fixpoint list_index (x : string) (xs : list string) : option nat :=
  match xs with
  | [] => None
  | y :: ys => if decide (y = x) then Some 0 else S <$> list_index x ys
  end.

(** The names of [xs] that are keys of [para_dict]: what
    [list(set(pNames_inpar).intersection(xs))] holds, up to order and
    repetition. *)
Definition common_names (para_dict : gmap string (list string)) (xs : list string)
    : list string :=
  filter (λ x, is_Some (para_dict !! x)) xs.

(** The alias loop of [is_in_parfile], lines 497-506. *)
Fixpoint alias_loop (para_dict : gmap string (list string)) (ps : list string)
    : Comp bool :=
  match ps with
  | [] => ret false
  | p :: ps' =>
      let! par := getattr_param p in
      let al := aliases par in
      match al with
      | [] => alias_loop para_dict ps'
      | _ :: _ =>
          match common_names para_dict al with
          | _ :: _ => ret true
          | [] => alias_loop para_dict ps'
          end
      end
  end.

(** [TimingModel.is_in_parfile], lines 449-512.  [pNames_inModel] is bound
    to the list object of [self.params] itself, not to a copy, so the [del]
    acts on the list of the model. *)
Definition is_in_parfile (self : TimingModel) (para_dict : gmap string (list string))
    : Comp bool :=
  let pNames_inModel := params self in
  let prefix_inModel := prefix_params self in
  let! names := get_list pNames_inModel in
  do! (match list_index "PSR" names with
       | Some i => put_list pNames_inModel (delete i names)
       | None => ret tt
       end) in
  if PLANET_SHAPIRO self then
    ret (negb (bool_decide (is_Some (para_dict !! "NO_SS_SHAPIRO"))))
  else
    let binary :=
      match BinaryModelName self with
      | Some b =>
          match para_dict !! "BINARY" with
          | Some (v :: _) => Some (bool_decide (b = v))
          | Some [] | None => None
          end
      | None => None
      end in
    match binary with
    | Some r => ret r
    | None =>
        let! names' := get_list pNames_inModel in
        match common_names para_dict names' with
        | [] => alias_loop para_dict names'
        | _ :: _ => ret true
        end
    end.
End Derivatives.

(** ** Observations on the ghost trace *)

Section Ghost.
Context {num TOA : Type}.

(** How many times the body of the function named [f] was entered. *)
Fixpoint count_entered (f : string) (t : list (event num TOA)) : nat :=
  match t with
  | [] => 0
  | Entered g :: t' =>
      if decide (g = f) then S (count_entered f t') else count_entered f t'
  | _ :: t' => count_entered f t'
  end.

(** The events of a level whose functions of index [i], ..., [i + n - 1] all
    ran and were summed. *)
Fixpoint level_events (lvl : string) (i n : nat) : list (event num TOA) :=
  match n with
  | 0 => []
  | S n' => Called lvl i :: Summed lvl i :: level_events lvl (S i) n'
  end.

(** The level an event of the delay loop belongs to. *)
Definition event_level (e : event num TOA) : option string :=
  match e with
  | Called lvl _ | Summed lvl _ => Some lvl
  | _ => None
  end.

(** The calls of [n] phase functions, in order, all with the same
    arguments. *)
Fixpoint phase_events (i n : nat) (toas : list TOA) (delay : list num)
    : list (event num TOA) :=
  match n with
  | 0 => []
  | S n' => CalledPhase i toas delay :: phase_events (S i) n' toas delay
  end.

(** The lines that were matched against the parameters, in order. *)
Fixpoint offered_lines (t : list (event num TOA)) : list string :=
  match t with
  | [] => []
  | Offered l :: t' => l :: offered_lines t'
  | _ :: t' => offered_lines t'
  end.
End Ghost.

(** ** Auxiliary notions for the statements *)

Section Footprints.
Context {num val TOA : Type}.
Local Abbreviation World := (World num val TOA).
Local Abbreviation Comp := (Comp num val TOA).

(** The world in which [use_cache] runs the wrapped function when it opens a
    scope itself. *)
Definition opened (w : World) : World :=
  set_self_cache (Scope (length (caches w))) (set_caches (caches w ++ [∅]) w).

(** The world [w] after the events [t]. *)
Definition extend (t : list (event num TOA)) (w : World) : World :=
  set_trace (trace w ++ t) w.

(** [c] touches nothing but the trace: in every world it has the outcome
    [o] and appends the events [t]. *)
Definition emits {A} (c : Comp A) (o : outcome A) (t : list (event num TOA)) : Prop :=
  ∀ w, c w = (o, extend t w).

(** In every world [c] has the outcome [o] and appends the events [t]; it
    may change other parts of the world. *)
Definition traces {A} (c : Comp A) (o : outcome A) (t : list (event num TOA)) : Prop :=
  ∀ w, fst (c w) = o ∧ trace (snd (c w)) = trace w ++ t.
End Footprints.

(** ** The statements about [delay] and [phase] *)

Section EvaluationStatements.
Context {num val TOA unit_t : Type} `{Numeric num} `{PhaseOps num}.
Local Abbreviation World := (World num val TOA).
Local Abbreviation TimingModel := (@TimingModel num val TOA unit_t).

(** At every moment at which [delay] starts a delay function of level L2,
    the results of all the delay functions of level L1 have been added into
    the total. *)
Definition L1_summed_before_L2_runs (self : TimingModel) (toas : list TOA) (w : World) : Prop :=
  ∀ before j after fs1 i,
    trace (snd (delay self toas w)) = trace w ++ before ++ Called "L2" j :: after →
    dict_get (delay_funcs self) "L1" = Some fs1 →
    i < length fs1 →
    Summed "L1" i ∈ before.

(** The same for any two levels: at every moment at which [delay] starts a
    delay function of level [later], the results of all the delay functions
    of level [earlier] have been added into the total. *)
Definition level_summed_before_level_runs (earlier later : string)
    (self : TimingModel) (toas : list TOA) (w : World) : Prop :=
  ∀ before j after fs i,
    trace (snd (delay self toas w)) = trace w ++ before ++ Called later j :: after →
    dict_get (delay_funcs self) earlier = Some fs →
    i < length fs →
    Summed earlier i ∈ before.

(** The delay functions [dfs] applied in order, each to the observations
    only, their results added into the total [acc] by [+=]. *)
Fixpoint accumulate_delay
    (dfs : list (list TOA → outcome (ndarray num)))
    (toas : list TOA) (acc : list num) : outcome (list num) :=
  match dfs with
  | [] => Ret acc
  | df :: dfs' =>
      match df toas with
      | Ret x =>
          match iadd acc x with
          | Ret acc' => accumulate_delay dfs' toas acc'
          | Raise e => Raise e
          end
      | Raise e => Raise e
      end
  end.

(** The phase functions applied in registration order to the same
    observations and the same total delay, their results accumulated by
    [Phase] addition. *)
Fixpoint accumulate_phase
    (pfs : list (list TOA → list num → outcome (ndarray num)))
    (toas : list TOA) (delay : list num) (acc : Phase num) : outcome (Phase num) :=
  match pfs with
  | [] => Ret acc
  | pf :: pfs' =>
      match pf toas delay with
      | Ret x =>
          match Phase1 x with
          | Ret p =>
              match Phase_add acc p with
              | Ret acc' => accumulate_phase pfs' toas delay acc'
              | Raise e => Raise e
              end
          | Raise e => Raise e
          end
      | Raise e => Raise e
      end
  end.
End EvaluationStatements.

(** ** The statements about derivatives and the design matrix *)

Section DesignStatements.
Context {num val TOA unit_t : Type} `{Numeric num} `{PhaseOps num}.
Local Abbreviation World := (World num val TOA).
Local Abbreviation TimingModel := (@TimingModel num val TOA unit_t).

(** The column [j] of a matrix, row by row. *)
Definition column (j : nat) (M : matrix num) : list (option num) :=
  map (λ row, row !! j) (rows M).

(** A matrix whose declared shape [(n, m)] is the shape of its rows. *)
Definition wf_matrix (n m : nat) (M : matrix num) : Prop :=
  nrows M = n ∧ ncols M = m ∧ length (rows M) = n
  ∧ Forall (λ row, length row = m) (rows M).

(** The free (unfrozen) parameters among [names], in order. *)
Definition free_params (w : World) (names : list string) : list string :=
  filter (λ par, (frozen <$> attrs w !! par) = Some false) names.

(** The parameters [designmatrix] makes columns for. *)
Definition requested_columns (w : World) (names : list string)
    (incfrozen incoffset : bool) : list string :=
  (if incoffset then ["Offset"] else [])
  ++ (if incfrozen then names else free_params w names).

(** The model has neither [d_phase_d_<p>] nor [d_delay_d_<p>], and [p] is
    not the offset column. *)
Definition no_derivative_path (self : TimingModel) (p : string) : Prop :=
  p ≠ "Offset"
  ∧ methods self ("d_phase_d_" +:+ p) = None
  ∧ methods self ("d_delay_d_" +:+ p) = None.

(** The derivative function that [designmatrix] would call for [p], if any,
    returns values that fit a column of [length toas] entries. *)
Definition column_ok (self : TimingModel) (toas : list TOA) (p : string) : bool :=
  if decide (p = "Offset") then true
  else
    match methods self ("d_phase_d_" +:+ p) with
    | Some f =>
        match f toas with
        | Ret q => is_ret (broadcast_to (length toas) (qval q))
        | Raise _ => false
        end
    | None =>
        match methods self ("d_delay_d_" +:+ p) with
        | Some g =>
            match g toas with
            | Ret q => is_ret (broadcast_to (length toas) (qval q))
            | Raise _ => false
            end
        | None => true
        end
    end.

(** A derivative "vector": one value per observation, with a unit. *)
Definition per_observation_vector (toas : list TOA) (r : pyresult num unit_t) : Prop :=
  match r with
  | RQuantity q =>
      match qval q with
      | Vec xs => length xs = length toas
      | Scalar _ => False
      end
  | RFloat _ => False
  end.

Definition outcome_map {A B} (f : A → B) (o : outcome A) : outcome B :=
  match o with
  | Ret a => Ret (f a)
  | Raise e => Raise e
  end.

(** C7 as the claim states it: the analytic function's result when there is
    one, else the numeric estimator's result, which is a per-observation
    vector. *)
Definition d_phase_d_param_as_claimed (self : TimingModel) (toas : list TOA)
    (param : string) (w : World) : Prop :=
  match methods self ("d_phase_d_" +:+ param) with
  | Some f => fst (d_phase_d_param self toas param w) = outcome_map RQuantity (f toas)
  | None =>
      fst (d_phase_d_param self toas param w) = fst (d_phase_d_param_num self toas param w)
      ∧ ∃ r, fst (d_phase_d_param self toas param w) = Ret r
             ∧ per_observation_vector toas r
  end.
End DesignStatements.

Section DesignStatements2.
Context {num val TOA unit_t : Type} `{Numeric num} `{PhaseOps num}.
Local Abbreviation World := (World num val TOA).
Local Abbreviation TimingModel := (@TimingModel num val TOA unit_t).
Variable u_dimensionless : unit_t.
Variable u_over_F0 : unit_t → unit_t.

(** C3 as the claim states it: a requested column for a parameter without
    any derivative path makes [designmatrix] fail, and so does the request
    of its derivative from [d_phase_d_param]. *)
Definition unavailable_derivative_raises (self : TimingModel) (toas : list TOA)
    (incfrozen incoffset : bool) (w : World) : Prop :=
  ∀ p, p ∈ requested_columns w (default [] (lists w !! params self)) incfrozen incoffset →
       no_derivative_path self p →
       is_ret (fst (designmatrix u_dimensionless u_over_F0 self toas incfrozen incoffset w)) = false
       ∧ is_ret (fst (d_phase_d_param self toas p w)) = false.
End DesignStatements2.

(** ** The statements about [read_parfile] *)

(** A stripped line that the loop of [read_parfile] skips: blank, or a
    comment. *)
Definition is_skipped (l : string) : bool :=
  bool_decide (l = "") || startswith l "#" || bool_decide (String.substring 0 2 l = "C ").

(** The lines of a parfile that are matched against the parameters. *)
Definition significant (pfile : list string) : list string :=
  filter (λ l, is_skipped l = false) (map strip pfile).

(** The parameter name of a line: its first token, upper-cased. *)
Definition line_name (l : string) : string :=
  match split l with
  | k0 :: _ => upper k0
  | [] => ""
  end.

(** How often [name] occurs in [seen]. *)
Definition occurrences (name : string) (seen : list string) : nat :=
  length (filter (λ n, n = name) seen).

(** The line [l] with the counter [k] appended to its first token. *)
Definition suffix_first (l : string) (k : nat) : string :=
  match split l with
  | k0 :: krest => join " " ((k0 +:+ str k) :: krest)
  | [] => l
  end.

(** The spec's rule: the [k]-th line with a given name is left as it is for
    [k = 1] and gets the suffix [k] for [k >= 2].  [seen] are the names of
    the lines before. *)
Fixpoint disambiguate (seen : list string) (ls : list string) : list string :=
  match ls with
  | [] => []
  | l :: ls' =>
      let k := S (occurrences (line_name l) seen) in
      (if decide (2 ≤ k) then suffix_first l k else l)
      :: disambiguate (seen ++ [line_name l]) ls'
  end.

(** What links the state of the loop to the names of the lines read so
    far. *)
Definition parfile_inv (seen : list string) (st : parfile_state) : Prop :=
  checked_param st = seen
  ∧ ∀ n, repeat_param st !! n
         = if decide (2 ≤ occurrences n seen) then Some (occurrences n seen) else None.

Section ParfileStatements.
Context {num val TOA unit_t : Type}.
Local Abbreviation World := (World num val TOA).
Local Abbreviation TimingModel := (@TimingModel num val TOA unit_t).
Variable from_parfile_line : ParameterObj num → string → outcome (bool * ParameterObj num).
Variable split_prefixed_name : string → outcome (string * string * nat).

(** C8's last clause as the claim states it, for the line [l] read after the
    lines [before]: when the name of [l] has occurred before, a parameter
    that an earlier line gave a value keeps that value, unless a warning is
    logged. *)
Definition repeated_line_keeps_values (self : TimingModel)
    (before : list string) (l : string) (w : World) : Prop :=
  line_name (strip l) ∈ map line_name (significant before) →
  let w1 := snd (read_lines from_parfile_line split_prefixed_name self
                   (mkParfileState [] ∅) before w) in
  let w2 := snd (read_lines from_parfile_line split_prefixed_name self
                   (mkParfileState [] ∅) (before ++ [l]) w) in
  ∀ par p0 p1,
    attrs w !! par = Some p0 →
    attrs w1 !! par = Some p1 →
    value p1 ≠ value p0 →
    (∃ p2, attrs w2 !! par = Some p2 ∧ value p2 = value p1)
    ∨ warnings w2 ≠ warnings w1.
End ParfileStatements.

(** Modelled from the spec: [Parameter.from_parfile_line] (the spec's
    [parse_line], section 4.1), which is not among the sources: the line
    matches when its first token is the parameter's name or one of its
    aliases, case-insensitively; on a match the value is taken from the
    second token. *)
Definition from_parfile_line_spec {num : Type} (p : ParameterObj num) (line : string)
    : outcome (bool * ParameterObj num) :=
  match split line with
  | k0 :: v :: _ =>
      if decide (upper k0 ∈ map upper (name p :: aliases p)) then
        Ret (true, mkParameter (name p) (PVStr v) (frozen p) (aliases p)
                     (is_prefix p) (prefix p) (index p))
      else Ret (false, p)
  | _ => Ret (false, p)
  end.

(** ** The statement about [is_in_parfile] *)

(** [del xs[xs.index(x)]] inside [try: ... except: pass]: the first
    occurrence of [x] is removed; when there is none, [index] raises, the
    exception is swallowed and the list stays. *)
Definition remove_first (x : string) (xs : list string) : list string :=
  match list_index x xs with
  | Some i => delete i xs
  | None => xs
  end.

(** ** IEEE 754 floats as the carrier

    numpy's floats, as the specification of binary floating point of the
    Standard Library gives them: [prec] bits of mantissa, exponents below
    [emax].  [np.float64] is [ieee 53 1024]; the x87 [np.longdouble] is
    [ieee 64 16384]. *)

Definition ieee (prec emax : Z) : Numeric spec_float :=
  {| zero := S754_zero false;
     one := SFone prec emax;
     add := SFadd prec emax;
     div := SFdiv prec emax;
     ltb := SFltb |}.

Definition binary64 : Numeric spec_float := ieee 53 1024.

(** The [np.float64] of an integer, and of an integer times a power of two. *)
Definition fl (z : Z) : spec_float := binary_normalize 53 1024 z 0 false.
Definition fl2 (z e : Z) : spec_float := binary_normalize 53 1024 z e false.

(** ** Example models

    Small models over [np.float64], with observations numbered by [nat],
    cached values in [nat] and units written as strings. *)

(** A [PhaseOps] for the examples, in which a phase keeps its whole value in
    the fractional part: [Phase(x)] has integer part zero, and the addition
    adds both parts entry by entry. *)
Definition example_PhaseOps : PhaseOps spec_float :=
  {| Phase1 := λ x,
       match x with
       | Vec xs => Ret (mkPhase (map (λ _, S754_zero false) xs) xs)
       | Scalar x => Ret (mkPhase [S754_zero false] [x])
       end;
     Phase2 := λ i f, Ret (mkPhase i f);
     Phase_add := λ p q,
       if decide (length (frac p) = length (frac q)) then
         Ret (mkPhase (zip_with (SFadd 53 1024) (int p) (int q))
                      (zip_with (SFadd 53 1024) (frac p) (frac q)))
       else Raise ValueError |}.

Definition PSR_param : ParameterObj spec_float :=
  mkParameter "PSR" (PVStr "J0437-4715") true ["PSRJ"; "PSRB"] false "" 0.
Definition F0_param : ParameterObj spec_float :=
  mkParameter "F0" (PVNum (fl 100)) false [] false "" 0.
Definition F1_param : ParameterObj spec_float :=
  mkParameter "F1" (PVNum (fl 0)) true [] false "" 0.
Definition DM_param : ParameterObj spec_float :=
  mkParameter "DM" PVNone false [] false "" 0.
Definition DM2_param : ParameterObj spec_float :=
  mkParameter "DM2" PVNone false [] false "" 0.

(** The world of a model with the parameters PSR, F0, F1 (frozen), DM and
    DM2, no cache scope, and the list of [self.params] at location 0. *)
Definition example_world : World spec_float nat nat :=
  mkWorld PyNone []
    [["PSR"; "F0"; "F1"; "DM"; "DM2"]; []]
    (<["PSR" := PSR_param]> (<["F0" := F0_param]> (<["F1" := F1_param]>
       (<["DM" := DM_param]> (<["DM2" := DM2_param]> ∅)))))
    [] [].

(** The same world inside an active scope whose [Cache] instance is empty. *)
Definition example_scoped_world : World spec_float nat nat :=
  set_self_cache (Scope 0) (set_caches [∅] example_world).

Definition L1_delay (toas : list nat) : outcome (ndarray spec_float) :=
  Ret (Vec (map (λ _, fl 2) toas)).
Definition L2_delay (toas : list nat) : outcome (ndarray spec_float) :=
  Ret (Scalar (fl 1)).
Definition failing_delay (toas : list nat) : outcome (ndarray spec_float) :=
  Raise (ComponentError "no ephemeris").

(** A phase function giving [-0.25] turns at each observation, and another
    giving [0.5] turns. *)
Definition quarter_back (toas : list nat) (delay : list spec_float)
    : outcome (ndarray spec_float) :=
  Ret (Vec (map (λ _, fl2 (-1) (-2)) toas)).
Definition half_turn (toas : list nat) (delay : list spec_float)
    : outcome (ndarray spec_float) :=
  Ret (Scalar (fl2 1 (-1))).

(** The only analytic derivative of the example: [d_phase_d_F0]. *)
Definition example_methods (attr : string)
    : option (list nat → outcome (quantity spec_float string)) :=
  if decide (attr = "d_phase_d_F0") then
    Some (λ toas, Ret (mkQuantity (Vec (map (λ t, fl (Z.of_nat t)) toas)) "s"))
  else None.

Definition example_model : @TimingModel spec_float nat nat string :=
  mkTimingModel 0 1 None
    [("L1", [L1_delay]); ("L2", [L2_delay])]
    [quarter_back]
    example_methods false None (ret tt).

(** The same model with the levels of [delay_funcs] in the other key
    order. *)
Definition L2_first_model : @TimingModel spec_float nat nat string :=
  mkTimingModel 0 1 None
    [("L2", [L2_delay]); ("L1", [L1_delay])]
    [quarter_back]
    example_methods false None (ret tt).

(** The same model with a level-1 delay function that raises. *)
Definition failing_model : @TimingModel spec_float nat nat string :=
  mkTimingModel 0 1 None
    [("L1", [failing_delay]); ("L2", [L2_delay])]
    [quarter_back]
    example_methods false None (ret tt).

(** The attributes that the class [Cache] defines itself. *)
Definition Cache_class_attr (attr : string) : option nat :=
  if decide (attr ∈ ["the_cache"; "cache_result"; "use_cache"]) then Some 0 else None.

(** A computation to be cached: a method body named [phase] that returns 42
    and changes nothing else. *)
Definition answer : Comp spec_float nat nat nat := invoke "phase" (ret 42).

(** No name is a prefixed name. *)
Definition no_prefixed_name (tok : string) : outcome (string * string * nat) :=
  Raise ValueError.

(** ** Further methods of [TimingModel] *)

(** [s[:-9]]: the string without its last nine characters, empty when it has
    no more than nine. *)
Definition drop_last_9 (s : string) : string :=
  String.substring 0 (String.length s - 9) s.

Section Lookup.
Context {num val TOA unit_t : Type} `{Numeric num} `{PhaseOps num}.
Local Abbreviation World := (World num val TOA).
Local Abbreviation Comp := (Comp num val TOA).
Local Abbreviation TimingModel := (@TimingModel num val TOA unit_t).

(** What the sources do not include: [type(par).__name__], the name of the
    class of a parameter object; [Parameter.help_line]; [str(self.__class__)];
    the entry [toas['tdbld']] of one observation; and [x*u.day - d*u.second]
    on one entry, the value of the difference in days. *)
Variable type_name : ParameterObj num → string.
Variable help_line : ParameterObj num → string.
Variable class_repr : string.
Variable tdbld : TOA → num.
Variable day_minus_second : num → num → num.

(** [TimingModel.param_help], lines 160-166. *)
Fixpoint param_help_loop (ps : list string) (s : string) : Comp string :=
  match ps with
  | [] => ret s
  | par :: ps' =>
      let! p := getattr_param par in
      param_help_loop ps' (s +:+ help_line p +:+ nl)
  end.

Definition param_help (self : TimingModel) : Comp string :=
  let! names := get_list (params self) in
  param_help_loop names ("Available parameters for " +:+ class_repr +:+ nl).

(** [TimingModel.get_params_of_type], lines 168-179. *)
Fixpoint get_params_of_type_loop (param_type : string) (ps : list string)
    (result : list string) : Comp (list string) :=
  match ps with
  | [] => ret result
  | p :: ps' =>
      let! par := getattr_param p in
      let par_type := type_name par in
      let par_prefix := drop_last_9 par_type in
      get_params_of_type_loop param_type ps'
        (if bool_decide (upper param_type = upper par_type)
            || bool_decide (upper param_type = upper par_prefix)
         then result ++ [name par] else result)
  end.

Definition get_params_of_type (self : TimingModel) (param_type : string)
    : Comp (list string) :=
  let! names := get_list (params self) in
  get_params_of_type_loop param_type names [].

(** The loop of [get_prefix_mapping]: [mapping[par.index] = parname] for the
    prefix parameters of that prefix. *)
Fixpoint get_prefix_mapping_loop (pfx : string) (parnames : list string)
    (mapping : gmap nat string) : Comp (gmap nat string) :=
  match parnames with
  | [] => ret mapping
  | parname :: rest =>
      let! par := getattr_param parname in
      get_prefix_mapping_loop pfx rest
        (if is_prefix par && bool_decide (prefix par = pfx)
         then <[index par := parname]> mapping else mapping)
  end.

(** [TimingModel.get_prefix_mapping], lines 181-199. *)
Definition get_prefix_mapping (self : TimingModel) (pfx : string)
    : Comp (gmap nat string) :=
  use_cache
    (invoke "get_prefix_mapping"
       (let! names := get_list (params self) in
        let parnames := filter (λ x, startswith x pfx = true) names in
        get_prefix_mapping_loop pfx parnames ∅)).

(** [TimingModel.get_barycentric_toas], lines 226-233: only the delay
    functions of level L1 are summed. *)
Definition get_barycentric_toas (self : TimingModel) (toas : list TOA)
    : Comp (list num) :=
  use_cache
    (invoke "get_barycentric_toas"
       (let toasObs := map tdbld toas in
        match dict_get (delay_funcs self) "L1" with
        | Some dfs =>
            let! delay := delay_level "L1" 0 dfs toas (np_zeros (length toas)) in
            ret (zip_with day_minus_second toasObs delay)
        | None => raise (KeyError "L1")
        end)).
End Lookup.

(** ** [generate_timing_model] *)

(** What can stand as a component: a class, which is or is not a subclass of
    [TimingModel], or an object that is no class. *)
Inductive component : Type :=
  | PyClass (cname : string) (is_TimingModel : bool)
  | NotAClass.

(** The second argument: an object with a length, iterated as a sequence of
    components, or an object on which [len] raises, a class for one. *)
Inductive components_arg : Type :=
  | Sized (cs : list component)
  | Unsized (c : component).

(** A [TypeError] with its message. *)
Inductive type_error : Type :=
  | TypeErrorMsg (msg : string).

(** A class that is a subclass of [TimingModel]. *)
Definition is_model_class (c : component) : bool :=
  match c with
  | PyClass _ is_sub => is_sub
  | NotAClass => false
  end.

Section GenerateTimingModel.
Context {cls attributes_t : Type}.

(** The builtin [type(name, bases, dict)]. *)
Variable py_type : string → list component → attributes_t → type_error + cls.

(** The body of the [try] of lines 533-536 for one component. *)
Definition subclass_check (c : component) : type_error + unit :=
  match c with
  | NotAClass => inl (TypeErrorMsg "issubclass() arg 1 must be a class")
  | PyClass cname is_sub =>
      if is_sub then inr tt
      else inl (TypeErrorMsg ("Class " +:+ cname +:+ " is not a subclass of TimingModel"))
  end.

(** The loop of lines 532-539: whatever the [try] raises, the bare [except]
    raises the [TypeError] of line 538 in its place. *)
Fixpoint check_components (components : list component) : type_error + unit :=
  match components with
  | [] => inr tt
  | c :: rest =>
      match subclass_check c with
      | inr _ => check_components rest
      | inl _ =>
          inl (TypeErrorMsg ("generate_timing_model() Arg 2" +:+ "has to be a tuple of classes"))
      end
  end.

(** [generate_timing_model], lines 514-541. *)
Definition generate_timing_model (name : string) (components : components_arg)
    (attributes : attributes_t) : type_error + cls :=
  let components :=
    match components with
    | Sized cs => cs
    | Unsized c => [c]
    end in
  match check_components components with
  | inr _ => py_type name components attributes
  | inl e => inl e
  end.
End GenerateTimingModel.

(** ** [emcee_fitter.get_lnprior_vals] of [examples/event_optimize.py] *)

Section Fitter.
Context {num val TOA unit_t obj : Type}.
Local Abbreviation World := (World num val TOA).
Local Abbreviation Comp := (Comp num val TOA).
Local Abbreviation TimingModel := (@TimingModel num val TOA unit_t).

(** Python objects that the sources do not describe, of a type [obj]:
    [obj_of v] is the object that the attribute [value] of a parameter
    holds; [scaled_uncertainty par errfact] is [par.uncertainty * errfact];
    [dot_value x] is [x.value]. *)
Variable obj_of : pvalue num → obj.
Variable scaled_uncertainty : ParameterObj num → num → outcome obj.
Variable dot_value : obj → outcome obj.

(** [xs[-1] = xs[-1].value] *)
Definition last_to_value (xs : list obj) : Comp (list obj) :=
  match last xs with
  | Some x =>
      let! v := lift (dot_value x) in
      ret (<[length xs - 1 := v]> xs)
  | None => raise IndexError
  end.

(** The loop of lines 114-120. *)
Fixpoint get_lnprior_vals_loop (errfact : num) (fitkeys : list string)
    (fitvals fiterrs : list obj) : Comp (list obj * list obj) :=
  match fitkeys with
  | [] => ret (fitvals, fiterrs)
  | p :: rest =>
      let! par := getattr_param p in
      let fitvals := fitvals ++ [obj_of (value par)] in
      let! par' := getattr_param p in
      let! err := lift (scaled_uncertainty par' errfact) in
      let fiterrs := fiterrs ++ [err] in
      let! both :=
        (if decide (p ∈ ["RAJ"; "DECJ"; "T0"]) then
           let! fitvals' := last_to_value fitvals in
           if decide (p ≠ "T0") then
             let! fiterrs' := last_to_value fiterrs in
             ret (fitvals', fiterrs')
           else ret (fitvals', fiterrs)
         else ret (fitvals, fiterrs)) in
      get_lnprior_vals_loop errfact rest (fst both) (snd both)
  end.

(** [emcee_fitter.get_lnprior_vals], lines 106-121, for the model of the
    fitter; [np.asarray] is left out, the lists stand for the arrays. *)
Definition get_lnprior_vals (model : TimingModel) (errfact : num)
    : Comp (list string * list obj * list obj) :=
  let! names := get_list (params model) in
  let! fitkeys := select_params false names in
  let! both := get_lnprior_vals_loop errfact fitkeys [] [] in
  ret (fitkeys, fst both, snd both).
End Fitter.

(** ** [chains_to_dict] of [examples/event_optimize.py] *)

(** A numpy array of three dimensions with its shape: [cells] holds [dim0]
    lists of [dim1] lists of [dim2] entries.  For [sampler.chain] these are
    the walkers, the steps and the parameters. *)
Record array3 (num : Type) : Type := mkArray3 {
  dim0 : nat;
  dim1 : nat;
  dim2 : nat;
  cells : list (list (list num))
}.
Arguments mkArray3 {num}.
Arguments dim0 {num}.
Arguments dim1 {num}.
Arguments dim2 {num}.
Arguments cells {num}.

Section Chains.
Context {num : Type}.

(** [a[:,:,ii]] for an index [ii] that is not negative. *)
Definition slice_last (ii : nat) (a : array3 num) : outcome (matrix num) :=
  if decide (ii < dim2 a) then
    match mapM (mapM (λ cell : list num, cell !! ii)) (cells a) with
    | Some rows => Ret (mkMatrix (dim0 a) (dim1 a) rows)
    | None => Raise IndexError
    end
  else Raise IndexError.

(** The rows of [m.T], for rows of [n] entries. *)
Fixpoint transpose_rows (n : nat) (rows : list (list num)) : list (list num) :=
  match rows with
  | [] => replicate n []
  | r :: rs => zip_with cons r (transpose_rows n rs)
  end.

(** [m.T] *)
Definition transpose (m : matrix num) : matrix num :=
  mkMatrix (ncols m) (nrows m) (transpose_rows (ncols m) (rows m)).

(** [[sampler.chain[:,:,ii].T for ii in range(n)]], from the index [ii]
    on. *)
Fixpoint chains_from (chain : array3 num) (ii n : nat) : outcome (list (matrix num)) :=
  match n with
  | 0 => Ret []
  | S n' =>
      match slice_last ii chain with
      | Ret m =>
          match chains_from chain (S ii) n' with
          | Ret ms => Ret (transpose m :: ms)
          | Raise e => Raise e
          end
      | Raise e => Raise e
      end
  end.

(** [dict(pairs)]: a later pair replaces an earlier one of the same key. *)
Definition dict_of {A} (pairs : list (string * A)) : gmap string A :=
  foldl (λ d kv, <[kv.1 := kv.2]> d) ∅ pairs.

(** [chains_to_dict], lines 281-283, on [sampler.chain]. *)
Definition chains_to_dict (names : list string) (chain : array3 num)
    : outcome (gmap string (matrix num)) :=
  match chains_from chain 0 (length names) with
  | Ret chains => Ret (dict_of (zip names chains))
  | Raise e => Raise e
  end.

(** An array whose cells have the shape it declares. *)
Definition wf_array3 (a : array3 num) : Prop :=
  length (cells a) = dim0 a
  ∧ Forall (λ plane, length plane = dim1 a
                     ∧ Forall (λ cell : list num, length cell = dim2 a) plane) (cells a).

(** The entry [a[k, s, i]], and the entry [m[s, k]]. *)
Definition entry3 (a : array3 num) (k s i : nat) : option num :=
  match cells a !! k with
  | Some plane =>
      match plane !! s with
      | Some cell => cell !! i
      | None => None
      end
  | None => None
  end.
Definition entry2 (m : matrix num) (s k : nat) : option num :=
  match rows m !! s with
  | Some row => row !! k
  | None => None
  end.
End Chains.

(** ** Notions for the further properties *)

Section CacheStatements.
Context {num val TOA : Type}.
Local Abbreviation World := (World num val TOA).
Local Abbreviation Comp := (Comp num val TOA).

(** A computation that does not rebind [self.cache]. *)
Definition keeps_cache {A} (c : Comp A) : Prop :=
  ∀ w, self_cache (snd (c w)) = self_cache w.

(** The receivers on which [use_cache] opens no scope: those without a
    [cache] attribute and those whose scope is active. *)
Definition not_opening (w : World) : Prop :=
  self_cache w = Missing ∨ scope_active (self_cache w) = true.

(** A computation that, run where [use_cache] opens no scope, changes
    nothing but the ghost trace. *)
Definition only_trace {A} (c : Comp A) : Prop :=
  ∀ w, not_opening w → ∃ o t, c w = (o, extend t w).

(** What a call leaves of the world [w] when it only evaluates: the list
    objects, the parameters and the warnings are as before; a receiver with
    an active scope, or without a [cache] attribute, keeps its cache as it
    is; a receiver whose [cache] is no [Cache] instance gets exactly one new,
    empty instance, which is dropped again ([cache] is [None]) when the call
    returns and stays when it raises. *)
Definition evaluates_only {A} (c : Comp A) (w : World) : Prop :=
  let w' := snd (c w) in
  lists w' = lists w ∧ attrs w' = attrs w ∧ warnings w' = warnings w
  ∧ match self_cache w with
    | Scope _ | Missing => self_cache w' = self_cache w ∧ caches w' = caches w
    | PyNone | Foreign =>
        caches w' = caches w ++ [∅]
        ∧ self_cache w' = if is_ret (fst (c w)) then PyNone
                          else Scope (length (caches w))
    end.



End CacheStatements.

Section LookupStatements.
Context {num val TOA : Type}.
Local Abbreviation World := (World num val TOA).
Variable type_name : ParameterObj num → string.

(** The name [n] is bound to a prefix parameter of prefix [pfx] and index
    [i]. *)
Definition bound_to_prefix_param (w : World) (pfx : string) (i : nat) (n : string)
    : bool :=
  match attrs w !! n with
  | Some p => is_prefix p && bool_decide (prefix p = pfx) && bool_decide (index p = i)
  | None => false
  end.

(** The same, for a name that starts with [pfx]. *)
Definition is_prefix_param (w : World) (pfx : string) (i : nat) (n : string) : bool :=
  startswith n pfx && bound_to_prefix_param w pfx i n.

(** The name [n] is bound to a parameter whose class name, or whose class
    name without its last nine characters, is [param_type] up to the case of
    the letters. *)
Definition has_type (w : World) (param_type : string) (n : string) : bool :=
  match attrs w !! n with
  | Some p =>
      bool_decide (upper param_type = upper (type_name p))
      || bool_decide (upper param_type = upper (drop_last_9 (type_name p)))
  | None => false
  end.

(** Every name of the list is bound, to a parameter of that name (as
    [add_param] binds them). *)
Definition bound_by_name (w : World) (names : list string) : Prop :=
  Forall (λ n, ∃ p, attrs w !! n = Some p ∧ name p = n) names.
End LookupStatements.

Section DelayStatements.
Context {num val TOA unit_t : Type} `{Numeric num}.
Local Abbreviation TimingModel := (@TimingModel num val TOA unit_t).

(** The delay function [df] returns, on [toas], a value that numpy can add
    to an array with one entry per observation: a 0-d value, or an array of
    length one or of that length. *)
Definition delay_func_fits (toas : list TOA) (df : list TOA → outcome (ndarray num))
    : Prop :=
  ∃ x, df toas = Ret x ∧ is_ret (broadcast_to (length toas) x) = true.

(** All the delay functions of the model do. *)
Definition delay_funcs_fit (self : TimingModel) (toas : list TOA) : Prop :=
  Forall (λ kv, Forall (delay_func_fits toas) kv.2) (delay_funcs self).
End DelayStatements.

Section ColumnStatements.
Context {num val TOA unit_t : Type} `{Numeric num}.
Local Abbreviation TimingModel := (@TimingModel num val TOA unit_t).
Variable u_dimensionless : unit_t.
Variable u_over_F0 : unit_t → unit_t.

(** What [designmatrix] assigns to the column of [p]: [1.0] for the offset;
    else the result of [d_phase_d_<p>] divided by [F0] when the model has
    that function; else the result of [d_delay_d_<p>], undivided; else
    nothing. *)
Definition column_value (self : TimingModel) (toas : list TOA) (F0 : num) (p : string)
    : option (ndarray num) :=
  if decide (p = "Offset") then Some (Scalar one)
  else
    match methods self ("d_phase_d_" +:+ p) with
    | Some f =>
        match f toas with
        | Ret q => Some (ndarray_div (qval q) F0)
        | Raise _ => None
        end
    | None =>
        match methods self ("d_delay_d_" +:+ p) with
        | Some g =>
            match g toas with
            | Ret q => Some (qval q)
            | Raise _ => None
            end
        | None => None
        end
    end.

(** The unit that [designmatrix] appends for the column of [p], if any. *)
Definition column_unit (self : TimingModel) (toas : list TOA) (p : string)
    : option unit_t :=
  if decide (p = "Offset") then Some u_dimensionless
  else
    match methods self ("d_phase_d_" +:+ p) with
    | Some f =>
        match f toas with
        | Ret q => Some (u_over_F0 (qunit q))
        | Raise _ => None
        end
    | None =>
        match methods self ("d_delay_d_" +:+ p) with
        | Some g =>
            match g toas with
            | Ret q => Some (qunit q)
            | Raise _ => None
            end
        | None => None
        end
    end.
End ColumnStatements.

(** ** Tokens *)

(** No character of [s] is a blank. *)
Fixpoint no_blank (s : string) : bool :=
  match s with
  | EmptyString => true
  | String c s' => negb (is_space c) && no_blank s'
  end.

(** A token, as [split] returns them: not empty and without a blank. *)
Definition is_token (s : string) : bool :=
  negb (bool_decide (s = "")) && no_blank s.

(** A decimal digit. *)
Definition is_digit (c : ascii) : bool :=
  let n := nat_of_ascii c in Nat.leb 48 n && Nat.leb n 57.

Fixpoint all_digits (s : string) : bool :=
  match s with
  | EmptyString => true
  | String c s' => is_digit c && all_digits s'
  end.

(** The suffixes of [s] that are not empty and consist of digits. *)
Fixpoint digit_suffixes (s : string) : list string :=
  match s with
  | EmptyString => []
  | String c s' => (if all_digits s then [s] else []) ++ digit_suffixes s'
  end.

Section InParfileStatements.
Context {num val TOA : Type}.
Local Abbreviation World := (World num val TOA).

(** The parfile names the parameter [n] of the model: [n] is a key of
    [para_dict], or one of the aliases of the parameter bound to [n] is. *)
Definition named_in_parfile (para_dict : gmap string (list string)) (w : World)
    (n : string) : Prop :=
  is_Some (para_dict !! n)
  ∨ ∃ p a, attrs w !! n = Some p ∧ a ∈ aliases p ∧ is_Some (para_dict !! a).
End InParfileStatements.

(** ** Further example models *)

Definition DMX1_param : ParameterObj spec_float :=
  mkParameter "DMX_0001" (PVNum (fl 1)) false [] true "DMX_" 1.
Definition DMX2_param : ParameterObj spec_float :=
  mkParameter "DMX_0002" (PVNum (fl 2)) false [] true "DMX_" 2.
Definition DMXR1_param : ParameterObj spec_float :=
  mkParameter "DMXR1_0001" PVNone true [] true "DMXR1_" 1.

(** The world of a model with PSR and three prefix parameters. *)
Definition prefix_world : World spec_float nat nat :=
  mkWorld PyNone []
    [["PSR"; "DMX_0001"; "DMXR1_0001"; "DMX_0002"]; []]
    (<["PSR" := PSR_param]> (<["DMX_0001" := DMX1_param]>
       (<["DMXR1_0001" := DMXR1_param]> (<["DMX_0002" := DMX2_param]> ∅))))
    [] [].

(** Class names for the parameters of the examples. *)
Definition example_type_name (p : ParameterObj spec_float) : string :=
  if is_prefix p then "prefixParameter"
  else match value p with
       | PVStr _ => "strParameter"
       | PVNone | PVNum _ => "floatParameter"
       end.

(** The world of a model that has no parameter F0. *)
Definition no_F0_world : World spec_float nat nat :=
  mkWorld PyNone [] [["PSR"; "DM"]; []]
    (<["PSR" := PSR_param]> (<["DM" := DM_param]> ∅)) [] [].

(** The world of a model in which a line [PSRJ ...] is taken by two
    parameters: by PSR, of which PSRJ is an alias, and by a parameter of
    the name PSRJ. *)
Definition PSRJ_param : ParameterObj spec_float :=
  mkParameter "PSRJ" PVNone true [] false "" 0.
Definition two_takers_world : World spec_float nat nat :=
  mkWorld PyNone [] [["PSR"; "PSRJ"]; []]
    (<["PSR" := PSR_param]> (<["PSRJ" := PSRJ_param]> ∅)) [] [].

(** Another computation of the name [phase]. *)
Definition other_answer : Comp spec_float nat nat nat := invoke "phase" (ret 7).

(** A [type] for the examples: the class is its name and its bases. *)
Definition example_py_type (name : string) (bases : list component) (attributes : unit)
    : type_error + (string * list component) :=
  inr (name, bases).

(** Objects for the fitter of the examples: a value is its [pvalue], the
    uncertainty of every parameter is [errfact] itself, and [x.value] is
    [x]. *)
Definition example_scaled_uncertainty (p : ParameterObj spec_float) (errfact : spec_float)
    : outcome (pvalue spec_float) :=
  Ret (PVNum errfact).
Definition example_dot_value (x : pvalue spec_float) : outcome (pvalue spec_float) :=
  Ret x.

(** A chain of two walkers, three steps and two parameters. *)
Definition example_chain : array3 nat :=
  mkArray3 2 3 2
    [[[10; 11]; [20; 21]; [30; 31]];
     [[40; 41]; [50; 51]; [60; 61]]].

(** * Properties *)

(** ** The [Cache] decorators *)

Section CacheFacts.
Context {num val TOA : Type}.
Local Abbreviation World := (World num val TOA).
Local Abbreviation Comp := (Comp num val TOA).

Lemma count_entered_app (f : string) (t1 t2 : list (event num TOA)) :
  count_entered f (t1 ++ t2) = count_entered f t1 + count_entered f t2.
Proof.
  induction t1 as [|e t1 IH]; simpl; [done|].
  destruct e; try done. case_decide; simpl; by rewrite IH.
Qed.

Lemma use_cache_active {A} (function : Comp A) (w : World) (l : loc) :
  self_cache w = Scope l → use_cache function w = function w.
Proof. intros Hc. unfold use_cache. by rewrite Hc. Qed.

Lemma use_cache_missing {A} (function : Comp A) (w : World) :
  self_cache w = Missing → use_cache function w = function w.
Proof. intros Hc. unfold use_cache. by rewrite Hc. Qed.

Lemma use_cache_inactive {A} (function : Comp A) (w : World) :
  self_cache w = PyNone ∨ self_cache w = Foreign →
  use_cache function w =
    match function (opened w) with
    | (Ret result, w1) => (Ret result, set_self_cache PyNone w1)
    | (Raise e, w1) => (Raise e, w1)
    end.
Proof. intros [Hc|Hc]; unfold use_cache, opened, new_cache; by rewrite Hc. Qed.

(** On a normal return the scope that [use_cache] opened is closed again. *)
Lemma use_cache_closes_on_return {A} (function : Comp A) (w w' : World) (r : A) :
  self_cache w = PyNone ∨ self_cache w = Foreign →
  use_cache function w = (Ret r, w') →
  self_cache w' = PyNone.
Proof.
  intros Hc. rewrite (use_cache_inactive _ _ Hc).
  destruct (function (opened w)) as [[a|e] w1]; intros [= <- <-]; done.
Qed.

(** When the wrapped function raises, [use_cache] returns the world as the
    function left it: the scope it opened is not closed. *)
Lemma use_cache_stays_open_on_raise {A} (function : Comp A) (w w1 : World) (e : exn) :
  self_cache w = PyNone ∨ self_cache w = Foreign →
  function (opened w) = (Raise e, w1) →
  use_cache function w = (Raise e, w1).
Proof. intros Hc Hf. by rewrite (use_cache_inactive _ _ Hc), Hf. Qed.

Lemma cache_getattr_setattr (class_attr : string → option val)
    (l : loc) (the_func : string) (v : val) (w : World) :
  is_Some (caches w !! l) →
  cache_getattr class_attr (cache_setattr l the_func v w) l the_func = Some v.
Proof.
  intros [d Hd]. unfold cache_getattr, cache_setattr. simpl.
  rewrite list_lookup_alter_eq, Hd. simpl. by rewrite lookup_insert_eq.
Qed.

(** [cache_result] alone.  A call wrapped by [cache_result], made twice
    within one active scope that holds no result for it yet, returns the
    same result both times: the first call runs the computation and stores
    its result, the
    second returns the stored result and leaves the world as it is, so the
    body of the computation was entered once.  Without an active scope
    ([w0]) the wrapper is the plain call: the computation runs on every call
    and the wrapper stores nothing.  The function name is one that the
    [Cache] class does not define itself, and the computation enters its
    body once and does not rebind [self.cache]. *)
Theorem cache_result_once_in_scope_plain_without
    (class_attr : string → option val) (the_func : string) (function : Comp val)
    (w w1 w0 : World) (l : loc) (d : gmap string val) (v : val)
    (Hscope : self_cache w = Scope l)
    (Hobj : caches w !! l = Some d)
    (Hfresh : d !! the_func = None)
    (Hclass : class_attr the_func = None)
    (Hrun : function w = (Ret v, w1))
    (Hsame : self_cache w1 = Scope l)
    (Hlive : is_Some (caches w1 !! l))
    (Honce : count_entered the_func (trace w1) = S (count_entered the_func (trace w)))
    (Hnone : scope_active (self_cache w0) = false) :
  let first := cache_result class_attr the_func function w in
  let second := cache_result class_attr the_func function (snd first) in
  fst first = Ret v ∧ fst second = Ret v ∧ snd second = snd first
  ∧ count_entered the_func (trace (snd second)) = S (count_entered the_func (trace w))
  ∧ cache_result class_attr the_func function w0 = function w0.
Proof.
  assert (Hfirst : cache_result class_attr the_func function w
                   = (Ret v, cache_setattr l the_func v w1)).
  { unfold cache_result. rewrite Hscope.
    unfold cache_getattr. rewrite Hobj, Hfresh, Hclass. by rewrite Hrun. }
  assert (Hsecond : cache_result class_attr the_func function
                      (cache_setattr l the_func v w1)
                    = (Ret v, cache_setattr l the_func v w1)).
  { unfold cache_result. simpl. rewrite Hsame.
    by rewrite (cache_getattr_setattr class_attr l the_func v w1 Hlive). }
  simpl. rewrite Hfirst. simpl. rewrite Hsecond. simpl.
  repeat split; try done.
  unfold cache_result. destruct (self_cache w0); done.
Qed.
End CacheFacts.

(** ** Footprints of computations *)

Section FootprintFacts.
Context {num val TOA : Type}.
Local Abbreviation World := (World num val TOA).
Local Abbreviation Comp := (Comp num val TOA).

Lemma extend_nil (w : World) : extend [] w = w.
Proof. destruct w. unfold extend, set_trace. simpl. by rewrite app_nil_r. Qed.

Lemma extend_extend (t1 t2 : list (event num TOA)) (w : World) :
  extend t2 (extend t1 w) = extend (t1 ++ t2) w.
Proof. unfold extend, set_trace. simpl. by rewrite app_assoc. Qed.

Lemma emits_ret {A} (a : A) : emits (ret a : Comp A) (Ret a) [].
Proof. intros w. unfold ret. by rewrite extend_nil. Qed.

Lemma emits_raise {A} (e : exn) : emits (raise e : Comp A) (Raise e) [].
Proof. intros w. unfold raise. by rewrite extend_nil. Qed.

Lemma emits_lift {A} (o : outcome A) : emits (lift o : Comp A) o [].
Proof. intros w. unfold lift. by rewrite extend_nil. Qed.

Lemma emits_emit (e : event num TOA) : emits (emit e : Comp unit) (Ret tt) [e].
Proof. by intros w. Qed.

Lemma emits_bind {A B} (c : Comp A) (k : A → Comp B) a o t1 t2 :
  emits c (Ret a) t1 → emits (k a) o t2 → emits (bind c k) o (t1 ++ t2).
Proof.
  intros Hc Hk w. unfold bind. rewrite Hc, Hk. by rewrite extend_extend.
Qed.

Lemma emits_bind_raise {A B} (c : Comp A) (k : A → Comp B) e t :
  emits c (Raise e) t → emits (bind c k) (Raise e) t.
Proof. intros Hc w. unfold bind. by rewrite Hc. Qed.

Lemma emits_traces {A} (c : Comp A) o t : emits c o t → traces c o t.
Proof. intros Hc w. by rewrite Hc. Qed.

Lemma traces_bind {A B} (c : Comp A) (k : A → Comp B) a o t1 t2 :
  traces c (Ret a) t1 → traces (k a) o t2 → traces (bind c k) o (t1 ++ t2).
Proof.
  intros Hc Hk w. unfold bind. destruct (Hc w) as [Ho Ht].
  destruct (c w) as [[a'|e] w1]; simpl in *; [|done].
  injection Ho as ->. destruct (Hk w1) as [Ho' Ht'].
  split; [done|]. by rewrite Ht', Ht, app_assoc.
Qed.

Lemma traces_bind_raise {A B} (c : Comp A) (k : A → Comp B) e t :
  traces c (Raise e) t → traces (bind c k) (Raise e) t.
Proof.
  intros Hc w. unfold bind. destruct (Hc w) as [Ho Ht].
  destruct (c w) as [[a'|e'] w1]; simpl in *; [done|]. by injection Ho as ->.
Qed.

Lemma traces_invoke {A} (f : string) (c : Comp A) o t :
  traces c o t → traces (invoke f c) o (Entered f :: t).
Proof.
  intros Hc. unfold invoke.
  apply (traces_bind _ _ tt o [Entered f] t); [|done].
  apply emits_traces, emits_emit.
Qed.

(** [use_cache] changes neither the outcome nor the events of the function
    it wraps, whatever the state of the cache. *)
Lemma traces_use_cache {A} (c : Comp A) o t :
  traces c o t → traces (use_cache c) o t.
Proof.
  intros Hc w. unfold use_cache, new_cache.
  destruct (self_cache w) eqn:Hs; try apply Hc.
  - match goal with |- context [c ?w0] => destruct (Hc w0) as [Ho Ht]; destruct (c w0) as [[r|e] w1] end;
      simpl in *; by subst.
  - match goal with |- context [c ?w0] => destruct (Hc w0) as [Ho Ht]; destruct (c w0) as [[r|e] w1] end;
      simpl in *; by subst.
Qed.
End FootprintFacts.

(** ** [delay] and [phase] *)

Section EvaluationFacts.
Context {num val TOA unit_t : Type} `{Numeric num} `{PhaseOps num}.
Local Abbreviation World := (World num val TOA).
Local Abbreviation Comp := (Comp num val TOA).
Local Abbreviation TimingModel := (@TimingModel num val TOA unit_t).

Lemma level_events_level (lvl : string) (n i : nat) :
  Forall (λ e : event num TOA, event_level e = Some lvl) (level_events lvl i n).
Proof.
  revert i. induction n as [|n IH]; intros i; simpl; [constructor|].
  repeat constructor. apply IH.
Qed.

Lemma level_events_summed (lvl : string) (n i k : nat) :
  i ≤ k → k < i + n → (Summed lvl k : event num TOA) ∈ level_events lvl i n.
Proof.
  revert i. induction n as [|n IH]; intros i Hle Hlt; simpl; [lia|].
  destruct (decide (k = i)) as [->|Hne].
  - apply list_elem_of_further, list_elem_of_here.
  - do 2 apply list_elem_of_further. apply IH; lia.
Qed.

(** The loop over one level touches only the trace; its events are of that
    level, and when it does not raise they are the events of all its
    functions. *)
Lemma delay_level_emits (lvl : string)
    (dfs : list (list TOA → outcome (ndarray num))) (toas : list TOA) :
  ∀ i acc, ∃ o t,
    emits (delay_level lvl i dfs toas acc : Comp _) o t
    ∧ Forall (λ e, event_level e = Some lvl) t
    ∧ (is_ret o = true → t = level_events lvl i (length dfs)).
Proof.
  induction dfs as [|df dfs IH]; intros i acc.
  - exists (Ret acc), []. split; [apply emits_ret|]. split; [constructor|done].
  - simpl. destruct (df toas) as [x|e] eqn:Hdf.
    + destruct (iadd acc x) as [acc'|e] eqn:Hadd.
      * destruct (IH (S i) acc') as (o & t & He & Hall & Hret).
        exists o, ([Called lvl i] ++ [] ++ [] ++ [Summed lvl i] ++ t). split.
        { eapply emits_bind; [apply emits_emit|].
          eapply emits_bind; [apply emits_lift|]. rewrite Hadd.
          eapply emits_bind; [apply emits_lift|].
          eapply emits_bind; [apply emits_emit|]. done. }
        split; [by repeat constructor|].
        intros Ho. simpl. by rewrite (Hret Ho).
      * exists (Raise e), ([Called lvl i] ++ [] ++ []). split.
        { eapply emits_bind; [apply emits_emit|].
          eapply emits_bind; [apply emits_lift|]. rewrite Hadd.
          apply emits_bind_raise, emits_lift. }
        split; [by repeat constructor|done].
    + exists (Raise e), ([Called lvl i] ++ []). split.
      { eapply emits_bind; [apply emits_emit|].
        apply emits_bind_raise, emits_lift. }
      split; [by repeat constructor|done].
Qed.

(** The loop over the levels touches only the trace, and appends only
    events of delay functions. *)
Lemma delay_levels_emits (self : TimingModel) (toas : list TOA) (keys : list string) :
  ∀ acc, ∃ o t,
    emits (delay_levels self keys toas acc : Comp _) o t
    ∧ Forall (λ e, is_Some (event_level e)) t.
Proof.
  induction keys as [|k keys IH]; intros acc; simpl.
  - exists (Ret acc), []. split; [apply emits_ret|constructor].
  - destruct (dict_get (delay_funcs self) k) as [dfs|].
    + destruct (delay_level_emits k dfs toas 0 acc) as ([acc'|e] & t & He & Hall & _).
      * destruct (IH acc') as (o & t' & He' & Hall'). exists o, (t ++ t').
        split; [by eapply emits_bind|]. apply Forall_app. split; [|done].
        eapply Forall_impl; [done|]. intros e ->. by eexists.
      * exists (Raise e), t. split; [by apply emits_bind_raise|].
        eapply Forall_impl; [done|]. intros e' ->. by eexists.
    + exists (Raise (KeyError k)), []. split; [apply emits_raise|constructor].
Qed.

Lemma count_entered_level_events (f : string) (t : list (event num TOA)) :
  Forall (λ e, is_Some (event_level e)) t → count_entered f t = 0.
Proof.
  induction 1 as [|e t [lvl He] _ IH]; simpl; [done|].
  destruct e; simpl in He; done.
Qed.

(** The outcome of [delay] and the events it appends do not depend on the
    world it is called in. *)
Lemma delay_traces (self : TimingModel) (toas : list TOA) :
  ∃ o t,
    traces (delay self toas : Comp _) o (Entered "delay" :: t)
    ∧ Forall (λ e, is_Some (event_level e)) t.
Proof.
  destruct (delay_levels_emits self toas (map fst (delay_funcs self))
              (np_zeros (length toas))) as (o & t & He & Hall).
  exists o, t. split; [|done].
  unfold delay. by apply traces_use_cache, traces_invoke, emits_traces.
Qed.

(** The loop over the phase functions touches only the trace: it calls the
    functions in order, each with the same arguments, and returns what the
    accumulation by [Phase] addition gives. *)
Lemma phase_loop_emits
    (pfs : list (list TOA → list num → outcome (ndarray num)))
    (toas : list TOA) (d : list num) :
  ∀ i acc ph,
    accumulate_phase pfs toas d acc = Ret ph →
    emits (phase_loop i pfs toas d acc : Comp _) (Ret ph)
      (phase_events i (length pfs) toas d).
Proof.
  induction pfs as [|pf pfs IH]; intros i acc ph Hacc; simpl in *.
  - injection Hacc as <-. apply emits_ret.
  - destruct (pf toas d) as [x|] eqn:Hpf; [|done].
    destruct (Phase1 x) as [p|] eqn:Hp; [|done].
    destruct (Phase_add acc p) as [acc'|] eqn:Hadd; [|done].
    change (CalledPhase i toas d :: phase_events (S i) (length pfs) toas d)
      with ([CalledPhase i toas d] ++ [] ++ [] ++ [] ++ phase_events (S i) (length pfs) toas d).
    eapply emits_bind; [apply emits_emit|].
    eapply emits_bind; [apply emits_lift|]. rewrite Hp.
    eapply emits_bind; [apply emits_lift|]. rewrite Hadd.
    eapply emits_bind; [apply emits_lift|]. by apply IH.
Qed.

(** C5.  [phase] computes [delay] once, then calls every phase function in
    registration order, each with the same observations and the same total
    delay [d], and returns the accumulation of their results by [Phase]
    addition, starting from [Phase(zeros, zeros)]. *)
Theorem phase_runs_delay_once_then_accumulates
    (self : TimingModel) (toas : list TOA) (w : World)
    (d : list num) (p0 ph : Phase num)
    (Hdelay : fst (delay self toas w) = Ret d)
    (Hzero : Phase2 (np_zeros (length toas)) (np_zeros (length toas)) = Ret p0)
    (Hacc : accumulate_phase (phase_funcs self) toas d p0 = Ret ph) :
  ∃ td,
    trace (snd (delay self toas w)) = trace w ++ Entered "delay" :: td
    ∧ fst (phase self toas w) = Ret ph
    ∧ trace (snd (phase self toas w))
      = trace w ++ Entered "phase" :: Entered "delay" :: td
          ++ phase_events 0 (length (phase_funcs self)) toas d
    ∧ count_entered "delay" (trace (snd (phase self toas w)))
      = S (count_entered "delay" (trace w)).
Proof.
  destruct (delay_traces self toas) as (o & td & Ht & Hall).
  destruct (Ht w) as [Ho Htw]. rewrite Hdelay in Ho. subst o.
  exists td. split; [done|].
  assert (Hp : traces (phase self toas : Comp _) (Ret ph)
                 (Entered "phase" :: (Entered "delay" :: td)
                    ++ [] ++ phase_events 0 (length (phase_funcs self)) toas d)).
  { unfold phase. apply traces_use_cache, traces_invoke.
    eapply traces_bind; [done|]. rewrite Hzero.
    eapply traces_bind; [apply emits_traces, emits_lift|].
    by apply emits_traces, phase_loop_emits. }
  destruct (Hp w) as [Hpo Hpt]. simpl in Hpt. split; [done|]. split; [done|].
  rewrite Hpt, count_entered_app. simpl.
  rewrite count_entered_app, (count_entered_level_events _ td Hall).
  assert (Hpe : ∀ i n, count_entered "delay" (phase_events (num:=num) i n toas d) = 0).
  { intros i n. revert i. induction n as [|n IH]; intros i; simpl; [done|apply IH]. }
  rewrite Hpe. lia.
Qed.

Lemma prefix_of_split {A} (xs ys before after : list A) (e : A) :
  xs ++ ys = before ++ e :: after → e ∉ xs → ∃ rest, before = xs ++ rest.
Proof.
  revert before. induction xs as [|x xs IH]; intros before Heq Hnot.
  - by exists before.
  - destruct before as [|b before]; simpl in Heq.
    + injection Heq as <- _. exfalso. apply Hnot, list_elem_of_here.
    + injection Heq as <- Heq. destruct (IH before Heq) as [rest ->].
      { intros Hin. apply Hnot. by apply list_elem_of_further. }
      by exists rest.
Qed.

Lemma dict_get_L1 {A} (fs1 fs2 : A) :
  dict_get [("L1", fs1); ("L2", fs2)] "L1" = Some fs1.
Proof. reflexivity. Qed.

Lemma dict_get_L2 {A} (fs1 fs2 : A) :
  dict_get [("L1", fs1); ("L2", fs2)] "L2" = Some fs2.
Proof. reflexivity. Qed.

(** With the keys in the order L1, L2 the events of [delay] are those of
    level L1 followed by those of level L2, and level L2 contributes events
    only after all of level L1 has run. *)
Lemma delay_levels_in_order (self : TimingModel) (toas : list TOA) (acc : list num)
    (fs1 fs2 : list (list TOA → outcome (ndarray num))) :
  delay_funcs self = [("L1", fs1); ("L2", fs2)] →
  ∃ o t1 t2,
    emits (delay_levels self (map fst (delay_funcs self)) toas acc : Comp _) o (t1 ++ t2)
    ∧ Forall (λ e, event_level e = Some "L1") t1
    ∧ (t2 = [] ∨ t1 = level_events "L1" 0 (length fs1)).
Proof.
  intros Hkeys. rewrite Hkeys. cbn [map fst delay_levels]. rewrite Hkeys.
  rewrite dict_get_L1, dict_get_L2.
  destruct (delay_level_emits "L1" fs1 toas 0 acc) as ([acc1|e1] & t1 & He1 & Hall1 & Hret1).
  - destruct (delay_level_emits "L2" fs2 toas 0 acc1) as (o2 & t2 & He2 & _).
    exists o2, t1, t2. split; [|split; [done|right; by apply Hret1]].
    eapply emits_bind; [done|].
    destruct o2 as [acc2|e2].
    + rewrite <- (app_nil_r t2). eapply emits_bind; [done|]. apply emits_ret.
    + by apply emits_bind_raise.
  - exists (Raise e1), t1, []. split; [|split; [done|by left]].
    rewrite app_nil_r. by apply emits_bind_raise.
Qed.

(** The order L1, L2.  When the keys of [delay_funcs] come in the order
    L1, L2, then at every moment at which [delay] starts a delay function of
    level L2 the results of all the delay functions of level L1 have been
    added into the total. *)
Theorem delay_L1_before_L2_when_keys_in_order
    (self : TimingModel) (toas : list TOA) (w : World)
    (fs1 fs2 : list (list TOA → outcome (ndarray num)))
    (Hkeys : delay_funcs self = [("L1", fs1); ("L2", fs2)]) :
  L1_summed_before_L2_runs self toas w.
Proof.
  intros before j after fs1' i Htrace Hget Hi.
  rewrite Hkeys, dict_get_L1 in Hget. injection Hget as <-.
  destruct (delay_levels_in_order self toas (np_zeros (length toas)) fs1 fs2 Hkeys)
    as (o & t1 & t2 & He & Hall1 & Hfull).
  assert (Ht : traces (delay self toas : Comp _) o (Entered "delay" :: t1 ++ t2)).
  { unfold delay. by apply traces_use_cache, traces_invoke, emits_traces. }
  destruct (Ht w) as [_ Htw]. rewrite Htw in Htrace.
  apply app_inv_head in Htrace.
  assert (Hnot1 : (Called "L2" j : event num TOA) ∉ Entered "delay" :: t1).
  { intros Hin. apply elem_of_cons in Hin as [Hin|Hin]; [done|].
    rewrite Forall_forall in Hall1. by specialize (Hall1 _ Hin). }
  change (Entered "delay" :: t1 ++ t2) with ((Entered "delay" :: t1) ++ t2) in Htrace.
  destruct (prefix_of_split _ _ _ _ _ Htrace Hnot1) as [rest ->].
  destruct Hfull as [->| ->].
  - rewrite <- app_assoc in Htrace. apply app_inv_head in Htrace. by destruct rest.
  - apply elem_of_app. left.
    apply list_elem_of_further, level_events_summed; lia.
Qed.
End EvaluationFacts.

(** ** Derivatives and the design matrix *)

Section ArrayFacts.
Context {num : Type} `{Numeric num}.

Lemma broadcast_to_length (n : nat) (a : ndarray num) (v : list num) :
  broadcast_to n a = Ret v → length v = n.
Proof.
  destruct a as [x|xs]; simpl.
  - intros [= <-]. apply length_replicate.
  - case_decide; [by intros [= <-]|].
    destruct xs as [|x [|y xs]]; try done. intros [= <-]. apply length_replicate.
Qed.

Lemma broadcast_to_div (n : nat) (a : ndarray num) (d : num) :
  is_ret (broadcast_to n (ndarray_div a d)) = is_ret (broadcast_to n a).
Proof.
  destruct a as [x|xs]; simpl; [done|].
  rewrite length_map. case_decide; [done|].
  by destruct xs as [|x [|y xs]].
Qed.

Lemma column_zip_insert_ne (ii j : nat) (rs : list (list num)) (col : list num) :
  j ≠ ii → length col = length rs →
  map (λ row, row !! j) (zip_with (λ row c, <[ii := c]> row) rs col)
  = map (λ row, row !! j) rs.
Proof.
  intros Hne. revert col. induction rs as [|r rs IH]; intros [|c col] Hlen;
    simpl in *; try done.
  rewrite list_lookup_insert_ne by done. f_equal. apply IH. lia.
Qed.

Lemma column_zip_insert_eq (ii m : nat) (rs : list (list num)) (c : num) :
  ii < m → Forall (λ row, length row = m) rs →
  map (λ row, row !! ii)
    (zip_with (λ row c, <[ii := c]> row) rs (replicate (length rs) c))
  = replicate (length rs) (Some c).
Proof.
  intros Hlt. induction 1 as [|r rs Hr _ IH]; simpl; [done|].
  rewrite list_lookup_insert_eq by lia. by f_equal.
Qed.

Lemma zip_insert_wf (ii m : nat) (rs : list (list num)) (col : list num) :
  length col = length rs → Forall (λ row, length row = m) rs →
  length (zip_with (λ row c, <[ii := c]> row) rs col) = length rs
  ∧ Forall (λ row, length row = m) (zip_with (λ row c, <[ii := c]> row) rs col).
Proof.
  intros Hlen Hall. revert col Hlen.
  induction Hall as [|r rs Hr _ IH]; intros [|c col] Hlen; simpl in *; try done.
  destruct (IH col) as [Hl Hf]; [lia|]. split; [by rewrite Hl|].
  constructor; [by rewrite length_insert|done].
Qed.

(** [M[:,ii] = x] with a value that fits: the shape stays, the other columns
    stay, and a 0-d value fills the column. *)
Lemma set_column_fits (ii n m : nat) (x : ndarray num) (M : matrix num) :
  wf_matrix n m M → is_ret (broadcast_to n x) = true →
  ∃ M', set_column ii x M = Ret M'
        ∧ wf_matrix n m M'
        ∧ (∀ j, j ≠ ii → column j M' = column j M)
        ∧ (∀ c, x = Scalar c → ii < m → column ii M' = replicate n (Some c)).
Proof.
  intros (Hn & Hm & Hlen & Hall) Hfit. unfold set_column. rewrite Hn.
  destruct (broadcast_to n x) as [col|] eqn:Hb; [|done].
  pose proof (broadcast_to_length _ _ _ Hb) as Hcol.
  eexists. split; [done|].
  destruct (zip_insert_wf ii m (rows M) col) as [Hl Hf]; [lia|done|].
  split; [by repeat split; simpl; try lia|].
  split.
  - intros j Hj. unfold column. simpl. apply column_zip_insert_ne; [done|lia].
  - intros c -> Hlt. simpl in Hb. injection Hb as <-. unfold column. simpl.
    rewrite <- Hlen. by apply (column_zip_insert_eq ii m).
Qed.

Lemma np_zeros2_wf (n m : nat) : wf_matrix n m (np_zeros2 n m).
Proof.
  repeat split; simpl; try done.
  - apply length_replicate.
  - apply Forall_replicate, length_replicate.
Qed.

Lemma np_zeros2_column (n m j : nat) :
  j < m → column j (np_zeros2 n m) = replicate n (Some zero).
Proof.
  intros Hj. unfold column. simpl. induction n as [|n IH]; simpl; [done|].
  rewrite lookup_replicate_2 by done. by f_equal.
Qed.
End ArrayFacts.

Section DesignFacts.
Context {num val TOA unit_t : Type} `{Numeric num} `{PhaseOps num}.
Local Abbreviation World := (World num val TOA).
Local Abbreviation Comp := (Comp num val TOA).
Local Abbreviation TimingModel := (@TimingModel num val TOA unit_t).
Variable u_dimensionless : unit_t.
Variable u_over_F0 : unit_t → unit_t.

Lemma emits_bind_nil {A B} (c : Comp A) (k : A → Comp B) a o :
  emits c (Ret a) [] → emits (k a) o [] → emits (bind c k) o [].
Proof. intros Hc Hk. by apply (emits_bind c k a o [] []). Qed.

Lemma emits_functional {A} (c : Comp A) o1 o2 t1 t2 (w : World) :
  emits c o1 t1 → emits c o2 t2 → o1 = o2.
Proof. intros H1 H2. specialize (H1 w). rewrite H2 in H1. by injection H1. Qed.

(** The loop of [designmatrix] touches nothing in the world.  When every
    derivative function it calls returns values that fit, it returns a
    matrix of the same shape, in which a column whose parameter has no
    derivative path is as it was, and a column of the parameter [Offset] is
    all ones. *)
Lemma fill_columns_returns (self : TimingModel) (toas : list TOA) (F0 : num) (m : nat) :
  ∀ ps ii M us,
    wf_matrix (length toas) m M →
    Forall (λ p, column_ok self toas p = true) ps →
    ∃ M' us',
      emits (fill_columns u_dimensionless u_over_F0 self toas F0 ii ps M us : Comp _)
        (Ret (M', us')) []
      ∧ wf_matrix (length toas) m M'
      ∧ (∀ j, (∀ p, ii ≤ j → ps !! (j - ii) = Some p → no_derivative_path self p) →
              column j M' = column j M)
      ∧ (∀ j, ii ≤ j → j < m → ps !! (j - ii) = Some "Offset" →
              column j M' = replicate (length toas) (Some one)).
Proof.
  induction ps as [|param ps IH]; intros ii M us Hwf Hok.
  - exists M, us. split; [apply emits_ret|]. split; [done|]. split; [done|].
    intros j _ _ Hj. by rewrite lookup_nil in Hj.
  - apply Forall_cons in Hok as [Hp Hok].
    (* the iteration for column [ii] *)
    assert (Hstep : ∃ M1 us1,
      emits ((if decide (param = "Offset") then
                let! M' := lift (set_column ii (Scalar one) M) in
                ret (M', us ++ [u_dimensionless])
              else
                match methods self ("d_phase_d_" +:+ param) with
                | Some f =>
                    let! q0 := lift (f toas) in
                    let q := mkQuantity (ndarray_div (qval q0) F0) (u_over_F0 (qunit q0)) in
                    let! M' := lift (set_column ii (qval q) M) in
                    ret (M', us ++ [qunit q])
                | None =>
                    match methods self ("d_delay_d_" +:+ param) with
                    | Some g =>
                        let! q := lift (g toas) in
                        let! M' := lift (set_column ii (qval q) M) in
                        ret (M', us ++ [qunit q])
                    | None => ret (M, us)
                    end
                end) : Comp _) (Ret (M1, us1)) []
      ∧ wf_matrix (length toas) m M1
      ∧ (∀ j, j ≠ ii → column j M1 = column j M)
      ∧ (no_derivative_path self param → M1 = M)
      ∧ (param = "Offset" → ii < m → column ii M1 = replicate (length toas) (Some one))).
    { unfold column_ok in Hp. unfold no_derivative_path.
      destruct (decide (param = "Offset")) as [->|Hne].
      - destruct (set_column_fits ii _ m (Scalar one) M Hwf eq_refl)
          as (M1 & Hset & Hwf1 & Hother & Hones).
        exists M1, (us ++ [u_dimensionless]). rewrite Hset.
        split; [|split; [done|split; [done|split; [by intros [? _]|]]]].
        + eapply emits_bind_nil; [apply emits_lift|apply emits_ret].
        + intros _ Hlt. by apply Hones.
      - destruct (methods self ("d_phase_d_" +:+ param)) as [f|].
        + destruct (f toas) as [q0|] eqn:Hf; [|done].
          rewrite <- (broadcast_to_div _ _ F0) in Hp.
          destruct (set_column_fits ii _ m (ndarray_div (qval q0) F0) M Hwf Hp)
            as (M1 & Hset & Hwf1 & Hother & _).
          exists M1, (us ++ [u_over_F0 (qunit q0)]).
          split; [|split; [done|split; [done|split; [by intros (_ & ? & _)|done]]]].
          eapply emits_bind_nil; [apply emits_lift|]. cbn [qval qunit]. rewrite Hset.
          eapply emits_bind_nil; [apply emits_lift|apply emits_ret].
        + destruct (methods self ("d_delay_d_" +:+ param)) as [g|].
          * destruct (g toas) as [q|] eqn:Hg; [|done].
            destruct (set_column_fits ii _ m (qval q) M Hwf Hp)
              as (M1 & Hset & Hwf1 & Hother & _).
            exists M1, (us ++ [qunit q]).
            split; [|split; [done|split; [done|split; [by intros (_ & _ & ?)|done]]]].
            eapply emits_bind_nil; [apply emits_lift|]. rewrite Hset.
            eapply emits_bind_nil; [apply emits_lift|apply emits_ret].
          * exists M, us. split; [apply emits_ret|].
            split; [done|]. split; [done|]. split; [done|]. by intros ?. }
    destruct Hstep as (M1 & us1 & He1 & Hwf1 & Hother1 & Hnone1 & Hones1).
    destruct (IH (S ii) M1 us1 Hwf1 Hok) as (M' & us' & He & Hwf' & Hkept & Hones).
    exists M', us'. split.
    { cbn [fill_columns]. eapply emits_bind_nil; [exact He1|exact He]. }
    split; [done|]. split.
    + intros j Hj. destruct (decide (j = ii)) as [->|Hne].
      * rewrite Hkept by (intros p Hle; lia).
        rewrite Hnone1; [done|]. apply Hj; [lia|]. by rewrite Nat.sub_diag.
      * rewrite Hkept, Hother1; [done..|].
        intros p Hle Hp'. apply Hj; [lia|].
        replace (j - ii) with (S (j - S ii)) by lia. done.
    + intros j Hle Hlt Hj. destruct (decide (j = ii)) as [->|Hne].
      * rewrite Nat.sub_diag in Hj. injection Hj as ->.
        rewrite Hkept by (intros p Hle'; lia). by apply Hones1.
      * apply Hones; [lia|done|].
        replace (j - ii) with (S (j - S ii)) in Hj by lia. done.
Qed.

Lemma use_cache_returns {A} (c : Comp A) (w : World) (r : A) :
  (∀ w1, lists w1 = lists w → attrs w1 = attrs w → ∃ w2, c w1 = (Ret r, w2)) →
  ∃ w', use_cache c w = (Ret r, w').
Proof.
  intros Hc. unfold use_cache, new_cache.
  destruct (self_cache w) eqn:Hs.
  - by apply Hc.
  - destruct (Hc (set_self_cache (Scope (length (caches w)))
                    (set_caches (caches w ++ [∅]) w))) as [w2 ->]; [done..|].
    by eexists.
  - destruct (Hc (set_self_cache (Scope (length (caches w)))
                    (set_caches (caches w ++ [∅]) w))) as [w2 ->]; [done..|].
    by eexists.
  - by apply Hc.
Qed.

Lemma free_params_attrs (w1 w2 : World) (names : list string) :
  attrs w1 = attrs w2 → free_params w1 names = free_params w2 names.
Proof. intros Ha. unfold free_params. by rewrite Ha. Qed.

Lemma select_params_eval (incfrozen : bool) (names : list string) (w : World) :
  (incfrozen = false → Forall (λ par, is_Some (attrs w !! par)) names) →
  select_params incfrozen names w
  = (Ret (if incfrozen then names else free_params w names), w).
Proof.
  intros Hb. induction names as [|par names IH]; [by destruct incfrozen|].
  cbn [select_params]. unfold bind at 1.
  destruct incfrozen.
  - unfold ret at 1. unfold bind. rewrite IH by done. done.
  - specialize (Hb eq_refl). apply Forall_cons in Hb as [[p Hp] Hb].
    unfold bind at 1, getattr_param at 1. rewrite Hp. unfold ret at 1.
    unfold bind. rewrite IH by done. unfold ret, free_params.
    rewrite filter_cons, Hp. simpl.
    destruct (frozen p); simpl; by repeat case_decide.
Qed.

(** When the parameters are bound, [F0] has a numeric value, [delay]
    returns, and every derivative function called returns values that fit,
    [designmatrix] returns a matrix with one row per observation and one
    column per requested parameter, in which the column of a parameter
    without a derivative path is all zero and a column of [Offset] is all
    ones. *)
Lemma designmatrix_returns (self : TimingModel) (toas : list TOA) (w : World)
    (names : list string) (pF0 : ParameterObj num) (f0 : num)
    (incfrozen incoffset : bool) :
  lists w !! params self = Some names →
  (incfrozen = false → Forall (λ par, is_Some (attrs w !! par)) names) →
  attrs w !! "F0" = Some pF0 →
  value pF0 = PVNum f0 →
  is_ret (fst (delay self toas w)) = true →
  Forall (λ p, column_ok self toas p = true)
    (requested_columns w names incfrozen incoffset) →
  ∃ M us w',
    designmatrix u_dimensionless u_over_F0 self toas incfrozen incoffset w
    = (Ret (M, requested_columns w names incfrozen incoffset, us), w')
    ∧ wf_matrix (length toas) (length (requested_columns w names incfrozen incoffset)) M
    ∧ (∀ j p, requested_columns w names incfrozen incoffset !! j = Some p →
              no_derivative_path self p →
              column j M = replicate (length toas) (Some zero))
    ∧ (∀ j, requested_columns w names incfrozen incoffset !! j = Some "Offset" →
            column j M = replicate (length toas) (Some one)).
Proof.
  intros Hnames Hbound HF0 HF0v Hdelay Hcols.
  set (cols := requested_columns w names incfrozen incoffset) in *.
  destruct (fill_columns_returns self toas f0 (length cols) cols 0
              (np_zeros2 (length toas) (length cols)) [] (np_zeros2_wf _ _) Hcols)
    as (M & us & Hfill & Hwf & Hkept & Hones).
  destruct (delay_traces self toas) as (o & td & Htd & _).
  destruct (Htd w) as [Ho _]. rewrite Ho in Hdelay.
  destruct o as [d|]; [|done].
  (* the body returns [M] in every world with the same lists and parameters *)
  assert (Hbody : ∀ w1, lists w1 = lists w → attrs w1 = attrs w →
            ∃ w2, invoke "designmatrix"
                    (let! names := get_list (params self) in
                     let! selected := select_params incfrozen names in
                     let params := (if incoffset then ["Offset"] else []) ++ selected in
                     let! F0 := F0_value in
                     let ntoas := length toas in
                     let nparams := length params in
                     let! delay := delay self toas in
                     let! Mu := fill_columns u_dimensionless u_over_F0 self toas F0 0
                                  params (np_zeros2 ntoas nparams) [] in
                     ret (fst Mu, params, snd Mu)) w1
                  = (Ret (M, cols, us), w2)).
  { intros w1 Hl Ha. unfold invoke. unfold bind at 1, emit at 1.
    set (w1' := set_trace _ w1).
    assert (Hl' : lists w1' = lists w) by done.
    assert (Ha' : attrs w1' = attrs w) by done.
    unfold bind at 1, get_list at 1. rewrite Hl', Hnames. cbn [default]. unfold id.
    unfold bind at 1. rewrite select_params_eval by (rewrite Ha'; done).
    rewrite (free_params_attrs w1' w names Ha').
    fold (requested_columns w names incfrozen incoffset). fold cols.
    unfold bind at 1, F0_value at 1, bind at 1, getattr_param at 1.
    rewrite Ha', HF0, HF0v. unfold ret at 1.
    unfold bind at 1. destruct (Htd w1') as [Ho1 _].
    destruct (delay self toas w1') as [o1 w2]. simpl in Ho1. subst o1.
    unfold bind. rewrite Hfill. unfold ret. simpl. by eexists. }
  assert (Hdm : ∃ w', designmatrix u_dimensionless u_over_F0 self toas incfrozen incoffset w
                      = (Ret (M, cols, us), w')).
  { unfold designmatrix. apply use_cache_returns. exact Hbody. }
  destruct Hdm as [w' Hdm]. exists M, us, w'. split; [done|]. split; [done|].
  split.
  - intros j p Hj Hp. rewrite Hkept.
    + apply np_zeros2_column. by eapply lookup_lt_Some.
    + intros p' _. rewrite Nat.sub_0_r, Hj. by intros [= <-].
  - intros j Hj. apply Hones; [lia| |by rewrite Nat.sub_0_r].
    by eapply lookup_lt_Some.
Qed.

Lemma map_replicate_Forall {A B} (f : A → B) (l : list A) (n : nat) (y : B) :
  map f l = replicate n y → Forall (λ x, f x = y) l.
Proof.
  revert n. induction l as [|x l IH]; intros [|n]; simpl; try done.
  intros [= Hx Hl]. constructor; [done|by eapply IH].
Qed.

(** The numeric stub returns the float [0.0], whatever the state of the
    cache. *)
Lemma d_phase_d_param_num_traces (self : TimingModel) (toas : list TOA) (param : string) :
  traces (d_phase_d_param_num self toas param : Comp _) (Ret (RFloat zero))
    [Entered "d_phase_d_param_num"].
Proof.
  unfold d_phase_d_param_num.
  apply traces_use_cache, traces_invoke, emits_traces, emits_ret.
Qed.

Lemma d_phase_d_param_analytic (self : TimingModel) (toas : list TOA) (param : string)
    (f : list TOA → outcome (quantity num unit_t)) (w : World) :
  methods self ("d_phase_d_" +:+ param) = Some f →
  fst (d_phase_d_param self toas param w) = outcome_map RQuantity (f toas).
Proof.
  intros Hm.
  assert (Ht : traces (d_phase_d_param self toas param : Comp _)
                 (outcome_map RQuantity (f toas)) ([Entered "d_phase_d_param"] ++ [])).
  { unfold d_phase_d_param. apply traces_use_cache, traces_invoke.
    rewrite Hm. destruct (f toas) as [q|e].
    - apply (traces_bind _ _ q _ [] []); apply emits_traces; [apply emits_lift|apply emits_ret].
    - apply traces_bind_raise, emits_traces, emits_lift. }
  by destruct (Ht w).
Qed.

Lemma d_phase_d_param_stub (self : TimingModel) (toas : list TOA) (param : string)
    (w : World) :
  methods self ("d_phase_d_" +:+ param) = None →
  fst (d_phase_d_param self toas param w) = Ret (RFloat zero).
Proof.
  intros Hm.
  assert (Ht : traces (d_phase_d_param self toas param : Comp _)
                 (Ret (RFloat zero)) [Entered "d_phase_d_param"; Entered "d_phase_d_param_num"]).
  { unfold d_phase_d_param. apply traces_use_cache, traces_invoke.
    rewrite Hm. apply d_phase_d_param_num_traces. }
  by destruct (Ht w).
Qed.

(** C7, as amended.  [d_phase_d_param] returns what the analytic function
    [d_phase_d_<param>] returns when the model has one; otherwise it returns
    the result of [d_phase_d_param_num], which is the float [0.0]. *)
Theorem d_phase_d_param_analytic_else_stub
    (self : TimingModel) (toas : list TOA) (param : string) (w : World) :
  match methods self ("d_phase_d_" +:+ param) with
  | Some f => fst (d_phase_d_param self toas param w) = outcome_map RQuantity (f toas)
  | None =>
      fst (d_phase_d_param self toas param w) = fst (d_phase_d_param_num self toas param w)
      ∧ fst (d_phase_d_param_num self toas param w) = Ret (RFloat zero)
  end.
Proof.
  destruct (methods self ("d_phase_d_" +:+ param)) as [f|] eqn:Hm.
  - by apply d_phase_d_param_analytic.
  - destruct (d_phase_d_param_num_traces self toas param w) as [-> _].
    split; [|done]. by apply d_phase_d_param_stub.
Qed.

(** C6.  For a model whose parameters are bound, whose [F0] has a numeric
    value, whose [delay] returns and whose derivative functions return
    values that fit, [designmatrix(toas, incfrozen=False, incoffset=True)]
    returns a matrix with one row per observation and one column more than
    there are free parameters, and the first entry of every row is [1.0]. *)
Theorem designmatrix_shape_and_offset_column
    (self : TimingModel) (toas : list TOA) (w : World)
    (names : list string) (pF0 : ParameterObj num) (f0 : num)
    (Hnames : lists w !! params self = Some names)
    (Hbound : Forall (λ par, is_Some (attrs w !! par)) names)
    (HF0 : attrs w !! "F0" = Some pF0)
    (HF0v : value pF0 = PVNum f0)
    (Hdelay : is_ret (fst (delay self toas w)) = true)
    (Hcols : Forall (λ p, column_ok self toas p = true) (free_params w names)) :
  ∃ M us w',
    designmatrix u_dimensionless u_over_F0 self toas false true w
    = (Ret (M, "Offset" :: free_params w names, us), w')
    ∧ nrows M = length toas
    ∧ ncols M = S (length (free_params w names))
    ∧ length (rows M) = length toas
    ∧ Forall (λ row, length row = S (length (free_params w names))
                     ∧ row !! 0 = Some one) (rows M).
Proof.
  destruct (designmatrix_returns self toas w names pF0 f0 false true)
    as (M & us & w' & Hdm & (Hn & Hm & Hlen & Hall) & _ & Hones); try done.
  { by constructor. }
  exists M, us, w'. split; [done|]. split; [done|]. split; [done|]. split; [done|].
  specialize (Hones 0 eq_refl). apply map_replicate_Forall in Hones.
  apply Forall_and. split; done.
Qed.

(** C3, as amended.  For a requested parameter that has neither a
    [d_phase_d_] nor a [d_delay_d_] function, [designmatrix] raises nothing:
    under the same conditions as above it returns, and that parameter's
    column is all zero; [d_phase_d_param] returns the float [0.0] of the
    numeric stub for it. *)
Theorem designmatrix_zero_column_without_derivative
    (self : TimingModel) (toas : list TOA) (w : World)
    (names : list string) (pF0 : ParameterObj num) (f0 : num)
    (incfrozen incoffset : bool)
    (Hnames : lists w !! params self = Some names)
    (Hbound : Forall (λ par, is_Some (attrs w !! par)) names)
    (HF0 : attrs w !! "F0" = Some pF0)
    (HF0v : value pF0 = PVNum f0)
    (Hdelay : is_ret (fst (delay self toas w)) = true)
    (Hcols : Forall (λ p, column_ok self toas p = true)
               (requested_columns w names incfrozen incoffset)) :
  ∃ M us w',
    designmatrix u_dimensionless u_over_F0 self toas incfrozen incoffset w
    = (Ret (M, requested_columns w names incfrozen incoffset, us), w')
    ∧ ∀ j p,
        requested_columns w names incfrozen incoffset !! j = Some p →
        no_derivative_path self p →
        Forall (λ row, row !! j = Some zero) (rows M)
        ∧ fst (d_phase_d_param self toas p w) = Ret (RFloat zero).
Proof.
  destruct (designmatrix_returns self toas w names pF0 f0 incfrozen incoffset)
    as (M & us & w' & Hdm & _ & Hzero & _); try done.
  exists M, us, w'. split; [done|]. intros j p Hj Hp. split.
  - by eapply map_replicate_Forall, Hzero.
  - destruct Hp as (_ & Hm & _). by apply d_phase_d_param_stub.
Qed.
End DesignFacts.

(** ** [read_parfile] *)

Lemma occurrences_snoc (n m : string) (seen : list string) :
  occurrences n (seen ++ [m])
  = occurrences n seen + (if decide (m = n) then 1 else 0).
Proof.
  unfold occurrences. rewrite filter_app, length_app. f_equal.
  rewrite filter_cons, filter_nil. by case_decide.
Qed.

Lemma occurrences_elem_of (n : string) (seen : list string) :
  n ∈ seen ↔ 1 ≤ occurrences n seen.
Proof.
  unfold occurrences. induction seen as [|m seen IH].
  - rewrite filter_nil. simpl. split; [by intros ?%elem_of_nil|lia].
  - rewrite filter_cons, elem_of_cons. case_decide as Hm; simpl.
    + split; [lia|]. intros _. left. done.
    + rewrite IH. split; [|by right]. intros [->|?]; done.
Qed.

Section ParfileFacts.
Context {num val TOA unit_t : Type}.
Local Abbreviation World := (World num val TOA).
Local Abbreviation Comp := (Comp num val TOA).
Local Abbreviation TimingModel := (@TimingModel num val TOA unit_t).
Variable from_parfile_line : ParameterObj num → string → outcome (bool * ParameterObj num).
Variable split_prefixed_name : string → outcome (string * string * nat).

Lemma offered_lines_app (t1 t2 : list (event num TOA)) :
  offered_lines (t1 ++ t2) = offered_lines t1 ++ offered_lines t2.
Proof.
  induction t1 as [|e t1 IH]; [done|]. destruct e; simpl; by rewrite ?IH.
Qed.

(** Matching a line against the parameters changes only the parameters
    named in the list. *)
Lemma offer_line_frame (ps : list string) (l : string) :
  ∀ parsed (w : World) o w',
    offer_line from_parfile_line ps l parsed w = (o, w') →
    trace w' = trace w ∧ lists w' = lists w ∧ warnings w' = warnings w
    ∧ ∀ par, par ∉ ps → attrs w' !! par = attrs w !! par.
Proof.
  induction ps as [|par ps IH]; intros parsed w o w' Hrun; simpl in Hrun.
  - by injection Hrun as <- <-.
  - unfold bind at 1, getattr_param at 1 in Hrun.
    destruct (attrs w !! par) as [p|] eqn:Hp; [|by injection Hrun as <- <-].
    unfold bind at 1, lift at 1 in Hrun.
    destruct (from_parfile_line p l) as [[b p']|e]; [|by injection Hrun as <- <-].
    unfold bind at 1, setattr_param at 1 in Hrun.
    apply IH in Hrun as (Ht & Hl & Hw & Ha). simpl in *.
    rewrite Ht, Hl, Hw. repeat split; try done.
    intros par' Hnot. apply not_elem_of_cons in Hnot as [Hne Hnot].
    rewrite Ha by done. by rewrite lookup_insert_ne.
Qed.

(** Reporting an unrecognized line changes the warnings only. *)
Lemma report_unrecognized_frame (l : string) (w : World) o w' :
  report_unrecognized split_prefixed_name l w = (o, w') →
  trace w' = trace w ∧ lists w' = lists w ∧ attrs w' = attrs w.
Proof.
  unfold report_unrecognized. destruct (split l) as [|tok ?].
  - by intros [= <- <-].
  - destruct (split_prefixed_name tok) as [[[pfx ?] ?]|e]; case_decide;
      by intros [= <- <-].
Qed.

(** One iteration of the loop: a skipped line changes nothing; any other
    line is offered to the parameters as the spec's rule rewrites it, and
    the state of the loop follows the names read. *)
Lemma read_line_returns (self : TimingModel) (seen : list string)
    (st st' : parfile_state) (pl : string) (w w' : World) :
  parfile_inv seen st →
  read_line from_parfile_line split_prefixed_name self st pl w = (Ret st', w') →
  (is_skipped (strip pl) = true ∧ st' = st ∧ w' = w)
  ∨ (is_skipped (strip pl) = false
     ∧ offered_lines (trace w') = offered_lines (trace w) ++ disambiguate seen [strip pl]
     ∧ lists w' = lists w
     ∧ parfile_inv (seen ++ [line_name (strip pl)]) st').
Proof.
  intros [Hchecked Hrepeat]. unfold read_line, is_skipped.
  set (l := strip pl).
  case_decide as Hblank.
  { intros [= <- <-]. left. by rewrite bool_decide_eq_true_2. }
  rewrite (bool_decide_eq_false_2 _ Hblank). simpl.
  destruct (startswith l "#" || bool_decide (String.substring 0 2 l = "C ")) eqn:Hcomment.
  { intros [= <- <-]. by left. }
  destruct (split l) as [|k0 krest] eqn:Hsplit; [done|].
  intros Hrun. right. split; [done|].
  set (name := upper k0) in *.
  assert (Hname : line_name l = name) by (unfold line_name; by rewrite Hsplit).
  set (rl := if decide (name ∈ checked_param st) then _ else _) in Hrun.
  assert (Hrl : snd rl = hd "" (disambiguate seen [l])
                ∧ parfile_inv (seen ++ [name]) (mkParfileState (checked_param st ++ [name]) (fst rl))).
  { unfold rl. simpl. rewrite Hname, Hchecked.
    pose proof (Hrepeat name) as Hrn.
    destruct (decide (name ∈ seen)) as [Hin|Hnin].
    - apply occurrences_elem_of in Hin.
      rewrite decide_True by lia. simpl.
      assert (Hn : match repeat_param st !! name with
                   | Some c => c + 1
                   | None => 2
                   end = S (occurrences name seen)).
      { rewrite Hrn. case_decide; lia. }
      rewrite Hn. split.
      + unfold suffix_first. by rewrite Hsplit.
      + split; [done|]. intros n. simpl. rewrite occurrences_snoc.
        destruct (decide (name = n)) as [<-|Hne].
        * rewrite lookup_insert_eq, decide_True by lia. f_equal. lia.
        * rewrite lookup_insert_ne by done. rewrite Hrepeat.
          by rewrite Nat.add_0_r.
    - rewrite occurrences_elem_of in Hnin.
      rewrite decide_False by lia. simpl. split; [done|].
      split; [done|]. intros n. simpl. rewrite occurrences_snoc, Hrepeat.
      destruct (decide (name = n)) as [<-|Hne].
      * rewrite !decide_False by lia. done.
      * by rewrite Nat.add_0_r. }
  destruct Hrl as [Hl' Hinv]. clearbody rl.
  unfold bind at 1, emit at 1 in Hrun.
  set (w1 := set_trace _ w) in Hrun.
  unfold bind at 1, get_list at 1 in Hrun.
  unfold bind at 1 in Hrun.
  destruct (offer_line _ _ _ _ w1) as [[parsed|e] w2] eqn:Hoffer; [|done].
  apply offer_line_frame in Hoffer as (Ht & Hl & _ & _).
  unfold bind at 1 in Hrun.
  assert (Hrep : ∃ o w3, (if parsed then ret tt
                          else report_unrecognized split_prefixed_name (snd rl)) w2 = (o, w3)
                         ∧ trace w3 = trace w2 ∧ lists w3 = lists w2).
  { destruct parsed; [by eexists _, _|].
    destruct (report_unrecognized _ _ w2) as [o w3] eqn:Hrep.
    apply report_unrecognized_frame in Hrep as (? & ? & _). by eexists _, _. }
  destruct Hrep as (o & w3 & Hrep & Ht3 & Hl3). rewrite Hrep in Hrun.
  destruct o as [[]|e]; [|done]. injection Hrun as <- <-.
  rewrite Ht3, Ht, Hl3, Hl. simpl. rewrite offered_lines_app. simpl.
  rewrite Hl'. simpl. rewrite !Hname. done.
Qed.

(** The loop of [read_parfile], when it ends normally, has offered to the
    parameters exactly the significant lines as the spec's rule rewrites
    them. *)
Lemma read_lines_returns (self : TimingModel) (pfile : list string) :
  ∀ seen st st' (w w' : World),
    parfile_inv seen st →
    read_lines from_parfile_line split_prefixed_name self st pfile w = (Ret st', w') →
    offered_lines (trace w') = offered_lines (trace w) ++ disambiguate seen (significant pfile)
    ∧ lists w' = lists w.
Proof.
  induction pfile as [|pl pfile IH]; intros seen st st' w w' Hinv; simpl.
  - intros [= <- <-]. by rewrite app_nil_r.
  - unfold bind at 1.
    destruct (read_line _ _ self st pl w) as [[st1|e] w1] eqn:Hline; [|done].
    intros Hrest. unfold significant. simpl. rewrite filter_cons.
    destruct (read_line_returns self seen st st1 pl w w1 Hinv Hline)
      as [(Hskip & -> & ->)|(Hskip & Hoff & Hl & Hinv1)].
    + rewrite decide_False by (by rewrite Hskip). by apply (IH seen st st').
    + rewrite decide_True by done.
      destruct (IH _ _ _ _ _ Hinv1 Hrest) as [Hoff' Hl'].
      rewrite Hoff', Hoff, Hl', Hl. simpl. by rewrite <- app_assoc.
Qed.

(** The lines that are matched.  When the loop of [read_parfile] ends
    normally, the lines it has matched against the parameters are the
    significant lines of the file, in order, where the [k]-th line with a
    given upper-cased first token is unchanged for [k = 1] and has [k]
    appended to its first token for [k >= 2]. *)
Theorem read_parfile_offers_suffixed_repeats
    (self : TimingModel) (pfile : list string) (w : World) (st' : parfile_state)
    (Hret : fst (read_lines from_parfile_line split_prefixed_name self
                   (mkParfileState [] ∅) pfile w) = Ret st') :
  offered_lines
    (trace (snd (read_lines from_parfile_line split_prefixed_name self
                   (mkParfileState [] ∅) pfile w)))
  = offered_lines (trace w) ++ disambiguate [] (significant pfile).
Proof.
  destruct (read_lines _ _ self _ pfile w) as [o w'] eqn:Hrun.
  simpl in Hret. subst o.
  eapply read_lines_returns; [|done]. split; [done|]. intros n.
  unfold occurrences. rewrite filter_nil. simpl. by rewrite lookup_empty.
Qed.
End ParfileFacts.

(** ** [is_in_parfile] *)

Lemma list_index_Some (x : string) (xs : list string) (i : nat) :
  list_index x xs = Some i →
  xs !! i = Some x ∧ delete i xs = take i xs ++ drop (S i) xs ∧ x ∉ take i xs.
Proof.
  revert i. induction xs as [|y ys IH]; intros i; simpl; [done|].
  case_decide as Hy.
  - intros [= <-]. subst y. simpl. rewrite drop_0. split; [done|].
    split; [done|]. apply not_elem_of_nil.
  - destruct (list_index x ys) as [k|] eqn:Hk; [|done]. simpl.
    intros [= <-]. destruct (IH k eq_refl) as (Hl & Hd & Hn).
    simpl. split; [done|]. split; [by rewrite Hd|].
    apply not_elem_of_cons. split; [by intros ->|done].
Qed.

Lemma list_index_elem_of (x : string) (xs : list string) :
  x ∈ xs → is_Some (list_index x xs).
Proof.
  induction xs as [|y ys IH]; [by intros ?%elem_of_nil|].
  simpl. case_decide; [by eexists|].
  intros [->|Hin]%elem_of_cons; [done|].
  destruct (IH Hin) as [k ->]. by eexists.
Qed.

Lemma remove_first_length (x : string) (xs : list string) :
  x ∈ xs → S (length (remove_first x xs)) = length xs.
Proof.
  intros Hin. unfold remove_first.
  destruct (list_index_elem_of x xs Hin) as [i Hi]. rewrite Hi.
  destruct (list_index_Some x xs i Hi) as (Hl & _ & _).
  rewrite length_delete by (by eexists). apply lookup_lt_Some in Hl. lia.
Qed.

Lemma remove_first_NoDup (x : string) (xs : list string) :
  NoDup xs → x ∉ remove_first x xs.
Proof.
  intros Hnd. unfold remove_first.
  destruct (list_index x xs) as [i|] eqn:Hi.
  - destruct (list_index_Some x xs i Hi) as (Hl & -> & Hn).
    rewrite <- (take_drop_middle xs i x Hl) in Hnd.
    apply NoDup_app in Hnd as (_ & Hdisj & Hnd2).
    apply NoDup_cons in Hnd2 as [Hnot _].
    apply not_elem_of_app. split; done.
  - intros Hin. destruct (list_index_elem_of x xs Hin) as [k Hk]. congruence.
Qed.

Lemma remove_first_other (x y : string) (xs : list string) :
  y ≠ x → y ∈ xs → y ∈ remove_first x xs.
Proof.
  intros Hne Hin. unfold remove_first.
  destruct (list_index x xs) as [i|] eqn:Hi; [|done].
  destruct (list_index_Some x xs i Hi) as (Hl & -> & _).
  rewrite <- (take_drop_middle xs i x Hl) in Hin.
  rewrite elem_of_app, elem_of_cons in Hin. rewrite elem_of_app.
  destruct Hin as [?|[?|?]]; auto. done.
Qed.

Lemma remove_first_subset (x y : string) (xs : list string) :
  y ∈ remove_first x xs → y ∈ xs.
Proof.
  unfold remove_first. destruct (list_index x xs) as [i|]; [|done].
  apply list_elem_of_delete_inv.
Qed.

Section InParfileFacts.
Context {num val TOA unit_t : Type} `{Numeric num} `{PhaseOps num}.
Local Abbreviation World := (World num val TOA).
Local Abbreviation Comp := (Comp num val TOA).
Local Abbreviation TimingModel := (@TimingModel num val TOA unit_t).
Variable u_dimensionless : unit_t.
Variable u_over_F0 : unit_t → unit_t.
Variable from_parfile_line : ParameterObj num → string → outcome (bool * ParameterObj num).
Variable as_parfile_line : ParameterObj num → string.
Variable param_str : ParameterObj num → string.
Variable split_prefixed_name : string → outcome (string * string * nat).

Lemma alias_loop_pure (para_dict : gmap string (list string)) (ps : list string) (w : World) :
  snd (alias_loop para_dict ps w) = w.
Proof.
  induction ps as [|p ps IH]; simpl; [done|].
  unfold bind, getattr_param. destruct (attrs w !! p) as [par|]; [|done].
  destruct (aliases par); [done|].
  by destruct (common_names para_dict _).
Qed.

(** The only effect of [is_in_parfile] on the world: the list object behind
    [self.params] loses its first [PSR]. *)
Lemma is_in_parfile_world (self : TimingModel) (para_dict : gmap string (list string))
    (w : World) (names : list string) :
  lists w !! params self = Some names →
  snd (is_in_parfile self para_dict w)
  = set_lists (<[params self := remove_first "PSR" names]> (lists w)) w.
Proof.
  intros Hnames. unfold is_in_parfile, remove_first.
  unfold bind at 1, get_list at 1. rewrite Hnames. cbn [default]. unfold id.
  unfold bind at 1.
  assert (Hrest : ∀ w1 : World,
    snd ((if PLANET_SHAPIRO self then
            ret (negb (bool_decide (is_Some (para_dict !! "NO_SS_SHAPIRO"))))
          else
            match
              match BinaryModelName self with
              | Some b =>
                  match para_dict !! "BINARY" with
                  | Some (v :: _) => Some (bool_decide (b = v))
                  | Some [] | None => None
                  end
              | None => None
              end
            with
            | Some r => ret r
            | None =>
                let! names' := get_list (params self) in
                match common_names para_dict names' with
                | [] => alias_loop para_dict names'
                | _ :: _ => ret true
                end
            end) w1) = w1).
  { intros w1. destruct (PLANET_SHAPIRO self); [done|].
    destruct (match BinaryModelName self with Some _ => _ | None => _ end); [done|].
    unfold bind, get_list.
    destruct (common_names para_dict _); [|done]. apply alias_loop_pure. }
  destruct (list_index "PSR" names) as [i|].
  - unfold put_list. by rewrite Hrest.
  - unfold ret at 1. rewrite Hrest. rewrite list_insert_id by done. by destruct w.
Qed.

Lemma use_cache_inv {A} (c : Comp A) (w w1 : World) (r : A) :
  use_cache c w = (Ret r, w1) →
  ∃ w0 w2, c w0 = (Ret r, w2) ∧ lists w0 = lists w ∧ attrs w0 = attrs w.
Proof.
  unfold use_cache, new_cache. destruct (self_cache w).
  - intros Hc. by exists w, w1.
  - match goal with |- context [c ?w0] => destruct (c w0) as [[r'|e] w2] eqn:Hc end;
      intros [= <- <-]. by eexists _, _.
  - match goal with |- context [c ?w0] => destruct (c w0) as [[r'|e] w2] eqn:Hc end;
      intros [= <- <-]. by eexists _, _.
  - intros Hc. by exists w, w1.
Qed.

Lemma select_params_subset (incfrozen : bool) (ps : list string) :
  ∀ (w w' : World) sel,
    select_params incfrozen ps w = (Ret sel, w') →
    w' = w ∧ ∀ x, x ∈ sel → x ∈ ps.
Proof.
  induction ps as [|par ps IH]; intros w w' sel; simpl.
  - intros [= <- <-]. split; [done|]. by intros x ?%elem_of_nil.
  - unfold bind at 1. destruct incfrozen.
    + unfold ret at 1. unfold bind.
      destruct (select_params true ps w) as [[rest|e] w2] eqn:Hrest; [|done].
      apply IH in Hrest as [-> Hsub]. intros [= <- <-]. split; [done|].
      intros x [->|Hx]%elem_of_cons; [left|right; by apply Hsub].
    + unfold bind at 1, getattr_param at 1.
      destruct (attrs w !! par) as [p|]; [|done]. unfold ret at 1. unfold bind.
      destruct (select_params false ps w) as [[rest|e] w2] eqn:Hrest; [|done].
      apply IH in Hrest as [-> Hsub]. intros [= <- <-]. split; [done|].
      intros x Hx. destruct (negb (frozen p)).
      * apply elem_of_cons in Hx as [->|Hx]; [left|right; by apply Hsub].
      * right. by apply Hsub.
Qed.

(** The names that [designmatrix] returns are [Offset] and names of the
    list behind [self.params]. *)
Lemma designmatrix_names (self : TimingModel) (toas : list TOA)
    (incfrozen incoffset : bool) (w w1 : World) M cols us :
  designmatrix u_dimensionless u_over_F0 self toas incfrozen incoffset w
  = (Ret (M, cols, us), w1) →
  ∀ p, p ∈ cols → p = "Offset" ∨ p ∈ default [] (lists w !! params self).
Proof.
  unfold designmatrix. intros (w0 & w2 & Hbody & Hl & _)%use_cache_inv.
  unfold invoke in Hbody. unfold bind at 1, emit at 1 in Hbody.
  unfold bind at 1, get_list at 1 in Hbody. cbn [lists set_trace] in Hbody.
  rewrite Hl in Hbody. unfold bind at 1 in Hbody.
  destruct (select_params incfrozen _ _) as [[sel|e] w3] eqn:Hsel; [|done].
  apply select_params_subset in Hsel as [-> Hsub].
  unfold bind at 1 in Hbody.
  destruct (F0_value _) as [[F0|e] w4]; [|done].
  unfold bind at 1 in Hbody.
  destruct (delay self toas w4) as [[d|e] w5]; [|done].
  unfold bind at 1 in Hbody.
  destruct (fill_columns _ _ _ _ _ _ _ _ _ w5) as [[Mu|e] w6]; [|done].
  injection Hbody as <- <- <- <-.
  intros p [Hp|Hp]%elem_of_app.
  - left. destruct incoffset; [by apply list_elem_of_singleton in Hp|by apply elem_of_nil in Hp].
  - right. by apply Hsub.
Qed.

(** The loop of [read_parfile] leaves the list objects alone and changes
    only parameters named in the list behind [self.params]. *)
Lemma read_line_frame (self : TimingModel) (st : parfile_state) (pl : string)
    (w w' : World) o :
  read_line from_parfile_line split_prefixed_name self st pl w = (o, w') →
  lists w' = lists w
  ∧ ∀ par, par ∉ default [] (lists w !! params self) → attrs w' !! par = attrs w !! par.
Proof.
  unfold read_line. case_decide; [by intros [= <- <-]|].
  destruct (_ || _); [by intros [= <- <-]|].
  destruct (split (strip pl)) as [|k0 krest]; [by intros [= <- <-]|].
  cbv zeta. unfold bind at 1, emit at 1.
  unfold bind at 1, get_list at 1. unfold bind at 1.
  match goal with |- context [offer_line _ ?ps ?l ?b ?w0] =>
    destruct (offer_line from_parfile_line ps l b w0) as [[parsed|e] w2] eqn:Hoffer end.
  - apply offer_line_frame in Hoffer as (_ & Hl & _ & Ha). simpl in Hl, Ha.
    unfold bind at 1. destruct parsed.
    + intros [= <- <-]. done.
    + match goal with |- context [report_unrecognized _ ?l ?w0] =>
        destruct (report_unrecognized split_prefixed_name l w0) as [[[]|e] w3] eqn:Hrep end;
        apply report_unrecognized_frame in Hrep as (_ & Hl3 & Ha3);
        intros [= <- <-]; rewrite ?Hl3, ?Ha3; done.
  - apply offer_line_frame in Hoffer as (_ & Hl & _ & Ha). simpl in Hl, Ha.
    by intros [= <- <-].
Qed.

Lemma read_lines_frame (self : TimingModel) (pfile : list string) :
  ∀ st (w w' : World) o,
    read_lines from_parfile_line split_prefixed_name self st pfile w = (o, w') →
    lists w' = lists w
    ∧ ∀ par, par ∉ default [] (lists w !! params self) → attrs w' !! par = attrs w !! par.
Proof.
  induction pfile as [|pl pfile IH]; intros st w w' o; simpl.
  - by intros [= <- <-].
  - unfold bind at 1.
    destruct (read_line _ _ self st pl w) as [[st1|e] w1] eqn:Hline;
      apply read_line_frame in Hline as [Hl Ha].
    + intros [Hl' Ha']%IH. rewrite Hl', Hl. split; [done|].
      intros par Hpar. rewrite Ha', Ha; [done..|]. by rewrite Hl.
    + by intros [= <- <-].
Qed.

(** C10.  Calling [is_in_parfile] on a model whose [params] list contains
    [PSR] removes [PSR] from the model's own list object: the list that
    [self.params] refers to afterwards is one shorter and, the names being
    distinct, holds no [PSR], while every other name stays.  This is the
    list that the later operations iterate: [__str__] and [as_parfile] loop
    over it, [designmatrix] returns no [PSR] column, and the loop of
    [read_parfile] no longer touches the [PSR] parameter. *)
Theorem is_in_parfile_removes_PSR_from_model
    (self : TimingModel) (para_dict : gmap string (list string)) (w : World)
    (names : list string)
    (Hnames : lists w !! params self = Some names)
    (Hin : "PSR" ∈ names)
    (Hnodup : NoDup names) :
  let w' := snd (is_in_parfile self para_dict w) in
  let names' := remove_first "PSR" names in
  lists w' !! params self = Some names'
  ∧ S (length names') = length names
  ∧ ("PSR" ∉ names')
  ∧ (∀ x, x ≠ "PSR" → x ∈ names → x ∈ names')
  ∧ __str__ param_str self w' = str_loop param_str names' "" w'
  ∧ as_parfile as_parfile_line self w' = as_parfile_over as_parfile_line self names' w'
  ∧ (∀ toas incfrozen incoffset M cols us w1,
       designmatrix u_dimensionless u_over_F0 self toas incfrozen incoffset w'
       = (Ret (M, cols, us), w1) → "PSR" ∉ cols)
  ∧ (∀ pfile,
       attrs (snd (read_lines from_parfile_line split_prefixed_name self
                     (mkParfileState [] ∅) pfile w')) !! "PSR"
       = attrs w' !! "PSR").
Proof.
  intros w' names'.
  assert (Hw' : w' = set_lists (<[params self := names']> (lists w)) w)
    by (by apply is_in_parfile_world).
  assert (Hl' : lists w' !! params self = Some names').
  { rewrite Hw'. simpl. apply list_lookup_insert_eq. by eapply lookup_lt_Some. }
  pose proof (remove_first_NoDup "PSR" names Hnodup) as Hnot.
  split; [done|]. split; [by apply remove_first_length|]. split; [done|].
  split; [intros x; apply remove_first_other|].
  split; [|split; [|split]].
  - unfold __str__, bind, get_list. by rewrite Hl'.
  - unfold as_parfile. unfold bind at 1, get_list at 1. by rewrite Hl'.
  - intros toas incfrozen incoffset M cols us w1 Hdm Hp.
    destruct (designmatrix_names _ _ _ _ _ _ _ _ _ Hdm _ Hp) as [?|Hp']; [done|].
    rewrite Hl' in Hp'. done.
  - intros pfile.
    destruct (read_lines _ _ self _ pfile w') as [o w2] eqn:Hrun.
    apply read_lines_frame in Hrun as [_ Ha]. apply Ha. by rewrite Hl'.
Qed.
End InParfileFacts.

(** ** Reported phases: [get_event_phases] on IEEE floats *)

Lemma digits2_pos_bounds (p : positive) :
  (2 ^ (Zpos (digits2_pos p) - 1) <= Zpos p < 2 ^ Zpos (digits2_pos p))%Z.
Proof.
  induction p as [p IH|p IH|]; simpl digits2_pos; [| |simpl; lia].
  all: rewrite Pos2Z.inj_succ.
  all: pose proof (Pos2Z.is_pos (digits2_pos p)) as Hpos.
  all: set (d := Zpos (digits2_pos p)) in *.
  all: replace (Z.succ d - 1)%Z with d by lia.
  all: rewrite Z.pow_succ_r by lia.
  all: assert (Hd : (2 ^ d = 2 * 2 ^ (d - 1))%Z)
         by (replace d with (Z.succ (d - 1))%Z at 1 by lia; apply Z.pow_succ_r; lia).
  all: lia.
Qed.

Lemma shr_1_nonneg (mrs : shr_record) : (0 <= shr_m mrs)%Z → (0 <= shr_m (shr_1 mrs))%Z.
Proof.
  destruct mrs as [m r s]. destruct m as [|p|p]; [simpl; lia| |]; destruct p; simpl; lia.
Qed.

Lemma iter_pos_shr_1_nonneg (p : positive) :
  ∀ mrs, (0 <= shr_m mrs)%Z → (0 <= shr_m (SpecFloat.iter_pos shr_1 p mrs))%Z.
Proof.
  induction p as [p IH|p IH|]; intros mrs Hm; simpl.
  - apply IH, IH. by apply shr_1_nonneg.
  - apply IH, IH. done.
  - by apply shr_1_nonneg.
Qed.

Lemma shr_fexp_nonneg (prec emax m e : Z) (l : location) :
  (0 <= m)%Z → (0 <= shr_m (fst (shr_fexp prec emax m e l)))%Z.
Proof.
  intros Hm. unfold shr_fexp, shr.
  assert (Hr : (0 <= shr_m (shr_record_of_loc m l))%Z) by (by destruct l as [|[]]).
  destruct (fexp prec emax (Zdigits2 m + e) - e)%Z; simpl; try done.
  by apply iter_pos_shr_1_nonneg.
Qed.

Lemma round_nearest_even_nonneg (mx : Z) (lx : location) :
  (0 <= mx)%Z → (0 <= round_nearest_even mx lx)%Z.
Proof. intros Hm. destruct lx as [|[]]; simpl; try done; try lia. destruct (Z.even mx); lia. Qed.

Lemma binary_round_aux_nonneg (prec emax mx ex : Z) (lx : location) :
  (0 <= mx)%Z → SFleb (S754_zero false) (binary_round_aux prec emax false mx ex lx) = true.
Proof.
  intros Hm. unfold binary_round_aux.
  pose proof (shr_fexp_nonneg prec emax mx ex lx Hm) as H1.
  destruct (shr_fexp prec emax mx ex lx) as [mrs' e']. simpl in H1.
  pose proof (shr_fexp_nonneg prec emax _ e' loc_Exact
                (round_nearest_even_nonneg _ (loc_of_shr_record mrs') H1)) as H2.
  destruct (shr_fexp prec emax _ e' loc_Exact) as [mrs'' e'']. simpl in H2.
  destruct (shr_m mrs''); [done| |lia].
  by destruct (Z.leb e'' (emax - prec)%Z).
Qed.

Lemma binary_normalize_nonneg (prec emax m e : Z) :
  (0 <= m)%Z → SFleb (S754_zero false) (binary_normalize prec emax m e false) = true.
Proof.
  intros Hm. destruct m as [|p|p]; simpl; [done| |lia].
  unfold binary_round. destruct (shl_align _ _ _) as [mz ez].
  by apply binary_round_aux_nonneg.
Qed.

Lemma SFadd_one_nonneg (prec emax : Z) (x : spec_float) :
  SFclassify prec (SFone prec emax) = FloatClass.PNormal →
  valid_binary prec emax x = true →
  SFltb x (S754_zero false) = true →
  SFleb (SFopp (SFone prec emax)) x = true →
  SFleb (S754_zero false) (SFadd prec emax x (SFone prec emax)) = true.
Proof.
  intros Hnormal Hvalid Hneg Hge.
  destruct (SFone prec emax) as [s1|s1| |s1 m1 e1] eqn:Hone; try (by destruct s1); try done.
  unfold SFclassify in Hnormal.
  destruct s1; [by destruct (Z.eqb (Zpos (digits2_pos m1)) prec)|].
  destruct (Z.eqb_spec (Zpos (digits2_pos m1)) prec) as [Hd1|]; [|done].
  destruct x as [sx|sx| |sx m e]; try done.
  destruct sx; [|done]. clear Hneg.
  simpl in Hvalid. unfold bounded, canonical_mantissa, fexp in Hvalid.
  apply andb_prop in Hvalid as [Hcanon _]. apply Z.eqb_eq in Hcanon.
  assert (Hdm : (Zpos (digits2_pos m) <= prec)%Z) by lia.
  pose proof (digits2_pos_bounds m) as [_ Hm].
  pose proof (digits2_pos_bounds m1) as [Hm1 _]. rewrite Hd1 in Hm1.
  assert (Hpow : (2 ^ Zpos (digits2_pos m) <= 2 ^ prec)%Z)
    by (apply Z.pow_le_mono_r; lia).
  assert (Hprec : (2 ^ prec = 2 * 2 ^ (prec - 1))%Z).
  { replace prec with (Z.succ (prec - 1))%Z at 1 by lia. apply Z.pow_succ_r. lia. }
  unfold SFleb, SFopp, SFcompare in Hge. simpl in Hge.
  unfold SFadd. apply binary_normalize_nonneg.
  destruct (Z.compare_spec e1 e) as [He|He|He]; [| done |].
  - subst e1. rewrite Z.min_id. unfold shl_align. rewrite Z.sub_diag. simpl.
    change (Pos.compare_cont Eq m1 m) with (Pos.compare m1 m) in Hge.
    destruct (Pos.compare_spec m1 m) as [->|?|?]; simpl in Hge; try done; lia.
  - rewrite Z.min_l by lia. unfold shl_align. rewrite Z.sub_diag.
    destruct (e - e1)%Z as [|d|d] eqn:Hd; try lia. simpl.
    change (Pos.iter xO m1 d) with (shift_pos d m1).
    rewrite shift_pos_correct, Z.pow_pos_fold.
    assert (2 ^ 1 <= 2 ^ Zpos d)%Z by (apply Z.pow_le_mono_r; lia).
    nia.
Qed.


Lemma SFleb_zero_of_not_negative (x y : spec_float) :
  SFltb x (S754_zero false) = false →
  SFleb y x = true →
  SFleb (S754_zero false) x = true.
Proof.
  destruct x as [sx|sx| |sx m e]; try done.
  - destruct sx; done.
  - by destruct y.
  - destruct sx; done.
Qed.

Section ReportedPhases.
Context {val TOA unit_t : Type}.
Variables prec emax : Z.
Context (PO : PhaseOps spec_float).
Local Abbreviation World := (World spec_float val TOA).
Local Abbreviation TimingModel := (@TimingModel spec_float val TOA unit_t).

(** C9.  On floats of a format in which [1.0] is a normal number, for a
    phase whose fractions are well-formed floats not below [-1.0] (the range
    of a [Phase] fraction), [get_event_phases] reports, for every
    observation, the fraction plus [1.0] when the fraction is negative and
    the fraction itself otherwise, and every reported value is at least
    zero. *)
Theorem get_event_phases_shifts_negative_fractions
    (model : TimingModel) (toas : list TOA) (w : World) (ph : Phase spec_float)
    (Hnormal : SFclassify prec (SFone prec emax) = FloatClass.PNormal)
    (Hphase : fst (@phase _ _ _ _ (ieee prec emax) PO model toas w) = Ret ph)
    (Hrange : Forall (λ x, valid_binary prec emax x = true
                           ∧ SFleb (SFopp (SFone prec emax)) x = true) (frac ph)) :
  ∃ out,
    fst (@get_event_phases _ _ _ _ (ieee prec emax) PO model toas w) = Ret out
    ∧ Forall2 (λ x r,
        r = (if SFltb x (S754_zero false) then SFadd prec emax x (SFone prec emax) else x)
        ∧ SFleb (S754_zero false) r = true) (frac ph) out.
Proof.
  unfold get_event_phases, bind.
  destruct (phase model toas w) as [o w1]. simpl in Hphase. subst o.
  eexists. split; [done|]. simpl.
  induction Hrange as [|x xs [Hvalid Hge] _ IH]; simpl; constructor; [|done].
  split; [done|].
  destruct (SFltb x (S754_zero false)) eqn:Hneg.
  - by apply SFadd_one_nonneg.
  - by eapply SFleb_zero_of_not_negative.
Qed.
End ReportedPhases.

(** ** The example models *)

Example delay_example :
  fst (@delay _ _ _ _ binary64 example_model [0; 1; 2] example_world)
  = Ret [fl 3; fl 3; fl 3].
Proof. vm_compute. reflexivity. Qed.

Example phase_example :
  fst (@phase _ _ _ _ binary64 example_PhaseOps example_model [0; 1] example_world)
  = Ret (mkPhase [fl 0; fl 0] [fl2 (-1) (-2); fl2 (-1) (-2)]).
Proof. vm_compute. reflexivity. Qed.

Example get_event_phases_example :
  fst (@get_event_phases _ _ _ _ binary64 example_PhaseOps example_model [0; 1] example_world)
  = Ret [fl2 3 (-2); fl2 3 (-2)].
Proof. vm_compute. reflexivity. Qed.

(** C1 at a failing input.  A model whose [cache] is [None] and whose first
    delay function raises: [delay] propagates the exception, and the scope
    that [use_cache] opened is still the model's [cache] afterwards; a
    second call finds it active and leaves it so.  The same holds for
    [phase] and [designmatrix], which call [delay]. *)
Theorem use_cache_leaves_scope_open_when_delay_raises :
  let first := @delay _ _ _ _ binary64 failing_model [0; 1] example_world in
  let second := @delay _ _ _ _ binary64 failing_model [0; 1] (snd first) in
  let by_phase :=
    @phase _ _ _ _ binary64 example_PhaseOps failing_model [0; 1] example_world in
  let by_designmatrix :=
    @designmatrix _ _ _ _ binary64 "" (λ u, u +:+ " s") failing_model [0; 1]
      false true example_world in
  self_cache example_world = PyNone
  ∧ fst first = Raise (ComponentError "no ephemeris")
  ∧ self_cache (snd first) = Scope 0
  ∧ self_cache (snd second) = Scope 0
  ∧ fst by_phase = Raise (ComponentError "no ephemeris")
  ∧ self_cache (snd by_phase) = Scope 0
  ∧ fst by_designmatrix = Raise (ComponentError "no ephemeris")
  ∧ self_cache (snd by_designmatrix) = Scope 0.
Proof. vm_compute. done. Qed.

(** On a normal return the same calls close the scope again. *)
Example use_cache_closes_scope_example :
  self_cache (snd (@delay _ _ _ _ binary64 example_model [0; 1] example_world)) = PyNone
  ∧ self_cache (snd (@phase _ _ _ _ binary64 example_PhaseOps example_model [0; 1]
                       example_world)) = PyNone.
Proof. vm_compute. done. Qed.

(** The string methods on a line of a parfile. *)
Example strip_example : strip "  F0  61.485  1 " = "F0  61.485  1".
Proof. reflexivity. Qed.

Example split_example : split "F0  61.485  1" = ["F0"; "61.485"; "1"].
Proof. reflexivity. Qed.

Example upper_example : upper "dmx_0001" = "DMX_0001".
Proof. reflexivity. Qed.

Example suffix_first_example : suffix_first "jump -fe 430 0.2" 2 = "jump2 -fe 430 0.2".
Proof. reflexivity. Qed.

(** ** Witnesses and counterexamples on the example models *)

Lemma cache_result_once_in_scope_plain_without_witness :
  let first := cache_result Cache_class_attr "phase" answer example_scoped_world in
  let second := cache_result Cache_class_attr "phase" answer (snd first) in
  fst first = Ret 42 ∧ fst second = Ret 42 ∧ snd second = snd first
  ∧ count_entered "phase" (trace (snd second))
    = S (count_entered "phase" (trace example_scoped_world))
  ∧ cache_result Cache_class_attr "phase" answer example_world
    = answer example_world.
Proof.
  apply (cache_result_once_in_scope_plain_without Cache_class_attr "phase" answer
           example_scoped_world
           (set_trace [Entered "phase"] example_scoped_world)
           example_world 0 ∅ 42);
    try reflexivity.
  by eexists.
Defined.

(** With the keys in the order L2, L1 the level-2 function runs first: the
    property of C2 fails. *)
Lemma delay_L2_first_counterexample :
  ¬ @L1_summed_before_L2_runs _ _ _ _ binary64 L2_first_model [0; 1] example_world.
Proof.
  intros Hc.
  specialize (Hc [Entered "delay"] 0
                [Summed "L2" 0; Called "L1" 0; Summed "L1" 0] [L1_delay] 0).
  assert (Hin : (Summed "L1" 0 : event spec_float nat) ∈ [Entered "delay"]).
  { apply Hc; [by vm_compute|reflexivity|simpl; lia]. }
  apply list_elem_of_singleton in Hin. discriminate.
Qed.

Lemma delay_L1_before_L2_when_keys_in_order_witness :
  @L1_summed_before_L2_runs _ _ _ _ binary64 example_model [0; 1] example_world.
Proof.
  apply (delay_L1_before_L2_when_keys_in_order example_model [0; 1] example_world
           [L1_delay] [L2_delay]).
  reflexivity.
Defined.

Lemma phase_runs_delay_once_then_accumulates_witness :
  ∃ td,
    trace (snd (@delay _ _ _ _ binary64 example_model [0; 1] example_world))
    = trace example_world ++ Entered "delay" :: td
    ∧ fst (@phase _ _ _ _ binary64 example_PhaseOps example_model [0; 1] example_world)
      = Ret (mkPhase [fl 0; fl 0] [fl2 (-1) (-2); fl2 (-1) (-2)])
    ∧ trace (snd (@phase _ _ _ _ binary64 example_PhaseOps example_model [0; 1] example_world))
      = trace example_world ++ Entered "phase" :: Entered "delay" :: td
          ++ phase_events 0 (length (phase_funcs example_model)) [0; 1] [fl 3; fl 3]
    ∧ count_entered "delay"
        (trace (snd (@phase _ _ _ _ binary64 example_PhaseOps example_model [0; 1] example_world)))
      = S (count_entered "delay" (trace example_world)).
Proof.
  apply (@phase_runs_delay_once_then_accumulates _ _ _ _ binary64 example_PhaseOps
           example_model [0; 1] example_world [fl 3; fl 3]
           (mkPhase [fl 0; fl 0] [fl 0; fl 0])
           (mkPhase [fl 0; fl 0] [fl2 (-1) (-2); fl2 (-1) (-2)]));
    by vm_compute.
Defined.

Lemma get_event_phases_shifts_negative_fractions_witness :
  ∃ out,
    fst (@get_event_phases _ _ _ _ (ieee 53 1024) example_PhaseOps
           example_model [0; 1] example_world) = Ret out
    ∧ Forall2 (λ x r,
        r = (if SFltb x (S754_zero false) then SFadd 53 1024 x (SFone 53 1024) else x)
        ∧ SFleb (S754_zero false) r = true)
        [fl2 (-1) (-2); fl2 (-1) (-2)] out.
Proof.
  apply (get_event_phases_shifts_negative_fractions 53 1024 example_PhaseOps
           example_model [0; 1] example_world
           (mkPhase [fl 0; fl 0] [fl2 (-1) (-2); fl2 (-1) (-2)])).
  - by vm_compute.
  - by vm_compute.
  - repeat constructor; by vm_compute.
Defined.

(** The columns requested from the example model: the offset and its free
    parameters. *)
Example example_requested_columns :
  requested_columns example_world ["PSR"; "F0"; "F1"; "DM"; "DM2"] false true
  = ["Offset"; "F0"; "DM"; "DM2"].
Proof. by vm_compute. Qed.

Example example_free_params :
  free_params example_world ["PSR"; "F0"; "F1"; "DM"; "DM2"] = ["F0"; "DM"; "DM2"].
Proof. by vm_compute. Qed.

Lemma example_params_bound :
  Forall (λ par, is_Some (attrs example_world !! par)) ["PSR"; "F0"; "F1"; "DM"; "DM2"].
Proof. repeat constructor; by eexists. Qed.

Lemma DM_no_derivative_path :
  @no_derivative_path spec_float nat nat string example_model "DM".
Proof. by repeat split. Qed.

(** DM is free and has neither derivative function, yet [designmatrix]
    returns (with a zero column) and [d_phase_d_param] returns [0.0]: the
    property of C3 fails. *)
Lemma designmatrix_no_error_counterexample :
  ¬ @unavailable_derivative_raises _ _ _ _ binary64 "" (λ u, u +:+ " s")
      example_model [0; 1] false true example_world.
Proof.
  intros Hc. destruct (Hc "DM") as [Hd _].
  - change (default [] (lists example_world !! params example_model))
      with ["PSR"; "F0"; "F1"; "DM"; "DM2"].
    rewrite example_requested_columns.
    do 2 apply list_elem_of_further. apply list_elem_of_here.
  - apply DM_no_derivative_path.
  - vm_compute in Hd. discriminate.
Qed.

Lemma designmatrix_zero_column_without_derivative_witness :
  ∃ M us w',
    @designmatrix _ _ _ _ binary64 "" (λ u, u +:+ " s") example_model [0; 1] false true
      example_world
    = (Ret (M, requested_columns example_world ["PSR"; "F0"; "F1"; "DM"; "DM2"] false true,
            us), w')
    ∧ ∀ j p,
        requested_columns example_world ["PSR"; "F0"; "F1"; "DM"; "DM2"] false true !! j
        = Some p →
        no_derivative_path example_model p →
        Forall (λ row, row !! j = Some (S754_zero false)) (rows M)
        ∧ fst (@d_phase_d_param _ _ _ _ binary64 example_model [0; 1] p example_world)
          = Ret (RFloat (S754_zero false)).
Proof.
  apply (@designmatrix_zero_column_without_derivative _ _ _ _ binary64 "" (λ u, u +:+ " s")
           example_model [0; 1] example_world ["PSR"; "F0"; "F1"; "DM"; "DM2"]
           F0_param (fl 100) false true).
  - reflexivity.
  - apply example_params_bound.
  - reflexivity.
  - reflexivity.
  - by vm_compute.
  - rewrite example_requested_columns. repeat constructor.
Defined.

Lemma designmatrix_shape_and_offset_column_witness :
  ∃ M us w',
    @designmatrix _ _ _ _ binary64 "" (λ u, u +:+ " s") example_model [0; 1] false true
      example_world
    = (Ret (M, "Offset" :: free_params example_world ["PSR"; "F0"; "F1"; "DM"; "DM2"], us), w')
    ∧ nrows M = 2
    ∧ ncols M = S (length (free_params example_world ["PSR"; "F0"; "F1"; "DM"; "DM2"]))
    ∧ length (rows M) = 2
    ∧ Forall (λ row,
        length row = S (length (free_params example_world ["PSR"; "F0"; "F1"; "DM"; "DM2"]))
        ∧ row !! 0 = Some (SFone 53 1024)) (rows M).
Proof.
  apply (@designmatrix_shape_and_offset_column _ _ _ _ binary64 "" (λ u, u +:+ " s")
           example_model [0; 1] example_world ["PSR"; "F0"; "F1"; "DM"; "DM2"]
           F0_param (fl 100)).
  - reflexivity.
  - apply example_params_bound.
  - reflexivity.
  - reflexivity.
  - by vm_compute.
  - rewrite example_free_params. repeat constructor.
Defined.

(** The design matrix of the example: the offset column of ones, the column
    of [d_phase_d_F0 / F0], and two columns left at zero. *)
Example designmatrix_example :
  fst (@designmatrix _ _ _ _ binary64 "" (λ u, u +:+ " s") example_model [0; 1] false true
         example_world)
  = Ret (mkMatrix 2 4
           [[fl 1; fl 0; fl 0; fl 0];
            [fl 1; SFdiv 53 1024 (fl 1) (fl 100); fl 0; fl 0]],
         ["Offset"; "F0"; "DM"; "DM2"], [""; "s s"]).
Proof. by vm_compute. Qed.

(** DM has no analytic derivative; [d_phase_d_param] returns the float
    [0.0], which is no per-observation vector: the property of C7 fails. *)
Lemma d_phase_d_param_not_a_vector_counterexample :
  ¬ @d_phase_d_param_as_claimed _ _ _ _ binary64 example_model [0; 1] "DM" example_world.
Proof.
  unfold d_phase_d_param_as_claimed.
  change (methods example_model ("d_phase_d_" +:+ "DM")) with
    (@None (list nat → outcome (quantity spec_float string))).
  intros [_ (r & Hr & Hv)]. vm_compute in Hr. injection Hr as <-. exact Hv.
Qed.

(** A parfile in which DM occurs twice after DM2: the second DM line is
    offered as [DM2 2]. *)
Example read_parfile_example :
  offered_lines
    (trace (snd (read_lines from_parfile_line_spec no_prefixed_name example_model
                   (mkParfileState [] ∅) ["DM2 5"; "# comment"; "DM 1"; "DM 2"]
                   example_world)))
  = ["DM2 5"; "DM 1"; "DM2 2"].
Proof. by vm_compute. Qed.

(** The repeated line [DM 2] is matched as [DM2 2]: it replaces the value
    that the line [DM2 5] gave to DM2, and no warning is logged.  The last
    clause of C8 fails. *)
Lemma read_parfile_overwrites_counterexample :
  ¬ repeated_line_keeps_values from_parfile_line_spec no_prefixed_name example_model
      ["DM2 5"; "DM 1"] "DM 2" example_world.
Proof.
  intros Hc.
  destruct (Hc (ltac:(vm_compute; set_solver)) "DM2" DM2_param
              (mkParameter "DM2" (PVStr "5") false [] false "" 0))
    as [(p2 & Hp2 & Hv)|Hw].
  - reflexivity.
  - by vm_compute.
  - done.
  - vm_compute in Hp2. injection Hp2 as <-. discriminate.
  - by vm_compute in Hw.
Qed.

Lemma read_parfile_offers_suffixed_repeats_witness :
  offered_lines
    (trace (snd (read_lines from_parfile_line_spec no_prefixed_name example_model
                   (mkParfileState [] ∅) ["DM2 5"; "DM 1"; "DM 2"] example_world)))
  = offered_lines (trace example_world)
    ++ disambiguate [] (significant ["DM2 5"; "DM 1"; "DM 2"]).
Proof.
  apply (read_parfile_offers_suffixed_repeats from_parfile_line_spec no_prefixed_name
           example_model ["DM2 5"; "DM 1"; "DM 2"] example_world
           (mkParfileState ["DM2"; "DM"; "DM"] (<["DM" := 2]> ∅))).
  by vm_compute.
Defined.

Lemma is_in_parfile_removes_PSR_from_model_witness :
  let w' := snd (is_in_parfile example_model ∅ example_world) in
  let names' := remove_first "PSR" ["PSR"; "F0"; "F1"; "DM"; "DM2"] in
  lists w' !! params example_model = Some names'
  ∧ S (length names') = length ["PSR"; "F0"; "F1"; "DM"; "DM2"]
  ∧ ("PSR" ∉ names')
  ∧ (∀ x, x ≠ "PSR" → x ∈ ["PSR"; "F0"; "F1"; "DM"; "DM2"] → x ∈ names')
  ∧ __str__ name example_model w' = str_loop name names' "" w'
  ∧ as_parfile name example_model w' = as_parfile_over name example_model names' w'
  ∧ (∀ toas incfrozen incoffset M cols us w1,
       @designmatrix _ _ _ _ binary64 "" (λ u, u +:+ " s") example_model toas
         incfrozen incoffset w'
       = (Ret (M, cols, us), w1) → "PSR" ∉ cols)
  ∧ (∀ pfile,
       attrs (snd (read_lines from_parfile_line_spec no_prefixed_name example_model
                     (mkParfileState [] ∅) pfile w')) !! "PSR"
       = attrs w' !! "PSR").
Proof.
  apply (@is_in_parfile_removes_PSR_from_model _ _ _ _ binary64 "" (λ u, u +:+ " s")
           from_parfile_line_spec name name no_prefixed_name
           example_model ∅ example_world ["PSR"; "F0"; "F1"; "DM"; "DM2"]).
  - reflexivity.
  - apply list_elem_of_here.
  - by apply (bool_decide_unpack _).
Defined.

(** After [is_in_parfile] the model's own list has lost PSR. *)
Example is_in_parfile_example :
  lists example_world !! params example_model = Some ["PSR"; "F0"; "F1"; "DM"; "DM2"]
  ∧ lists (snd (is_in_parfile example_model ∅ example_world)) !! params example_model
    = Some ["F0"; "F1"; "DM"; "DM2"].
Proof. by vm_compute. Qed.

(** * Further properties *)

(** ** The lifetime of the cache *)

Section CacheLifetime.
Context {num val TOA : Type}.
Local Abbreviation World := (World num val TOA).
Local Abbreviation Comp := (Comp num val TOA).

Lemma use_cache_in_scope {A} (function : Comp A) (w : World) :
  scope_active (self_cache w) = true → use_cache function w = function w.
Proof. unfold use_cache. by destruct (self_cache w). Qed.

Lemma use_cache_not_opening {A} (function : Comp A) (w : World) :
  not_opening w → use_cache function w = function w.
Proof. unfold not_opening, use_cache. destruct (self_cache w); intros [?|?]; done. Qed.

(** The [Cache] instance of a scope that was just opened holds nothing. *)
Lemma cache_getattr_opened (class_attr : string → option val) (the_func : string)
    (w : World) :
  class_attr the_func = None →
  cache_getattr class_attr (opened w) (length (caches w)) the_func = None.
Proof.
  intros Hclass. unfold cache_getattr, opened. simpl.
  rewrite lookup_app_r by done. rewrite Nat.sub_diag. simpl.
  by rewrite lookup_empty.
Qed.

(** The docstring of [use_cache]: functions with caching enabled that the
    top-level function calls share its cache.  A decorated call made inside a
    decorated function, after a part [c] that does not rebind [self.cache],
    behaves as the undecorated call: it neither opens a second scope nor
    closes the scope of its caller. *)
Theorem use_cache_nested_call_is_plain {A B C}
    (c : Comp A) (f : A → Comp B) (k : A → B → Comp C) (w : World)
    (Hc : keeps_cache c) :
  use_cache (let! x := c in let! y := use_cache (f x) in k x y) w
  = use_cache (let! x := c in let! y := f x in k x y) w.
Proof.
  assert (Hbody : ∀ w0, not_opening w0 →
            (let! x := c in let! y := use_cache (f x) in k x y) w0
            = (let! x := c in let! y := f x in k x y) w0).
  { intros w0 Hw0. unfold bind at 1 3. pose proof (Hc w0) as Hk.
    destruct (c w0) as [[x|e] w1]; [|done]. simpl in Hk.
    unfold bind. rewrite use_cache_not_opening; [done|].
    unfold not_opening in *. by rewrite Hk. }
  unfold use_cache at 1 3. unfold new_cache.
  destruct (self_cache w) eqn:Hs.
  - apply Hbody. left. done.
  - rewrite Hbody; [done|]. by right.
  - rewrite Hbody; [done|]. by right.
  - apply Hbody. right. by rewrite Hs.
Qed.

(** [cache_result] keys the cache by the name of the function alone (the
    source asks: what to do about checking for a change of arguments?).
    Once a call has stored its result, a call of the function of that name
    with any other arguments, here the computation [g], returns the stored
    result and does not run. *)
Theorem cache_result_ignores_arguments
    (class_attr : string → option val) (the_func : string) (f g : Comp val)
    (w w1 : World) (l : loc) (d : gmap string val) (v : val)
    (Hscope : self_cache w = Scope l)
    (Hobj : caches w !! l = Some d)
    (Hfresh : d !! the_func = None)
    (Hclass : class_attr the_func = None)
    (Hrun : f w = (Ret v, w1))
    (Hsame : self_cache w1 = Scope l)
    (Hlive : is_Some (caches w1 !! l)) :
  let first := cache_result class_attr the_func f w in
  fst first = Ret v
  ∧ cache_result class_attr the_func g (snd first) = (Ret v, snd first).
Proof.
  assert (Hfirst : cache_result class_attr the_func f w
                   = (Ret v, cache_setattr l the_func v w1)).
  { unfold cache_result. rewrite Hscope.
    unfold cache_getattr. rewrite Hobj, Hfresh, Hclass. by rewrite Hrun. }
  simpl. rewrite Hfirst. simpl. split; [done|].
  unfold cache_result. simpl. rewrite Hsame.
  by rewrite (cache_getattr_setattr class_attr l the_func v w1 Hlive).
Qed.

(** The cache does not outlive a top-level call that returns: after the
    decorated [body] has returned, a new top-level call starts with an empty
    [Cache] instance, so a function wrapped by [cache_result] runs again,
    whatever [body] had stored. *)
Theorem cache_is_fresh_after_return {A}
    (class_attr : string → option val) (the_func : string)
    (body : Comp A) (g : Comp val) (w w1 : World) (r : A)
    (Hnone : self_cache w = PyNone ∨ self_cache w = Foreign)
    (Hclass : class_attr the_func = None)
    (Hbody : use_cache body w = (Ret r, w1)) :
  self_cache w1 = PyNone
  ∧ use_cache (cache_result class_attr the_func g) w1
    = match g (opened w1) with
      | (Ret v, w2) =>
          (Ret v, set_self_cache PyNone (cache_setattr (length (caches w1)) the_func v w2))
      | (Raise e, w2) => (Raise e, w2)
      end.
Proof.
  pose proof (use_cache_closes_on_return body w w1 r Hnone Hbody) as Hc.
  split; [done|].
  rewrite use_cache_inactive by (by left).
  unfold cache_result at 1.
  change (self_cache (opened w1)) with (Scope (length (caches w1))). cbv iota.
  rewrite cache_getattr_opened by done.
  by destruct (g (opened w1)) as [[v|e] w2].
Qed.

(** The cache does outlive a top-level call that raises.  When a decorated
    function stores a result and then raises, the [Cache] instance stays in
    [self.cache]; the next top-level call finds the scope active and gets the
    stored result without running the function [g] of that name. *)
Theorem cache_is_stale_after_raise {A}
    (class_attr : string → option val) (the_func : string)
    (f g : Comp val) (w w1 : World) (v : val) (e : exn)
    (Hnone : self_cache w = PyNone ∨ self_cache w = Foreign)
    (Hclass : class_attr the_func = None)
    (Hrun : f (opened w) = (Ret v, w1))
    (Hsame : self_cache w1 = Scope (length (caches w)))
    (Hlive : is_Some (caches w1 !! length (caches w))) :
  let first :=
    use_cache (let! x := cache_result class_attr the_func f in (raise e : Comp A)) w in
  fst first = Raise e
  ∧ self_cache (snd first) = Scope (length (caches w))
  ∧ use_cache (cache_result class_attr the_func g) (snd first) = (Ret v, snd first).
Proof.
  set (l := length (caches w)) in *.
  assert (Hfirst : use_cache (let! x := cache_result class_attr the_func f in (raise e : Comp A)) w
                   = (Raise e, cache_setattr l the_func v w1)).
  { apply use_cache_stays_open_on_raise; [done|].
    unfold bind, cache_result.
    change (self_cache (opened w)) with (Scope l). cbv iota.
    unfold l. rewrite cache_getattr_opened by done. by rewrite Hrun. }
  simpl. rewrite Hfirst. simpl. split; [done|]. split; [done|].
  rewrite use_cache_in_scope by (simpl; by rewrite Hsame).
  unfold cache_result. simpl. rewrite Hsame.
  by rewrite (cache_getattr_setattr class_attr l the_func v w1 Hlive).
Qed.
End CacheLifetime.

(** ** Evaluation leaves the model as it is *)

Section OnlyTrace.
Context {num val TOA : Type}.
Local Abbreviation World := (World num val TOA).
Local Abbreviation Comp := (Comp num val TOA).

Lemma not_opening_extend (t : list (event num TOA)) (w : World) :
  not_opening w → not_opening (extend t w).
Proof. done. Qed.

Lemma emits_only_trace {A} (c : Comp A) o t : emits c o t → only_trace c.
Proof. intros Hc w _. exists o, t. apply Hc. Qed.

Lemma only_trace_ret {A} (a : A) : only_trace (ret a : Comp A).
Proof. eapply emits_only_trace, emits_ret. Qed.

Lemma only_trace_raise {A} (e : exn) : only_trace (raise e : Comp A).
Proof. eapply emits_only_trace, emits_raise. Qed.

Lemma only_trace_lift {A} (o : outcome A) : only_trace (lift o : Comp A).
Proof. eapply emits_only_trace, emits_lift. Qed.

Lemma only_trace_emit (e : event num TOA) : only_trace (emit e : Comp unit).
Proof. eapply emits_only_trace, emits_emit. Qed.

Lemma only_trace_get_list (l : loc) : only_trace (get_list l : Comp _).
Proof. intros w _. exists (Ret (default [] (lists w !! l))), []. by rewrite extend_nil. Qed.

Lemma only_trace_getattr_param (par : string) : only_trace (getattr_param par : Comp _).
Proof.
  intros w _. unfold getattr_param.
  destruct (attrs w !! par) as [p|]; eexists _, []; by rewrite extend_nil.
Qed.

Lemma only_trace_bind {A B} (c : Comp A) (k : A → Comp B) :
  only_trace c → (∀ a, only_trace (k a)) → only_trace (bind c k).
Proof.
  intros Hc Hk w Hw. unfold bind. destruct (Hc w Hw) as (o & t & ->).
  destruct o as [a|e]; [|by eexists _, _].
  destruct (Hk a (extend t w)) as (o' & t' & ->); [by apply not_opening_extend|].
  exists o', (t ++ t'). by rewrite extend_extend.
Qed.

Lemma only_trace_invoke {A} (f : string) (c : Comp A) :
  only_trace c → only_trace (invoke f c).
Proof. intros Hc. unfold invoke. apply only_trace_bind; [apply only_trace_emit|done]. Qed.

Lemma only_trace_use_cache {A} (c : Comp A) : only_trace c → only_trace (use_cache c).
Proof. intros Hc w Hw. rewrite use_cache_not_opening by done. by apply Hc. Qed.

(** A decorated function whose body only evaluates, called from anywhere. *)
Lemma use_cache_evaluates_only {A} (c : Comp A) (w : World) :
  only_trace c → evaluates_only (use_cache c) w.
Proof.
  intros Hc. unfold evaluates_only.
  destruct (self_cache w) eqn:Hs.
  - rewrite use_cache_missing by done.
    destruct (Hc w) as (o & t & ->); [by left|]. done.
  - rewrite use_cache_inactive by (by left).
    destruct (Hc (opened w)) as (o & t & ->); [by right|].
    by destruct o.
  - rewrite use_cache_inactive by (by right).
    destruct (Hc (opened w)) as (o & t & ->); [by right|].
    by destruct o.
  - rewrite (use_cache_active _ _ l) by done.
    destruct (Hc w) as (o & t & ->); [right; by rewrite Hs|]. done.
Qed.
End OnlyTrace.

Ltac only_trace_step :=
  first [ apply only_trace_ret | apply only_trace_raise | apply only_trace_lift
        | apply only_trace_emit | apply only_trace_get_list
        | apply only_trace_getattr_param
        | apply only_trace_use_cache | apply only_trace_invoke
        | apply only_trace_bind; [|intros ?] ].

Section EvaluationOnly.
Context {num val TOA unit_t : Type} `{Numeric num} `{PhaseOps num}.
Local Abbreviation World := (World num val TOA).
Local Abbreviation Comp := (Comp num val TOA).
Local Abbreviation TimingModel := (@TimingModel num val TOA unit_t).
Variable u_dimensionless : unit_t.
Variable u_over_F0 : unit_t → unit_t.
Variable tdbld : TOA → num.
Variable day_minus_second : num → num → num.

Lemma only_trace_delay_level (lvl : string)
    (dfs : list (list TOA → outcome (ndarray num))) (toas : list TOA) :
  ∀ i acc, only_trace (delay_level lvl i dfs toas acc : Comp _).
Proof.
  intros i acc.
  destruct (delay_level_emits (val:=val) lvl dfs toas i acc) as (o & t & He & _).
  by eapply emits_only_trace.
Qed.

Lemma only_trace_delay_levels (self : TimingModel) (toas : list TOA) (keys : list string) :
  ∀ acc, only_trace (delay_levels self keys toas acc : Comp _).
Proof.
  intros acc.
  destruct (delay_levels_emits self toas keys acc) as (o & t & He & _).
  by eapply emits_only_trace.
Qed.

Lemma only_trace_delay (self : TimingModel) (toas : list TOA) :
  only_trace (delay self toas : Comp _).
Proof.
  unfold delay. apply only_trace_use_cache, only_trace_invoke, only_trace_delay_levels.
Qed.

Lemma only_trace_phase_loop
    (pfs : list (list TOA → list num → outcome (ndarray num)))
    (toas : list TOA) (d : list num) :
  ∀ i acc, only_trace (phase_loop i pfs toas d acc : Comp _).
Proof.
  induction pfs as [|pf pfs IH]; intros i acc; simpl; [apply only_trace_ret|].
  repeat only_trace_step. apply IH.
Qed.

Lemma only_trace_select_params (incfrozen : bool) (ps : list string) :
  only_trace (select_params incfrozen ps : Comp _).
Proof.
  induction ps as [|par ps IH]; simpl; [apply only_trace_ret|].
  apply only_trace_bind; [destruct incfrozen; repeat only_trace_step|intros keep].
  apply only_trace_bind; [apply IH|intros rest]. apply only_trace_ret.
Qed.

Lemma only_trace_F0_value : only_trace (F0_value : Comp num).
Proof.
  unfold F0_value. apply only_trace_bind; [apply only_trace_getattr_param|].
  intros p. destruct (value p); only_trace_step.
Qed.

Lemma only_trace_fill_columns (self : TimingModel) (toas : list TOA) (F0 : num)
    (ps : list string) :
  ∀ ii M us,
    only_trace (fill_columns u_dimensionless u_over_F0 self toas F0 ii ps M us : Comp _).
Proof.
  induction ps as [|param ps IH]; intros ii M us; [apply only_trace_ret|].
  cbn [fill_columns]. apply only_trace_bind; [|intros Mu; apply IH].
  case_decide; [repeat only_trace_step|].
  destruct (methods self ("d_phase_d_" +:+ param)); [repeat only_trace_step|].
  destruct (methods self ("d_delay_d_" +:+ param)); repeat only_trace_step.
Qed.

Lemma only_trace_d_phase_d_param_num (self : TimingModel) (toas : list TOA) (param : string) :
  only_trace (d_phase_d_param_num self toas param : Comp _).
Proof. unfold d_phase_d_param_num. repeat only_trace_step. Qed.

Lemma only_trace_get_prefix_mapping_loop (pfx : string) (ps : list string) :
  ∀ m, only_trace (get_prefix_mapping_loop pfx ps m : Comp _).
Proof.
  induction ps as [|p ps IH]; intros m; simpl; [apply only_trace_ret|].
  apply only_trace_bind; [apply only_trace_getattr_param|intros par; apply IH].
Qed.

(** The decorated methods of [TimingModel] only evaluate: whatever they
    return or raise, the parameters, the list objects and the warnings of
    the model are as before.  Called with [cache] at [None], each of them
    creates exactly one [Cache] instance, also [phase] and [designmatrix],
    which call the decorated [delay]; it is dropped when the method returns
    and is left in [cache] when the method raises.  Called inside an active
    scope they leave the cache alone. *)
Theorem decorated_methods_evaluate_only
    (self : TimingModel) (toas : list TOA) (param pfx : string)
    (incfrozen incoffset : bool) (w : World) :
  evaluates_only (delay self toas) w
  ∧ evaluates_only (phase self toas) w
  ∧ evaluates_only (get_barycentric_toas tdbld day_minus_second self toas) w
  ∧ evaluates_only (get_prefix_mapping self pfx) w
  ∧ evaluates_only (d_phase_d_param self toas param) w
  ∧ evaluates_only (d_phase_d_param_num self toas param) w
  ∧ evaluates_only
      (designmatrix u_dimensionless u_over_F0 self toas incfrozen incoffset) w.
Proof.
  repeat match goal with |- evaluates_only _ _ ∧ _ => split end;
    apply use_cache_evaluates_only, only_trace_invoke.
  - apply only_trace_delay_levels.
  - apply only_trace_bind; [apply only_trace_delay|intros d].
    apply only_trace_bind; [apply only_trace_lift|intros p0].
    apply only_trace_phase_loop.
  - cbv zeta. destruct (dict_get (delay_funcs self) "L1"); [|apply only_trace_raise].
    apply only_trace_bind; [apply only_trace_delay_level|intros d; apply only_trace_ret].
  - apply only_trace_bind; [apply only_trace_get_list|intros names].
    apply only_trace_get_prefix_mapping_loop.
  - cbv zeta. destruct (methods self ("d_phase_d_" +:+ param)).
    + apply only_trace_bind; [apply only_trace_lift|intros q; apply only_trace_ret].
    + apply only_trace_d_phase_d_param_num.
  - apply only_trace_ret.
  - apply only_trace_bind; [apply only_trace_get_list|intros names].
    apply only_trace_bind; [apply only_trace_select_params|intros selected].
    apply only_trace_bind; [apply only_trace_F0_value|intros F0].
    apply only_trace_bind; [apply only_trace_delay|intros d].
    apply only_trace_bind; [apply only_trace_fill_columns|intros Mu].
    apply only_trace_ret.
Qed.
End EvaluationOnly.

(** ** [add_param] *)

Section AddParam.
Context {num val TOA unit_t : Type} `{Numeric num} `{PhaseOps num}.
Local Abbreviation World := (World num val TOA).
Local Abbreviation TimingModel := (@TimingModel num val TOA unit_t).

(** [add_param] binds the parameter under its name and appends the name to
    the list object of [self.params], without looking whether the name is
    there already: a name added again occurs once more, and the attribute
    holds the newer parameter.  With [binary_param=True] the name is also
    appended to [self.binary_params]; on a model that has no such attribute
    the call raises [AttributeError] after the parameter has been bound and
    its name appended. *)
Theorem add_param_appends_without_check
    (self : TimingModel) (param : ParameterObj num) (w : World) (names : list string)
    (Hnames : lists w !! params self = Some names) :
  let w' := set_lists (<[params self := names ++ [name param]]> (lists w))
              (set_attrs (<[name param := param]> (attrs w)) w) in
  add_param self param false w = (Ret tt, w')
  ∧ lists w' !! params self = Some (names ++ [name param])
  ∧ attrs w' !! name param = Some param
  ∧ occurrences (name param) (names ++ [name param])
    = S (occurrences (name param) names)
  ∧ (binary_params self = None →
     add_param self param true w = (Raise (AttributeError "binary_params"), w'))
  ∧ (∀ l bs, binary_params self = Some l → lists w' !! l = Some bs →
     add_param self param true w
     = (Ret tt, set_lists (<[l := bs ++ [name param]]> (lists w')) w')).
Proof.
  intros w'.
  assert (Hfirst : ∀ b, add_param self param b w
            = (if b then
                 match binary_params self with
                 | Some l => let! bs := get_list l in put_list l (bs ++ [name param])
                 | None => raise (AttributeError "binary_params")
                 end
               else ret tt) w').
  { intros b. unfold add_param, bind, setattr_param, get_list, put_list. simpl.
    rewrite Hnames. done. }
  split; [by rewrite Hfirst|].
  split; [simpl; apply list_lookup_insert_eq; by eapply lookup_lt_Some|].
  split; [simpl; apply lookup_insert_eq|].
  split; [rewrite occurrences_snoc, decide_True by done; lia|].
  split.
  - intros Hb. rewrite Hfirst, Hb. done.
  - intros l bs Hb Hbs. rewrite Hfirst, Hb.
    unfold bind, get_list, put_list. by rewrite Hbs.
Qed.
End AddParam.

(** ** [get_prefix_mapping] and [get_params_of_type] *)

Lemma substring_0_app (s t : string) :
  String.substring 0 (String.length s) (s +:+ t) = s.
Proof. induction s as [|c s IH]; simpl; [by destruct t|by rewrite IH]. Qed.

Lemma string_length_app (s t : string) :
  String.length (s +:+ t) = String.length s + String.length t.
Proof. induction s as [|c s IH]; simpl; [done|by rewrite IH]. Qed.

(** A class name that ends in [Parameter], without its last nine
    characters. *)
Lemma drop_last_9_Parameter (base : string) :
  drop_last_9 (base +:+ "Parameter") = base.
Proof.
  unfold drop_last_9. rewrite string_length_app. simpl.
  replace (String.length base + 9 - 9) with (String.length base) by lia.
  apply substring_0_app.
Qed.

Section LookupFacts.
Context {num val TOA unit_t : Type} `{Numeric num} `{PhaseOps num}.
Local Abbreviation World := (World num val TOA).
Local Abbreviation Comp := (Comp num val TOA).
Local Abbreviation TimingModel := (@TimingModel num val TOA unit_t).
Variable type_name : ParameterObj num → string.

Lemma get_prefix_mapping_loop_last (pfx : string) (w : World) (ps : list string) :
  Forall (λ n, is_Some (attrs w !! n)) ps →
  ∀ m0, ∃ m,
    get_prefix_mapping_loop pfx ps m0 w = (Ret m, w)
    ∧ ∀ i, m !! i
           = match last (filter (λ n, bound_to_prefix_param w pfx i n = true) ps) with
             | Some n => Some n
             | None => m0 !! i
             end.
Proof.
  induction 1 as [|n ps [p Hp] _ IH]; intros m0.
  - exists m0. split; [done|]. intros i. by rewrite filter_nil.
  - cbn [get_prefix_mapping_loop]. unfold bind at 1, getattr_param at 1. rewrite Hp.
    destruct (IH (if is_prefix p && bool_decide (prefix p = pfx)
                  then <[index p := n]> m0 else m0)) as (m & Hrun & Hm).
    exists m. split; [done|]. intros i. rewrite Hm, filter_cons.
    assert (Hq : bound_to_prefix_param w pfx i n
                 = is_prefix p && bool_decide (prefix p = pfx) && bool_decide (index p = i))
      by (unfold bound_to_prefix_param; by rewrite Hp).
    rewrite Hq.
    destruct (is_prefix p && bool_decide (prefix p = pfx)) eqn:Hcond; simpl.
    + destruct (decide (index p = i)) as [Hi|Hi].
      * rewrite (bool_decide_eq_true_2 _ Hi). rewrite decide_True by done.
        rewrite last_cons. subst i. rewrite lookup_insert_eq.
        by destruct (last _).
      * rewrite (bool_decide_eq_false_2 _ Hi). rewrite decide_False by done.
        by rewrite lookup_insert_ne.
    + done.
Qed.

(** [get_prefix_mapping] returns, for every index, the last name in the
    list of [self.params] that starts with the prefix and is bound to a
    prefix parameter of that prefix and index; an index that no such
    parameter has is no key of the mapping.  It returns when the names that
    start with the prefix are bound. *)
Theorem get_prefix_mapping_maps_index_to_last_name
    (self : TimingModel) (pfx : string) (w : World) (names : list string)
    (Hnames : lists w !! params self = Some names)
    (Hbound : Forall (λ n, startswith n pfx = true → is_Some (attrs w !! n)) names) :
  ∃ mapping,
    fst (get_prefix_mapping self pfx w) = Ret mapping
    ∧ ∀ i, mapping !! i = last (filter (λ n, is_prefix_param w pfx i n = true) names).
Proof.
  assert (Hb : ∀ w1 : World, attrs w1 = attrs w →
            Forall (λ n, is_Some (attrs w1 !! n))
              (filter (λ x, startswith x pfx = true) names)).
  { intros w1 ->. apply Forall_forall. intros n [Hs Hin]%list_elem_of_filter.
    rewrite Forall_forall in Hbound. by apply Hbound. }
  assert (Hspec : ∀ i,
            last (filter (λ n, bound_to_prefix_param w pfx i n = true)
                    (filter (λ x, startswith x pfx = true) names))
            = last (filter (λ n, is_prefix_param w pfx i n = true) names)).
  { intros i. rewrite list_filter_filter. f_equal. apply list_filter_iff.
    intros n. unfold is_prefix_param. rewrite andb_true_iff. tauto. }
  destruct (get_prefix_mapping_loop_last pfx w _ (Hb w eq_refl) ∅) as (m & _ & Hm).
  exists m. split.
  - assert (Hret : ∃ w', get_prefix_mapping self pfx w = (Ret m, w')).
    { unfold get_prefix_mapping. apply use_cache_returns. intros w1 Hl Ha.
      unfold invoke, bind, emit, get_list. cbn [lists set_trace].
      rewrite Hl, Hnames. cbn [default]. unfold id.
      set (w2 := set_trace _ w1).
      destruct (get_prefix_mapping_loop_last pfx w2 _ (Hb w2 Ha) ∅) as (m' & Hrun & Hm').
      rewrite Hrun. exists w2. f_equal. f_equal. apply map_eq. intros i.
      rewrite Hm, Hm'. unfold bound_to_prefix_param. cbn [attrs set_trace w2].
      by rewrite Ha. }
    destruct Hret as [w' ->]. done.
  - intros i. rewrite Hm, Hspec, lookup_empty. by destruct (last _).
Qed.

Lemma get_params_of_type_loop_filter (param_type : string) (w : World) (ps : list string) :
  bound_by_name w ps →
  ∀ result,
    get_params_of_type_loop type_name param_type ps result w
    = (Ret (result ++ filter (λ n, has_type type_name w param_type n = true) ps), w).
Proof.
  induction 1 as [|n ps (p & Hp & Hn) _ IH]; intros result.
  - simpl. by rewrite filter_nil, app_nil_r.
  - cbn [get_params_of_type_loop]. unfold bind at 1, getattr_param at 1. rewrite Hp.
    rewrite IH, filter_cons.
    assert (Hq : has_type type_name w param_type n
                 = bool_decide (upper param_type = upper (type_name p))
                   || bool_decide (upper param_type = upper (drop_last_9 (type_name p))))
      by (unfold has_type; by rewrite Hp).
    rewrite Hq, Hn.
    destruct (_ || _).
    + rewrite decide_True by done. by rewrite <- app_assoc.
    + rewrite decide_False by done. done.
Qed.

(** [get_params_of_type] returns the names of [self.params], in order, whose
    parameter is of the class asked for.  The class is given by its name or
    by its name without the last nine characters, in any letter case: a
    parameter of a class [<base>Parameter] is returned for [<base>] and for
    [<base>Parameter].  The model is left as it is. *)
Theorem get_params_of_type_selects_by_class_name
    (self : TimingModel) (param_type : string) (w : World) (names : list string)
    (Hnames : lists w !! params self = Some names)
    (Hbound : bound_by_name w names) :
  get_params_of_type type_name self param_type w
  = (Ret (filter (λ n, has_type type_name w param_type n = true) names), w)
  ∧ (∀ other, upper other = upper param_type →
       get_params_of_type type_name self other w
       = get_params_of_type type_name self param_type w)
  ∧ (∀ n p base, n ∈ names → attrs w !! n = Some p →
       type_name p = base +:+ "Parameter" →
       upper param_type = upper base ∨ upper param_type = upper (type_name p) →
       n ∈ filter (λ n, has_type type_name w param_type n = true) names).
Proof.
  assert (Hrun : ∀ T, get_params_of_type type_name self T w
                      = (Ret (filter (λ n, has_type type_name w T n = true) names), w)).
  { intros T. unfold get_params_of_type, bind, get_list. rewrite Hnames.
    cbn [default]. unfold id. by rewrite get_params_of_type_loop_filter. }
  split; [apply Hrun|]. split.
  - intros other Hother. rewrite !Hrun. f_equal. f_equal. apply list_filter_iff.
    intros n. unfold has_type. by rewrite Hother.
  - intros n p base Hin Hp Hbase Hmatch. apply list_elem_of_filter. split; [|done].
    unfold has_type. rewrite Hp. apply orb_true_iff.
    destruct Hmatch as [Hm|Hm].
    + right. apply bool_decide_eq_true_2. by rewrite Hbase, drop_last_9_Parameter.
    + left. by apply bool_decide_eq_true_2.
Qed.

(** ** [__str__], [as_parfile] and [param_help] *)

Lemma string_app_cons (x : ascii) (a b : string) :
  String x a +:+ b = String x (a +:+ b).
Proof. reflexivity. Qed.

Lemma string_app_assoc (a b c : string) : (a +:+ b) +:+ c = a +:+ (b +:+ c).
Proof. induction a as [|x a IH]; [done|]. rewrite !string_app_cons. by rewrite IH. Qed.

Lemma string_app_nil_r (a : string) : a +:+ "" = a.
Proof. induction a as [|x a IH]; [done|]. by rewrite string_app_cons, IH. Qed.

Lemma str_loop_pieces (ps : list string) (pars : list (ParameterObj num)) (w : World)
    (piece : ParameterObj num → string) :
  Forall2 (λ n p, attrs w !! n = Some p) ps pars →
  ∀ result,
    str_loop piece ps result w
    = (Ret (result +:+ foldr (λ p acc, piece p +:+ nl +:+ acc) "" pars), w).
Proof.
  induction 1 as [|n p ps pars Hp _ IH]; intros result; cbn [str_loop foldr].
  - unfold ret. by rewrite string_app_nil_r.
  - unfold bind, getattr_param. rewrite Hp, IH. by rewrite !string_app_assoc.
Qed.

Lemma as_parfile_loop_pieces (ps : list string) (pars : list (ParameterObj num))
    (w : World) (piece : ParameterObj num → string) :
  Forall2 (λ n p, attrs w !! n = Some p) ps pars →
  ∀ result,
    as_parfile_loop piece ps result w
    = (Ret (result +:+ foldr (λ p acc, piece p +:+ acc) "" pars), w).
Proof.
  induction 1 as [|n p ps pars Hp _ IH]; intros result; cbn [as_parfile_loop foldr].
  - unfold ret. by rewrite string_app_nil_r.
  - unfold bind, getattr_param. rewrite Hp, IH. by rewrite !string_app_assoc.
Qed.

Lemma param_help_loop_pieces (ps : list string) (pars : list (ParameterObj num))
    (w : World) (piece : ParameterObj num → string) :
  Forall2 (λ n p, attrs w !! n = Some p) ps pars →
  ∀ result,
    param_help_loop piece ps result w
    = (Ret (result +:+ foldr (λ p acc, piece p +:+ nl +:+ acc) "" pars), w).
Proof.
  induction 1 as [|n p ps pars Hp _ IH]; intros result; cbn [param_help_loop foldr].
  - unfold ret. by rewrite string_app_nil_r.
  - unfold bind, getattr_param. rewrite Hp, IH. by rewrite !string_app_assoc.
Qed.

(** The listings of a model whose names are bound to the parameters [pars]:
    [__str__] gives one line per entry of [self.params], in order;
    [as_parfile] gives the parfile lines of the parameters in that order,
    then always the line [UNITS TDB], then a [BINARY] line when, and only
    when, the model has a [BinaryModelName]; [param_help] gives its heading
    and one help line per entry.  All three leave the model as it is. *)
Theorem listings_follow_the_parameter_list
    (self : TimingModel) (w : World) (names : list string)
    (pars : list (ParameterObj num))
    (param_str as_parfile_line help_line : ParameterObj num → string)
    (class_repr : string)
    (Hnames : lists w !! params self = Some names)
    (Hbound : Forall2 (λ n p, attrs w !! n = Some p) names pars) :
  __str__ param_str self w
  = (Ret (foldr (λ p acc, param_str p +:+ nl +:+ acc) "" pars), w)
  ∧ as_parfile as_parfile_line self w
    = (Ret (foldr (λ p acc, as_parfile_line p +:+ acc) "" pars
            +:+ "UNITS TDB" +:+ nl
            +:+ match BinaryModelName self with
                | Some b => "BINARY " +:+ b +:+ nl
                | None => ""
                end), w)
  ∧ param_help help_line class_repr self w
    = (Ret ("Available parameters for " +:+ class_repr +:+ nl
            +:+ foldr (λ p acc, help_line p +:+ nl +:+ acc) "" pars), w).
Proof.
  split; [|split].
  - unfold __str__, bind, get_list. rewrite Hnames. cbn [default]. unfold id.
    by rewrite (str_loop_pieces names pars).
  - unfold as_parfile, as_parfile_over, bind, get_list. rewrite Hnames.
    cbn [default]. unfold id. rewrite (as_parfile_loop_pieces names pars) by done.
    cbn [String.append]. destruct (BinaryModelName self); unfold ret.
    + by rewrite !string_app_assoc.
    + by rewrite !string_app_assoc, string_app_nil_r.
  - unfold param_help, bind, get_list. rewrite Hnames. cbn [default]. unfold id.
    rewrite (param_help_loop_pieces names pars) by done.
    by rewrite !string_app_assoc.
Qed.
End LookupFacts.

(** ** The shape of [delay] and [get_barycentric_toas] *)

Section DelayShape.
Context {num val TOA unit_t : Type} `{Numeric num} `{PhaseOps num}.
Local Abbreviation World := (World num val TOA).
Local Abbreviation Comp := (Comp num val TOA).
Local Abbreviation TimingModel := (@TimingModel num val TOA unit_t).
Variable tdbld : TOA → num.
Variable day_minus_second : num → num → num.

Lemma iadd_length (acc v : list num) (x : ndarray num) :
  iadd acc x = Ret v → length v = length acc.
Proof.
  unfold iadd. destruct (broadcast_to (length acc) x) as [b|] eqn:Hb; [|done].
  intros [= <-]. apply length_zip_with_l_eq. symmetry. by eapply broadcast_to_length.
Qed.

Lemma iadd_fits (acc : list num) (x : ndarray num) :
  is_ret (broadcast_to (length acc) x) = true → ∃ v, iadd acc x = Ret v.
Proof.
  unfold iadd. destruct (broadcast_to (length acc) x) as [b|]; [|done]. by eexists.
Qed.

(** The loop over one level keeps the length of the running total, and
    returns when its functions fit. *)
Lemma delay_level_length (lvl : string)
    (dfs : list (list TOA → outcome (ndarray num))) (toas : list TOA) :
  ∀ i acc (w w' : World) d,
    delay_level lvl i dfs toas acc w = (Ret d, w') → length d = length acc.
Proof.
  induction dfs as [|df dfs IH]; intros i acc w w' d; simpl.
  - by intros [= <- _].
  - unfold bind at 1, emit at 1. unfold bind at 1, lift at 1.
    destruct (df toas) as [x|]; [|done].
    unfold bind at 1, lift at 1.
    destruct (iadd acc x) as [v|] eqn:Hadd; [|done].
    unfold bind at 1, emit at 1. intros Hrun%IH.
    rewrite Hrun. by eapply iadd_length.
Qed.

Lemma delay_level_fits (lvl : string)
    (dfs : list (list TOA → outcome (ndarray num))) (toas : list TOA) :
  Forall (delay_func_fits toas) dfs →
  ∀ i acc (w : World), length acc = length toas →
    ∃ d w', delay_level lvl i dfs toas acc w = (Ret d, w') ∧ length d = length toas.
Proof.
  induction 1 as [|df dfs (x & Hdf & Hfit) _ IH]; intros i acc w Hlen; simpl.
  - by eexists _, _.
  - unfold bind at 1, emit at 1. unfold bind at 1, lift at 1. rewrite Hdf.
    unfold bind at 1, lift at 1. rewrite <- Hlen in Hfit.
    destruct (iadd_fits acc x Hfit) as [v Hv]. rewrite Hv.
    unfold bind at 1, emit at 1. apply IH.
    apply iadd_length in Hv. by rewrite Hv.
Qed.

Lemma dict_get_elem_of {A} (d : list (string * A)) (k : string) :
  k ∈ map fst d → ∃ v, dict_get d k = Some v ∧ (k, v) ∈ d.
Proof.
  induction d as [|[k' v'] d IH]; simpl; [by intros ?%elem_of_nil|].
  case_decide as Hk.
  - intros _. subst k'. exists v'. split; [done|apply list_elem_of_here].
  - intros [?|Hin]%elem_of_cons; [done|].
    destruct (IH Hin) as (v & Hv & Hel). exists v. split; [done|].
    by apply list_elem_of_further.
Qed.

Lemma delay_levels_length (self : TimingModel) (toas : list TOA) (keys : list string) :
  ∀ acc (w w' : World) d,
    delay_levels self keys toas acc w = (Ret d, w') → length d = length acc.
Proof.
  induction keys as [|k keys IH]; intros acc w w' d; simpl.
  - by intros [= <- _].
  - destruct (dict_get (delay_funcs self) k) as [dfs|]; [|done].
    unfold bind at 1.
    destruct (delay_level k 0 dfs toas acc w) as [[d1|] w1] eqn:Hlvl; [|done].
    intros Hrun%IH. rewrite Hrun. by eapply delay_level_length.
Qed.

Lemma delay_levels_fits (self : TimingModel) (toas : list TOA) (keys : list string) :
  delay_funcs_fit self toas →
  (∀ k, k ∈ keys → k ∈ map fst (delay_funcs self)) →
  ∀ acc (w : World), length acc = length toas →
    ∃ d w', delay_levels self keys toas acc w = (Ret d, w').
Proof.
  intros Hfit. induction keys as [|k keys IH]; intros Hkeys acc w Hlen; simpl.
  - by eexists _, _.
  - destruct (dict_get_elem_of (delay_funcs self) k) as (dfs & -> & Hel).
    { apply Hkeys, list_elem_of_here. }
    unfold delay_funcs_fit in Hfit. rewrite Forall_forall in Hfit.
    specialize (Hfit _ Hel). simpl in Hfit.
    destruct (delay_level_fits k dfs toas Hfit 0 acc w Hlen) as (d1 & w1 & Hrun & Hlen1).
    unfold bind. rewrite Hrun. apply IH; [|done].
    intros k' Hk'. by apply Hkeys, list_elem_of_further.
Qed.

Lemma delay_levels_no_functions (self : TimingModel) (toas : list TOA)
    (keys : list string) :
  Forall (λ kv, kv.2 = []) (delay_funcs self) →
  (∀ k, k ∈ keys → k ∈ map fst (delay_funcs self)) →
  ∀ acc (w : World), delay_levels self keys toas acc w = (Ret acc, w).
Proof.
  intros Hnone. induction keys as [|k keys IH]; intros Hkeys acc w; simpl; [done|].
  destruct (dict_get_elem_of (delay_funcs self) k) as (dfs & -> & Hel).
  { apply Hkeys, list_elem_of_here. }
  rewrite Forall_forall in Hnone. specialize (Hnone _ Hel). simpl in Hnone. subst dfs.
  unfold bind. simpl. apply IH. intros k' Hk'. by apply Hkeys, list_elem_of_further.
Qed.

Lemma use_cache_ret_inv {A} (c : Comp A) (w : World) (r : A) :
  fst (use_cache c w) = Ret r → ∃ w0 w1, c w0 = (Ret r, w1).
Proof.
  unfold use_cache, new_cache. destruct (self_cache w).
  - destruct (c w) as [o w1] eqn:Hc. simpl. intros ->. by eexists _, _.
  - match goal with |- context [c ?w0] => destruct (c w0) as [[r'|e] w2] eqn:Hc end;
      simpl; intros [= <-]. by eexists _, _.
  - match goal with |- context [c ?w0] => destruct (c w0) as [[r'|e] w2] eqn:Hc end;
      simpl; intros [= <-]. by eexists _, _.
  - destruct (c w) as [o w1] eqn:Hc. simpl. intros ->. by eexists _, _.
Qed.

Lemma use_cache_ret_everywhere {A} (c : Comp A) (w : World) (r : A) :
  (∀ w0, ∃ w1, c w0 = (Ret r, w1)) → fst (use_cache c w) = Ret r.
Proof.
  intros Hc. unfold use_cache, new_cache. destruct (self_cache w).
  - by destruct (Hc w) as [w1 ->].
  - match goal with |- context [c ?w0] => by destruct (Hc w0) as [w1 ->] end.
  - match goal with |- context [c ?w0] => by destruct (Hc w0) as [w1 ->] end.
  - by destruct (Hc w) as [w1 ->].
Qed.

(** [delay] returns one value per observation.  Whatever it returns has the
    length of the observations; it does return when every delay function
    returns a 0-d value or an array of length one or of that length (it
    never fails on a key of its own dictionary); and a model without delay
    functions has the delay [zeros(len(toas))]. *)
Theorem delay_has_one_entry_per_observation
    (self : TimingModel) (toas : list TOA) (w : World) :
  (∀ d, fst (delay self toas w) = Ret d → length d = length toas)
  ∧ (delay_funcs_fit self toas → is_ret (fst (delay self toas w)) = true)
  ∧ (Forall (λ kv, kv.2 = []) (delay_funcs self) →
     fst (delay self toas w) = Ret (np_zeros (length toas))).
Proof.
  split; [|split].
  - intros d (w0 & w1 & Hrun)%use_cache_ret_inv.
    unfold invoke, bind, emit in Hrun.
    apply delay_levels_length in Hrun. rewrite Hrun. apply length_replicate.
  - intros Hfit.
    destruct (delay_levels_fits self toas (map fst (delay_funcs self)) Hfit
                (λ k Hk, Hk) (np_zeros (length toas)) w (length_replicate _ _))
      as (d & _ & _).
    assert (Hd : ∃ d, fst (delay self toas w) = Ret d); [|by destruct Hd as [? ->]].
    destruct (delay_traces self toas) as (o & t & Ht & _).
    destruct (Ht w) as [Ho _]. rewrite Ho.
    destruct (delay_levels_fits self toas (map fst (delay_funcs self)) Hfit
                (λ k Hk, Hk) (np_zeros (length toas))
                (set_trace (trace w ++ [Entered "delay"]) (set_self_cache Missing w))
                (length_replicate _ _)) as (d' & w' & Hrun).
    destruct (Ht (set_self_cache Missing w)) as [Ho' _].
    unfold delay in Ho'. rewrite use_cache_missing in Ho' by done.
    unfold invoke, bind, emit in Ho'. cbn [trace set_self_cache] in Ho'.
    rewrite Hrun in Ho'. simpl in Ho'. subst o. by eexists.
  - intros Hnone. unfold delay. apply use_cache_ret_everywhere. intros w0.
    unfold invoke, bind, emit.
    rewrite (delay_levels_no_functions self toas _ Hnone (λ k Hk, Hk)). by eexists.
Qed.

(** [get_barycentric_toas] runs the delay functions of level L1, in order,
    and no other: whatever it returns or raises, the events it appends are
    all of level L1.  When it returns, every L1 function has run and been
    summed, the result has one entry per observation, and it is the observed
    times minus the delay that [delay] gives for a model with these L1
    functions alone.  On a model whose [delay_funcs] has no key [L1] it
    raises [KeyError]. *)
Theorem get_barycentric_toas_runs_level_one_only
    (self : TimingModel) (toas : list TOA) (w : World) :
  let r := get_barycentric_toas tdbld day_minus_second self toas w in
  match dict_get (delay_funcs self) "L1" with
  | None => fst r = Raise (KeyError "L1")
  | Some fs1 =>
      ∃ t, trace (snd r) = trace w ++ Entered "get_barycentric_toas" :: t
           ∧ Forall (λ e, event_level e = Some "L1") t
           ∧ ∀ out, fst r = Ret out →
               t = level_events "L1" 0 (length fs1)
               ∧ length out = length toas
               ∧ ∀ self1 : TimingModel, delay_funcs self1 = [("L1", fs1)] →
                   ∃ d, fst (delay self1 toas w) = Ret d
                        ∧ out = zip_with day_minus_second (map tdbld toas) d
  end.
Proof.
  intros r. subst r. unfold get_barycentric_toas. cbv zeta.
  destruct (dict_get (delay_funcs self) "L1") as [fs1|] eqn:H1.
  - destruct (delay_level_emits (val:=val) "L1" fs1 toas 0 (np_zeros (length toas)))
      as (o & t & He & Hall & Hret).
    set (finish := λ d : list num, zip_with day_minus_second (map tdbld toas) d).
    assert (Ht : traces (use_cache (invoke "get_barycentric_toas"
                   (let! delay0 := delay_level "L1" 0 fs1 toas (np_zeros (length toas)) in
                    ret (finish delay0))) : Comp _)
                   (outcome_map finish o) (Entered "get_barycentric_toas" :: t)).
    { apply traces_use_cache, traces_invoke, emits_traces.
      destruct o as [d|e]; simpl.
      - rewrite <- (app_nil_r t). eapply emits_bind; [done|apply emits_ret].
      - by apply emits_bind_raise. }
    destruct (Ht w) as [Ho Htr]. exists t. split; [done|]. split; [done|].
    intros out Hout. rewrite Ho in Hout.
    destruct o as [d|e]; [|done]. simpl in Hout. injection Hout as <-.
    split; [by apply Hret|].
    pose proof (He w) as Hrun. apply delay_level_length in Hrun.
    unfold np_zeros in Hrun. rewrite length_replicate in Hrun.
    split; [unfold finish; rewrite length_zip_with, length_map, Hrun; lia|].
    intros self1 H1'. exists d. split; [|done].
    assert (Ht1 : traces (delay self1 toas : Comp _) (Ret d) (Entered "delay" :: t)).
    { unfold delay. apply traces_use_cache, traces_invoke, emits_traces.
      rewrite H1'. cbn [map fst delay_levels]. rewrite H1'. cbn [dict_get].
      rewrite decide_True by done. rewrite <- (app_nil_r t).
      eapply emits_bind; [done|apply emits_ret]. }
    by destruct (Ht1 w).
  - assert (Ht : traces (use_cache (invoke "get_barycentric_toas"
                   (raise (KeyError "L1"))) : Comp (list num))
                   (Raise (KeyError "L1")) [Entered "get_barycentric_toas"]).
    { apply traces_use_cache, traces_invoke, emits_traces, emits_raise. }
    by destruct (Ht w).
Qed.
End DelayShape.

(** ** The columns and the units of [designmatrix] *)

Section ColumnFacts.
Context {num val TOA unit_t : Type} `{Numeric num} `{PhaseOps num}.
Local Abbreviation World := (World num val TOA).
Local Abbreviation Comp := (Comp num val TOA).
Local Abbreviation TimingModel := (@TimingModel num val TOA unit_t).
Variable u_dimensionless : unit_t.
Variable u_over_F0 : unit_t → unit_t.

Lemma column_zip_insert_at (ii m : nat) (rs : list (list num)) (col : list num) :
  ii < m → Forall (λ row, length row = m) rs → length col = length rs →
  map (λ row, row !! ii) (zip_with (λ row c, <[ii := c]> row) rs col) = map Some col.
Proof.
  intros Hlt Hall. revert col.
  induction Hall as [|r rs Hr _ IH]; intros [|c col] Hlen; simpl in *; try done.
  rewrite list_lookup_insert_eq by lia. f_equal. apply IH. lia.
Qed.

(** [M[:,ii] = x] with a value that fits: the column [ii] holds the value,
    broadcast; the shape and the other columns stay. *)
Lemma set_column_column (ii n m : nat) (x : ndarray num) (col : list num) (M : matrix num) :
  wf_matrix n m M → broadcast_to n x = Ret col → ii < m →
  ∃ M', set_column ii x M = Ret M'
        ∧ wf_matrix n m M'
        ∧ (∀ j, j ≠ ii → column j M' = column j M)
        ∧ column ii M' = map Some col.
Proof.
  intros Hwf Hb Hlt.
  destruct (set_column_fits ii n m x M Hwf) as (M' & Hset & Hwf' & Hother & _).
  { by rewrite Hb. }
  exists M'. split; [done|]. split; [done|]. split; [done|].
  destruct Hwf as (Hn & Hm & Hlen & Hall). unfold set_column in Hset.
  rewrite Hn, Hb in Hset. injection Hset as <-. unfold column. simpl.
  apply (column_zip_insert_at ii m); [done..|].
  apply broadcast_to_length in Hb. lia.
Qed.

(** One iteration of the loop of [designmatrix]. *)
Lemma fill_column_step (self : TimingModel) (toas : list TOA) (F0 : num)
    (m ii : nat) (param : string) (M : matrix num) (us : list unit_t) :
  wf_matrix (length toas) m M → column_ok self toas param = true → ii < m →
  ∃ M1,
    emits ((if decide (param = "Offset") then
              let! M' := lift (set_column ii (Scalar one) M) in
              ret (M', us ++ [u_dimensionless])
            else
              match methods self ("d_phase_d_" +:+ param) with
              | Some f =>
                  let! q0 := lift (f toas) in
                  let q := mkQuantity (ndarray_div (qval q0) F0) (u_over_F0 (qunit q0)) in
                  let! M' := lift (set_column ii (qval q) M) in
                  ret (M', us ++ [qunit q])
              | None =>
                  match methods self ("d_delay_d_" +:+ param) with
                  | Some g =>
                      let! q := lift (g toas) in
                      let! M' := lift (set_column ii (qval q) M) in
                      ret (M', us ++ [qunit q])
                  | None => ret (M, us)
                  end
              end) : Comp _)
      (Ret (M1, us ++ option_list (column_unit u_dimensionless u_over_F0 self toas param))) []
    ∧ wf_matrix (length toas) m M1
    ∧ (∀ j, j ≠ ii → column j M1 = column j M)
    ∧ match column_value self toas F0 param with
      | Some x => ∃ col, broadcast_to (length toas) x = Ret col
                         ∧ column ii M1 = map Some col
      | None => column ii M1 = column ii M
      end.
Proof.
  intros Hwf Hok Hlt. unfold column_ok in Hok. unfold column_value, column_unit.
  destruct (decide (param = "Offset")) as [->|Hne].
  - destruct (set_column_column ii _ m (Scalar one) _ M Hwf eq_refl Hlt)
      as (M1 & Hset & Hwf1 & Hother & Hcol).
    exists M1. rewrite Hset. split; [|split; [done|split; [done|]]].
    + eapply emits_bind_nil; [apply emits_lift|apply emits_ret].
    + by eexists.
  - destruct (methods self ("d_phase_d_" +:+ param)) as [f|].
    + destruct (f toas) as [q0|] eqn:Hf; [|done].
      rewrite <- (broadcast_to_div _ _ F0) in Hok.
      destruct (broadcast_to (length toas) (ndarray_div (qval q0) F0)) as [col|] eqn:Hb;
        [|done].
      destruct (set_column_column ii _ m _ col M Hwf Hb Hlt)
        as (M1 & Hset & Hwf1 & Hother & Hcol).
      exists M1. split; [|split; [done|split; [done|]]].
      * eapply emits_bind_nil; [apply emits_lift|]. cbn [qval qunit]. rewrite Hset.
        eapply emits_bind_nil; [apply emits_lift|apply emits_ret].
      * by eexists.
    + destruct (methods self ("d_delay_d_" +:+ param)) as [g|].
      * destruct (g toas) as [q|] eqn:Hg; [|done].
        destruct (broadcast_to (length toas) (qval q)) as [col|] eqn:Hb; [|done].
        destruct (set_column_column ii _ m _ col M Hwf Hb Hlt)
          as (M1 & Hset & Hwf1 & Hother & Hcol).
        exists M1. split; [|split; [done|split; [done|]]].
        -- eapply emits_bind_nil; [apply emits_lift|]. rewrite Hset.
           eapply emits_bind_nil; [apply emits_lift|apply emits_ret].
        -- by eexists.
      * exists M. simpl. rewrite app_nil_r. split; [apply emits_ret|]. done.
Qed.

(** The loop of [designmatrix]: column by column, the value of the
    parameter's derivative function, and one unit for each column that has
    one. *)
Lemma fill_columns_columns (self : TimingModel) (toas : list TOA) (F0 : num) (m : nat) :
  ∀ ps ii M us,
    wf_matrix (length toas) m M →
    Forall (λ p, column_ok self toas p = true) ps →
    ii + length ps ≤ m →
    ∃ M',
      emits (fill_columns u_dimensionless u_over_F0 self toas F0 ii ps M us : Comp _)
        (Ret (M', us ++ omap (column_unit u_dimensionless u_over_F0 self toas) ps)) []
      ∧ wf_matrix (length toas) m M'
      ∧ (∀ j, j < ii → column j M' = column j M)
      ∧ (∀ k p, ps !! k = Some p →
           match column_value self toas F0 p with
           | Some x => ∃ col, broadcast_to (length toas) x = Ret col
                              ∧ column (ii + k) M' = map Some col
           | None => column (ii + k) M' = column (ii + k) M
           end).
Proof.
  induction ps as [|param ps IH]; intros ii M us Hwf Hok Hlen.
  - exists M. simpl. rewrite app_nil_r. split; [apply emits_ret|].
    split; [done|]. split; [done|]. intros k p Hk. by rewrite lookup_nil in Hk.
  - apply Forall_cons in Hok as [Hp Hok]. simpl in Hlen.
    destruct (fill_column_step self toas F0 m ii param M us Hwf Hp)
      as (M1 & He1 & Hwf1 & Hother1 & Hcol1); [lia|].
    destruct (IH (S ii) M1
                (us ++ option_list (column_unit u_dimensionless u_over_F0 self toas param))
                Hwf1 Hok) as (M' & He & Hwf' & Hbefore & Hcols); [lia|].
    exists M'. split.
    { assert (Hus : us ++ omap (column_unit u_dimensionless u_over_F0 self toas) (param :: ps)
                    = (us ++ option_list (column_unit u_dimensionless u_over_F0 self toas param))
                      ++ omap (column_unit u_dimensionless u_over_F0 self toas) ps).
      { rewrite <- app_assoc. f_equal. cbn [omap list_omap].
        by destruct (column_unit u_dimensionless u_over_F0 self toas param). }
      rewrite Hus. cbn [fill_columns].
      eapply emits_bind_nil; [exact He1|exact He]. }
    split; [done|]. split.
    + intros j Hj. rewrite Hbefore by lia. apply Hother1. lia.
    + intros [|k] p Hk; simpl in Hk.
      * injection Hk as <-. rewrite Nat.add_0_r, Hbefore by lia.
        destruct (column_value self toas F0 param); done.
      * specialize (Hcols k p Hk).
        replace (ii + S k) with (S ii + k) by lia.
        destruct (column_value self toas F0 p); [done|].
        rewrite Hcols. apply Hother1. lia.
Qed.

(** [designmatrix] under the conditions under which it returns: its matrix
    column by column, and the units it returns. *)
Lemma designmatrix_returns_columns (self : TimingModel) (toas : list TOA) (w : World)
    (names : list string) (pF0 : ParameterObj num) (f0 : num)
    (incfrozen incoffset : bool) :
  lists w !! params self = Some names →
  (incfrozen = false → Forall (λ par, is_Some (attrs w !! par)) names) →
  attrs w !! "F0" = Some pF0 →
  value pF0 = PVNum f0 →
  is_ret (fst (delay self toas w)) = true →
  Forall (λ p, column_ok self toas p = true)
    (requested_columns w names incfrozen incoffset) →
  ∃ M w',
    designmatrix u_dimensionless u_over_F0 self toas incfrozen incoffset w
    = (Ret (M, requested_columns w names incfrozen incoffset,
            omap (column_unit u_dimensionless u_over_F0 self toas)
              (requested_columns w names incfrozen incoffset)), w')
    ∧ ∀ j p, requested_columns w names incfrozen incoffset !! j = Some p →
        match column_value self toas f0 p with
        | Some x => ∃ col, broadcast_to (length toas) x = Ret col
                           ∧ column j M = map Some col
        | None => column j M = replicate (length toas) (Some zero)
        end.
Proof.
  intros Hnames Hbound HF0 HF0v Hdelay Hcols.
  set (cols := requested_columns w names incfrozen incoffset) in *.
  destruct (fill_columns_columns self toas f0 (length cols) cols 0
              (np_zeros2 (length toas) (length cols)) [] (np_zeros2_wf _ _) Hcols)
    as (M & Hfill & Hwf & _ & Hcol); [done|].
  destruct (delay_traces self toas) as (o & td & Htd & _).
  destruct (Htd w) as [Ho _]. rewrite Ho in Hdelay.
  destruct o as [d|]; [|done].
  assert (Hdm : ∃ w', designmatrix u_dimensionless u_over_F0 self toas incfrozen incoffset w
                      = (Ret (M, cols, omap (column_unit u_dimensionless u_over_F0 self toas)
                                         cols), w')).
  { unfold designmatrix. apply use_cache_returns. intros w1 Hl Ha.
    unfold invoke. unfold bind at 1, emit at 1.
    set (w1' := set_trace _ w1).
    assert (Hl' : lists w1' = lists w) by done.
    assert (Ha' : attrs w1' = attrs w) by done.
    unfold bind at 1, get_list at 1. rewrite Hl', Hnames. cbn [default]. unfold id.
    unfold bind at 1. rewrite select_params_eval by (rewrite Ha'; done).
    rewrite (free_params_attrs w1' w names Ha').
    fold (requested_columns w names incfrozen incoffset). fold cols.
    unfold bind at 1, F0_value at 1, bind at 1, getattr_param at 1.
    rewrite Ha', HF0, HF0v. unfold ret at 1.
    unfold bind at 1. destruct (Htd w1') as [Ho1 _].
    destruct (delay self toas w1') as [o1 w2]. simpl in Ho1. subst o1.
    unfold bind. rewrite Hfill. unfold ret. simpl. by eexists. }
  destruct Hdm as [w' Hdm]. exists M, w'. split; [done|].
  intros j p Hj. specialize (Hcol j p Hj). simpl in Hcol.
  destruct (column_value self toas f0 p); [done|].
  rewrite Hcol. apply np_zeros2_column. by eapply lookup_lt_Some.
Qed.

Lemma length_omap_le {A B} (f : A → option B) (l : list A) :
  length (omap f l) ≤ length l.
Proof. induction l as [|x l IH]; csimpl; [done|]. destruct (f x); simpl; lia. Qed.

Lemma length_omap_lt {A B} (f : A → option B) (l : list A) (x : A) :
  x ∈ l → f x = None → length (omap f l) < length l.
Proof.
  induction l as [|y l IH]; [by intros ?%elem_of_nil|].
  intros [->|Hin]%elem_of_cons Hx; csimpl.
  - rewrite Hx. pose proof (length_omap_le f l). simpl. lia.
  - specialize (IH Hin Hx). destruct (f y); simpl; lia.
Qed.

(** The columns of the design matrix.  Under the conditions under which
    [designmatrix] returns, the column of each returned name holds: ones for
    the offset; else [d_phase_d_<p>(toas) / F0] when the model has that
    function, also when it has [d_delay_d_<p>] too; else [d_delay_d_<p>(toas)],
    not divided by [F0]; else zeros.  A 0-d value or an array of length one
    fills the column. *)
Theorem designmatrix_columns_hold_derivatives
    (self : TimingModel) (toas : list TOA) (w : World)
    (names : list string) (pF0 : ParameterObj num) (f0 : num)
    (incfrozen incoffset : bool)
    (Hnames : lists w !! params self = Some names)
    (Hbound : Forall (λ par, is_Some (attrs w !! par)) names)
    (HF0 : attrs w !! "F0" = Some pF0)
    (HF0v : value pF0 = PVNum f0)
    (Hdelay : is_ret (fst (delay self toas w)) = true)
    (Hcols : Forall (λ p, column_ok self toas p = true)
               (requested_columns w names incfrozen incoffset)) :
  ∃ M us w',
    designmatrix u_dimensionless u_over_F0 self toas incfrozen incoffset w
    = (Ret (M, requested_columns w names incfrozen incoffset, us), w')
    ∧ ∀ j p, requested_columns w names incfrozen incoffset !! j = Some p →
        match column_value self toas f0 p with
        | Some x => ∃ col, broadcast_to (length toas) x = Ret col
                           ∧ column j M = map Some col
        | None => column j M = replicate (length toas) (Some zero)
        end.
Proof.
  destruct (designmatrix_returns_columns self toas w names pF0 f0 incfrozen incoffset)
    as (M & w' & Hdm & Hcol); try done.
  by eexists M, _, w'.
Qed.

(** The units of the design matrix.  [designmatrix] appends a unit only for
    a column that has a derivative function (or is the offset): the list of
    units is in the order of the columns but skips the others, so it is
    never longer than the list of names, and it is shorter, its entries no
    longer aligned with the columns, as soon as one requested parameter has
    no derivative function. *)
Theorem designmatrix_units_skip_columns
    (self : TimingModel) (toas : list TOA) (w : World)
    (names : list string) (pF0 : ParameterObj num) (f0 : num)
    (incfrozen incoffset : bool)
    (Hnames : lists w !! params self = Some names)
    (Hbound : Forall (λ par, is_Some (attrs w !! par)) names)
    (HF0 : attrs w !! "F0" = Some pF0)
    (HF0v : value pF0 = PVNum f0)
    (Hdelay : is_ret (fst (delay self toas w)) = true)
    (Hcols : Forall (λ p, column_ok self toas p = true)
               (requested_columns w names incfrozen incoffset)) :
  ∃ M us w',
    designmatrix u_dimensionless u_over_F0 self toas incfrozen incoffset w
    = (Ret (M, requested_columns w names incfrozen incoffset, us), w')
    ∧ us = omap (column_unit u_dimensionless u_over_F0 self toas)
             (requested_columns w names incfrozen incoffset)
    ∧ length us ≤ length (requested_columns w names incfrozen incoffset)
    ∧ ∀ p, p ∈ requested_columns w names incfrozen incoffset →
           no_derivative_path self p →
           length us < length (requested_columns w names incfrozen incoffset).
Proof.
  destruct (designmatrix_returns_columns self toas w names pF0 f0 incfrozen incoffset)
    as (M & w' & Hdm & _); try done.
  eexists M, _, w'. split; [done|]. split; [done|].
  split; [apply length_omap_le|].
  intros p Hin (Hne & Hdp & Hdd). eapply length_omap_lt; [done|].
  unfold column_unit. rewrite decide_False by done. by rewrite Hdp, Hdd.
Qed.

Lemma use_cache_raises {A} (c : Comp A) (w : World) (e : exn)
    (t : list (event num TOA)) :
  (∀ w1, lists w1 = lists w → attrs w1 = attrs w → c w1 = (Raise e, extend t w1)) →
  fst (use_cache c w) = Raise e ∧ trace (snd (use_cache c w)) = trace w ++ t.
Proof.
  intros Hc. unfold use_cache, new_cache. destruct (self_cache w).
  - by rewrite Hc.
  - match goal with |- context [c ?w0] => by rewrite (Hc w0) end.
  - match goal with |- context [c ?w0] => by rewrite (Hc w0) end.
  - by rewrite Hc.
Qed.

(** [designmatrix] reads [self.F0] whatever columns are asked for.  On a
    model that has no parameter [F0] it raises [AttributeError], and it does
    so before [delay] is called: no delay function has run. *)
Theorem designmatrix_needs_F0
    (self : TimingModel) (toas : list TOA) (w : World) (names : list string)
    (incfrozen incoffset : bool)
    (Hnames : lists w !! params self = Some names)
    (Hbound : incfrozen = false → Forall (λ par, is_Some (attrs w !! par)) names)
    (HF0 : attrs w !! "F0" = None) :
  let r := designmatrix u_dimensionless u_over_F0 self toas incfrozen incoffset w in
  fst r = Raise (AttributeError "F0")
  ∧ trace (snd r) = trace w ++ [Entered "designmatrix"].
Proof.
  unfold designmatrix. apply use_cache_raises. intros w1 Hl Ha.
  unfold invoke. unfold bind at 1, emit at 1.
  fold (extend [Entered "designmatrix"] w1).
  set (w1' := extend _ w1).
  assert (Hl' : lists w1' = lists w) by done.
  assert (Ha' : attrs w1' = attrs w) by done.
  unfold bind at 1, get_list at 1. rewrite Hl', Hnames. cbn [default]. unfold id.
  unfold bind at 1. rewrite select_params_eval by (rewrite Ha'; done).
  unfold bind at 1, F0_value at 1, bind at 1, getattr_param at 1.
  by rewrite Ha', HF0.
Qed.
End ColumnFacts.

(** ** The strings of [read_parfile] *)

Lemma no_blank_app (a b : string) :
  no_blank (a +:+ b) = no_blank a && no_blank b.
Proof.
  induction a as [|c a IH]; [done|].
  rewrite string_app_cons. cbn [no_blank]. rewrite IH. by rewrite andb_assoc.
Qed.

Lemma split_from_app_token (k s cur : string) :
  no_blank k = true → split_from cur (k +:+ s) = split_from (cur +:+ k) s.
Proof.
  revert cur. induction k as [|c k IH]; intros cur Hk.
  - by rewrite string_app_nil_r.
  - cbn [no_blank] in Hk. apply andb_true_iff in Hk as [Hc Hk].
    apply negb_true_iff in Hc. rewrite string_app_cons. cbn [split_from]. rewrite Hc.
    rewrite IH by done. by rewrite string_app_assoc.
Qed.

Lemma split_from_cur (s cur : string) :
  cur ≠ "" → ∃ k ks, split_from cur s = k :: ks.
Proof.
  revert cur. induction s as [|c s IH]; intros cur Hcur; cbn [split_from].
  - rewrite decide_False by done. by eexists _, _.
  - destruct (is_space c).
    + rewrite decide_False by done. by eexists _, _.
    + apply IH. by destruct cur.
Qed.

(** What [split] returns are tokens. *)
Lemma split_from_tokens (s cur : string) :
  no_blank cur = true → Forall (λ k, is_token k = true) (split_from cur s).
Proof.
  revert cur. induction s as [|c s IH]; intros cur Hcur; cbn [split_from].
  - case_decide as Hc; [constructor|]. repeat constructor.
    unfold is_token. by rewrite (bool_decide_eq_false_2 _ Hc), Hcur.
  - destruct (is_space c) eqn:Hsp.
    + case_decide as Hc; [by apply IH|]. constructor; [|by apply IH].
      unfold is_token. by rewrite (bool_decide_eq_false_2 _ Hc), Hcur.
    + apply IH. rewrite no_blank_app, Hcur. cbn [no_blank]. by rewrite Hsp.
Qed.

Lemma is_token_inv (k : string) : is_token k = true → k ≠ "" ∧ no_blank k = true.
Proof.
  unfold is_token. intros [Hne Hnb]%andb_true_iff. split; [|done].
  apply negb_true_iff in Hne. by apply bool_decide_eq_false_1 in Hne.
Qed.

(** Joining tokens with one space and splitting again gives the tokens. *)
Lemma split_join (ks : list string) :
  Forall (λ k, is_token k = true) ks → split (join " " ks) = ks.
Proof.
  unfold split, join. induction 1 as [|k ks Hk Hks IH]; [done|].
  apply is_token_inv in Hk as [Hne Hnb].
  destruct ks as [|k' ks].
  - cbn [String.concat]. rewrite <- (string_app_nil_r k) at 1.
    rewrite split_from_app_token by done. cbn [split_from].
    change ("" +:+ k) with k. by rewrite decide_False.
  - change (String.concat " " (k :: k' :: ks))
      with (k +:+ String " " (String.concat " " (k' :: ks))).
    rewrite split_from_app_token by done. cbn [split_from].
    change (is_space " ") with true. cbv iota. change ("" +:+ k) with k.
    rewrite decide_False by done. by rewrite IH.
Qed.

Lemma is_digit_not_space (c : ascii) : is_digit c = true → is_space c = false.
Proof.
  unfold is_digit, is_space. intros [H1 H2]%andb_true_iff.
  apply Nat.leb_le in H1, H2. apply orb_false_iff. split.
  - apply Nat.eqb_neq. lia.
  - apply andb_false_iff. right. apply Nat.leb_gt. lia.
Qed.

Lemma all_digits_no_blank (s : string) : all_digits s = true → no_blank s = true.
Proof.
  induction s as [|c s IH]; [done|]. cbn [all_digits no_blank].
  intros [Hc Hs]%andb_true_iff. by rewrite (is_digit_not_space _ Hc), IH.
Qed.

Lemma pretty_N_char_digit (x : N) : is_digit (pretty_N_char x) = true.
Proof. unfold pretty_N_char. repeat case_match; reflexivity. Qed.

Lemma pretty_N_go_digits (x : N) :
  ∀ s, all_digits s = true → all_digits (pretty_N_go x s) = true.
Proof.
  induction (N.lt_wf_0 x) as [x _ IH]. intros s Hs.
  destruct (decide (0 < x)%N) as [Hx|Hx].
  - rewrite pretty_N_go_step by done. apply IH.
    + by apply N.div_lt.
    + cbn [all_digits]. by rewrite pretty_N_char_digit.
  - assert (x = 0%N) as -> by lia. by rewrite pretty_N_go_0.
Qed.

Lemma pretty_N_go_nonempty (x : N) :
  ∀ s, s ≠ "" → pretty_N_go x s ≠ "".
Proof.
  induction (N.lt_wf_0 x) as [x _ IH]. intros s Hs.
  destruct (decide (0 < x)%N) as [Hx|Hx].
  - rewrite pretty_N_go_step by done. apply IH; [by apply N.div_lt|done].
  - assert (x = 0%N) as -> by lia. by rewrite pretty_N_go_0.
Qed.

(** [str(n)] is a token made of digits. *)
Lemma str_digits (n : nat) : all_digits (str n) = true ∧ str n ≠ "".
Proof.
  unfold str, pretty, pretty_nat, pretty, pretty_N.
  case_decide as Hn; [done|]. split.
  - by apply pretty_N_go_digits.
  - rewrite pretty_N_go_step by lia. by apply pretty_N_go_nonempty.
Qed.

Lemma str_token (n : nat) : is_token (str n) = true.
Proof.
  destruct (str_digits n) as [Hd Hne]. unfold is_token.
  by rewrite (bool_decide_eq_false_2 _ Hne), (all_digits_no_blank _ Hd).
Qed.

Lemma is_token_app (a b : string) :
  is_token a = true → is_token b = true → is_token (a +:+ b) = true.
Proof.
  intros [Ha Hna]%is_token_inv [Hb Hnb]%is_token_inv. unfold is_token.
  rewrite no_blank_app, Hna, Hnb. rewrite bool_decide_eq_false_2; [done|].
  by destruct a.
Qed.

Lemma split_tokens (l : string) : Forall (λ k, is_token k = true) (split l).
Proof. by apply split_from_tokens. Qed.

Lemma split_suffix_first (l : string) (n : nat) (k0 : string) (krest : list string) :
  split l = k0 :: krest →
  split (join " " ((k0 +:+ str n) :: krest)) = (k0 +:+ str n) :: krest.
Proof.
  intros Hsplit. pose proof (split_tokens l) as Htok.
  rewrite Hsplit in Htok. apply Forall_cons in Htok as [Hk0 Hrest].
  apply split_join. constructor; [|done]. apply is_token_app; [done|apply str_token].
Qed.

(** The tokens of a line survive [' '.join(k)] and a second [split()], also
    when the first token got a counter appended: what [read_parfile] hands on
    as the first token of a repeated line is [k[0] + str(n)]. *)
Theorem split_join_round_trip (l : string) (n : nat) :
  split (join " " (split l)) = split l
  ∧ ∀ k0 krest, split l = k0 :: krest →
      split (suffix_first l n) = (k0 +:+ str n) :: krest.
Proof.
  split; [apply split_join, split_tokens|].
  intros k0 krest Hsplit. unfold suffix_first. rewrite Hsplit.
  by eapply split_suffix_first.
Qed.

Lemma digit_suffixes_spec (s k t : string) :
  k +:+ t = s → t ≠ "" → all_digits t = true → t ∈ digit_suffixes s.
Proof.
  revert k. induction s as [|c s IH]; intros k Hs Ht Hd.
  - destruct k; [|done]. change ("" +:+ t) with t in Hs. done.
  - cbn [digit_suffixes]. apply elem_of_app. destruct k as [|c' k].
    + left. change ("" +:+ t) with t in Hs. subst t. rewrite Hd. apply list_elem_of_here.
    + right. rewrite string_app_cons in Hs. injection Hs as _ Hs. by eapply IH.
Qed.

(** A name with a counter of two or more appended is none of the names of
    [ignore_params]. *)
Lemma suffixed_not_ignored (k0 : string) (n : nat) :
  2 ≤ n → k0 +:+ str n ∉ ignore_params.
Proof.
  intros Hn Hin. destruct (str_digits n) as [Hd Hne].
  assert (Hzero : str n = "0").
  { unfold ignore_params in Hin.
    repeat (apply elem_of_cons in Hin as [Hin|Hin];
            [pose proof (digit_suffixes_spec _ _ _ Hin Hne Hd) as Hs;
             vm_compute in Hs;
             first [ by apply elem_of_nil in Hs
                   | by apply list_elem_of_singleton in Hs ]|]).
    by apply elem_of_nil in Hin. }
  change "0" with (str 0) in Hzero. apply (inj pretty) in Hzero. lia.
Qed.

Lemma rev_app_app (s t : string) : String.rev_app s t = String.rev s +:+ t.
Proof.
  unfold String.rev. revert t. induction s as [|c s IH]; intros t; [done|].
  cbn [String.rev_app]. rewrite IH, (IH (String c "")).
  by rewrite string_app_assoc.
Qed.

Lemma rev_snoc (s : string) (c : ascii) :
  String.rev (s +:+ String c "") = String c (String.rev s).
Proof.
  assert (Hgen : ∀ t, String.rev_app (s +:+ String c "") t
                      = String c (String.rev_app s t)).
  { induction s as [|x s IH]; intros t; [done|].
    rewrite string_app_cons. cbn [String.rev_app]. by rewrite IH. }
  apply Hgen.
Qed.

Lemma lstrip_head (s : string) :
  lstrip s = "" ∨ ∃ c r, lstrip s = String c r ∧ is_space c = false.
Proof.
  induction s as [|c s IH]; [by left|]. cbn [lstrip].
  destruct (is_space c) eqn:Hc; [done|]. right. by eexists _, _.
Qed.

Lemma lstrip_snoc (x : string) (c : ascii) :
  is_space c = false → ∃ y, lstrip (x +:+ String c "") = y +:+ String c "".
Proof.
  intros Hc. induction x as [|a x IH].
  - exists "". change ("" +:+ String c "") with (String c ""). cbn [lstrip]. by rewrite Hc.
  - rewrite string_app_cons. cbn [lstrip]. destruct (is_space a); [done|].
    exists (String a x). by rewrite string_app_cons.
Qed.

(** A stripped line is empty or starts with a character that is no blank. *)
Lemma strip_head (s : string) :
  strip s = "" ∨ ∃ c r, strip s = String c r ∧ is_space c = false.
Proof.
  unfold strip. destruct (lstrip_head s) as [->|(c & r & -> & Hc)]; [by left|].
  right. unfold String.rev at 2. cbn [String.rev_app]. rewrite rev_app_app.
  destruct (lstrip_snoc (String.rev r) c Hc) as [y ->].
  rewrite rev_snoc. by eexists _, _.
Qed.

(** So a stripped line that is not empty has a first token: [k[0]] and
    [l.split()[0]] in [read_parfile] never raise. *)
Lemma split_strip (pl : string) :
  strip pl ≠ "" → ∃ k0 krest, split (strip pl) = k0 :: krest.
Proof.
  intros Hne. destruct (strip_head pl) as [?|(c & r & -> & Hc)]; [done|].
  unfold split. cbn [split_from]. rewrite Hc. by apply split_from_cur.
Qed.

Section ParfileLoop.
Context {num val TOA unit_t : Type}.
Local Abbreviation World := (World num val TOA).
Local Abbreviation Comp := (Comp num val TOA).
Local Abbreviation TimingModel := (@TimingModel num val TOA unit_t).
Variable from_parfile_line : ParameterObj num → string → outcome (bool * ParameterObj num).
Variable split_prefixed_name : string → outcome (string * string * nat).

(** Matching a line against the parameters rebinds names that are bound
    and nothing else: no parameter appears or disappears, and the cache is
    left alone. *)
Lemma offer_line_binds_nothing_new (ps : list string) (l : string) :
  ∀ parsed (w : World) o w',
    offer_line from_parfile_line ps l parsed w = (o, w') →
    self_cache w' = self_cache w ∧ caches w' = caches w
    ∧ ∀ n, is_Some (attrs w' !! n) ↔ is_Some (attrs w !! n).
Proof.
  induction ps as [|par ps IH]; intros parsed w o w' Hrun; simpl in Hrun.
  - by injection Hrun as <- <-.
  - unfold bind at 1, getattr_param at 1 in Hrun.
    destruct (attrs w !! par) as [p|] eqn:Hp; [|by injection Hrun as <- <-].
    unfold bind at 1, lift at 1 in Hrun.
    destruct (from_parfile_line p l) as [[b p']|e]; [|by injection Hrun as <- <-].
    unfold bind at 1, setattr_param at 1 in Hrun.
    apply IH in Hrun as (Hs & Hc & Ha). simpl in *.
    split; [done|]. split; [done|]. intros n. rewrite Ha.
    destruct (decide (n = par)) as [->|Hne].
    + rewrite lookup_insert_eq, Hp. split; by eexists.
    + by rewrite lookup_insert_ne.
Qed.

Lemma report_unrecognized_cache (l : string) (w : World) o w' :
  report_unrecognized split_prefixed_name l w = (o, w') →
  self_cache w' = self_cache w ∧ caches w' = caches w.
Proof.
  unfold report_unrecognized. destruct (split l) as [|tok ?].
  - by intros [= <- <-].
  - destruct (split_prefixed_name tok) as [[[pfx ?] ?]|e]; case_decide;
      by intros [= <- <-].
Qed.

Lemma read_line_binds_nothing_new (self : TimingModel) (st : parfile_state)
    (pl : string) (w w' : World) o :
  read_line from_parfile_line split_prefixed_name self st pl w = (o, w') →
  self_cache w' = self_cache w ∧ caches w' = caches w
  ∧ ∀ n, is_Some (attrs w' !! n) ↔ is_Some (attrs w !! n).
Proof.
  unfold read_line. case_decide; [by intros [= <- <-]|].
  destruct (_ || _); [by intros [= <- <-]|].
  destruct (split (strip pl)) as [|k0 krest]; [by intros [= <- <-]|].
  cbv zeta. unfold bind at 1, emit at 1.
  unfold bind at 1, get_list at 1. unfold bind at 1.
  match goal with |- context [offer_line _ ?ps ?l ?b ?w0] =>
    destruct (offer_line from_parfile_line ps l b w0) as [[parsed|e] w2] eqn:Hoffer end;
    apply offer_line_binds_nothing_new in Hoffer as (Hs & Hc & Ha);
    simpl in Hs, Hc, Ha; [|by intros [= <- <-]].
  unfold bind at 1. destruct parsed.
  - by intros [= <- <-].
  - match goal with |- context [report_unrecognized _ ?l ?w0] =>
      destruct (report_unrecognized split_prefixed_name l w0) as [[[]|e] w3] eqn:Hrep end;
      pose proof Hrep as Hrep2;
      apply report_unrecognized_frame in Hrep as (_ & _ & Ha3);
      apply report_unrecognized_cache in Hrep2 as (Hs3 & Hc3);
      intros [= <- <-]; rewrite ?Hs3, ?Hc3, ?Ha3; done.
Qed.

Lemma read_lines_binds_nothing_new (self : TimingModel) (pfile : list string) :
  ∀ st (w w' : World) o,
    read_lines from_parfile_line split_prefixed_name self st pfile w = (o, w') →
    self_cache w' = self_cache w ∧ caches w' = caches w
    ∧ ∀ n, is_Some (attrs w' !! n) ↔ is_Some (attrs w !! n).
Proof.
  induction pfile as [|pl pfile IH]; intros st w w' o; simpl.
  - by intros [= <- <-].
  - unfold bind at 1.
    destruct (read_line _ _ self st pl w) as [[st1|e] w1] eqn:Hline;
      apply read_line_binds_nothing_new in Hline as (Hs & Hc & Ha).
    + intros (Hs' & Hc' & Ha')%IH. rewrite Hs', Hs, Hc', Hc.
      split; [done|]. split; [done|]. intros n. by rewrite Ha', Ha.
    + by intros [= <- <-].
Qed.

Lemma offer_line_returns (ps : list string) (l : string) :
  (∀ p l, is_ret (from_parfile_line p l) = true) →
  ∀ parsed (w : World),
    Forall (λ n, is_Some (attrs w !! n)) ps →
    ∃ b w', offer_line from_parfile_line ps l parsed w = (Ret b, w').
Proof.
  intros Htotal. induction ps as [|par ps IH]; intros parsed w Hbound; simpl.
  - by eexists _, _.
  - apply Forall_cons in Hbound as [[p Hp] Hbound].
    unfold bind at 1, getattr_param at 1. rewrite Hp.
    unfold bind at 1, lift at 1. specialize (Htotal p l).
    destruct (from_parfile_line p l) as [[b p']|]; [|done].
    unfold bind at 1, setattr_param at 1. apply IH.
    eapply Forall_impl; [done|]. intros n [x Hx]. simpl.
    destruct (decide (n = par)) as [->|Hne].
    + rewrite lookup_insert_eq. by eexists.
    + rewrite lookup_insert_ne by done. by eexists.
Qed.

Lemma report_unrecognized_returns (l : string) (w : World) :
  (∃ k ks, split l = k :: ks) →
  ∃ w', report_unrecognized split_prefixed_name l w = (Ret tt, w').
Proof.
  intros (k & ks & Hs). unfold report_unrecognized. rewrite Hs.
  destruct (split_prefixed_name k) as [[[pfx ?] ?]|e]; case_decide; by eexists.
Qed.

Lemma read_line_always_returns (self : TimingModel) (st : parfile_state) (pl : string)
    (w : World) :
  (∀ p l, is_ret (from_parfile_line p l) = true) →
  Forall (λ n, is_Some (attrs w !! n)) (default [] (lists w !! params self)) →
  ∃ st' w', read_line from_parfile_line split_prefixed_name self st pl w = (Ret st', w').
Proof.
  intros Htotal Hbound. unfold read_line.
  case_decide as Hblank; [by eexists _, _|].
  destruct (_ || _); [by eexists _, _|].
  destruct (split_strip pl Hblank) as (k0 & krest & Hsplit). rewrite Hsplit.
  cbv zeta.
  set (rl := if decide (upper k0 ∈ checked_param st) then _ else _).
  assert (Hl' : ∃ k ks, split (snd rl) = k :: ks).
  { unfold rl. case_decide; cbn [snd].
    - rewrite (split_suffix_first (strip pl) _ k0 krest Hsplit). by eexists _, _.
    - by eexists _, _. }
  clearbody rl.
  unfold bind at 1, emit at 1. unfold bind at 1, get_list at 1.
  cbn [lists set_trace]. unfold bind at 1.
  match goal with |- context [offer_line _ ?ps ?l ?b ?w0] =>
    destruct (offer_line_returns ps l Htotal b w0) as (parsed & w2 & Hoffer) end;
    [done|].
  rewrite Hoffer. unfold bind at 1. destruct parsed; [by eexists _, _|].
  destruct (report_unrecognized_returns (snd rl) w2 Hl') as [w3 ->].
  by eexists _, _.
Qed.

Lemma read_line_skips (self : TimingModel) (st : parfile_state) (pl : string) (w : World) :
  is_skipped (strip pl) = true →
  read_line from_parfile_line split_prefixed_name self st pl w = (Ret st, w).
Proof.
  unfold is_skipped, read_line. intros Hskip.
  case_decide as Hblank; [done|].
  rewrite (bool_decide_eq_false_2 _ Hblank) in Hskip. simpl in Hskip.
  by rewrite Hskip.
Qed.

(** The loop of [read_parfile] ends on every file.  When every name of
    [self.params] is bound and [from_parfile_line] itself raises nothing,
    the loop raises nothing: no blank, comment or one-token line, no repeated
    name, no line that nothing recognises makes [k[0]] or [l.split()[0]]
    fail, and what [split_prefixed_name] raises is caught.  [read_parfile]
    then is the call of [setup] after the loop, so it raises only what
    [setup] raises.  A file of blank lines and comments changes nothing. *)
Theorem read_parfile_loop_always_ends
    (self : TimingModel) (pfile : list string) (w : World) (names : list string)
    (Hnames : lists w !! params self = Some names)
    (Hbound : Forall (λ n, is_Some (attrs w !! n)) names)
    (Htotal : ∀ p l, is_ret (from_parfile_line p l) = true) :
  ∃ st w',
    read_lines from_parfile_line split_prefixed_name self (mkParfileState [] ∅) pfile w
    = (Ret st, w')
    ∧ read_parfile from_parfile_line split_prefixed_name self pfile w = setup self w'
    ∧ (Forall (λ pl, is_skipped (strip pl) = true) pfile → w' = w).
Proof.
  assert (Hloop : ∀ st0 (w0 : World),
            Forall (λ n, is_Some (attrs w0 !! n)) (default [] (lists w0 !! params self)) →
            ∃ st w',
              read_lines from_parfile_line split_prefixed_name self st0 pfile w0
              = (Ret st, w')
              ∧ (Forall (λ pl, is_skipped (strip pl) = true) pfile → w' = w0)).
  { induction pfile as [|pl pfile IH]; intros st0 w0 Hb; simpl.
    - by eexists _, _.
    - destruct (read_line_always_returns self st0 pl w0 Htotal Hb) as (st1 & w1 & Hline).
      unfold bind. rewrite Hline.
      pose proof (read_line_frame from_parfile_line split_prefixed_name self st0 pl
                    w0 w1 _ Hline) as [Hl _].
      pose proof (read_line_binds_nothing_new self st0 pl w0 w1 _ Hline) as (_ & _ & Ha).
      destruct (IH st1 w1) as (st & w' & Hrest & Hskip).
      { rewrite Hl. eapply Forall_impl; [done|]. intros n Hn. by apply Ha. }
      exists st, w'. split; [done|].
      intros [Hpl Hall]%Forall_cons. rewrite (read_line_skips self st0 pl w0 Hpl) in Hline.
      injection Hline as _ <-. by apply Hskip. }
  destruct (Hloop (mkParfileState [] ∅) w) as (st & w' & Hrun & Hskip).
  { by rewrite Hnames. }
  exists st, w'. split; [done|]. split; [|done].
  unfold read_parfile, bind. by rewrite Hrun.
Qed.

Lemma read_lines_app (self : TimingModel) (a b : list string) :
  ∀ st (w : World),
    read_lines from_parfile_line split_prefixed_name self st (a ++ b) w
    = (let! st' := read_lines from_parfile_line split_prefixed_name self st a in
       read_lines from_parfile_line split_prefixed_name self st' b) w.
Proof.
  induction a as [|pl a IH]; intros st w; simpl.
  - done.
  - unfold bind.
    destruct (read_line _ _ self st pl w) as [[st1|e] w1]; [|done].
    rewrite IH. done.
Qed.

(** The state of the loop follows the names of the significant lines. *)
Lemma read_lines_inv (self : TimingModel) (pfile : list string) :
  ∀ seen st st' (w w' : World),
    parfile_inv seen st →
    read_lines from_parfile_line split_prefixed_name self st pfile w = (Ret st', w') →
    parfile_inv (seen ++ map line_name (significant pfile)) st'.
Proof.
  induction pfile as [|pl pfile IH]; intros seen st st' w w' Hinv; simpl.
  - intros [= <- <-]. by rewrite app_nil_r.
  - unfold bind at 1.
    destruct (read_line _ _ self st pl w) as [[st1|e] w1] eqn:Hline; [|done].
    intros Hrest. unfold significant. simpl. rewrite filter_cons.
    destruct (read_line_returns from_parfile_line split_prefixed_name
                self seen st st1 pl w w1 Hinv Hline)
      as [(Hskip & -> & ->)|(Hskip & _ & _ & Hinv1)].
    + rewrite decide_False by (by rewrite Hskip). by apply (IH seen st st' w w').
    + rewrite decide_True by done. simpl. rewrite cons_middle, app_assoc.
      by apply (IH _ st1 st' w1 w').
Qed.

(** The inner loop with distinct names: every parameter is offered the
    line, and each is left as its own [from_parfile_line] leaves it. *)
Lemma offer_line_all (l : string) (ps : list string) :
  ∀ (pars : list (ParameterObj num)) (results : list (bool * ParameterObj num))
    parsed (w : World),
    NoDup ps →
    Forall2 (λ n p, attrs w !! n = Some p) ps pars →
    Forall2 (λ p r, from_parfile_line p l = Ret r) pars results →
    ∃ w', offer_line from_parfile_line ps l parsed w
          = (Ret (parsed || existsb fst results), w')
          ∧ Forall2 (λ n r, attrs w' !! n = Some (snd r)) ps results
          ∧ (∀ n, n ∉ ps → attrs w' !! n = attrs w !! n)
          ∧ warnings w' = warnings w ∧ lists w' = lists w ∧ trace w' = trace w.
Proof.
  induction ps as [|par ps IH]; intros pars results parsed w Hnd Hpars Hres.
  - apply Forall2_nil_inv_l in Hpars as ->. apply Forall2_nil_inv_l in Hres as ->.
    exists w. simpl. rewrite orb_false_r. repeat split; done.
  - apply Forall2_cons_inv_l in Hpars as (p & pars' & Hp & Hpars & ->).
    apply Forall2_cons_inv_l in Hres as (r & results' & Hr & Hres & ->).
    apply NoDup_cons in Hnd as [Hnotin Hnd].
    cbn [offer_line]. unfold bind at 1, getattr_param at 1. rewrite Hp.
    unfold bind at 1, lift at 1. rewrite Hr.
    unfold bind at 1, setattr_param at 1.
    destruct (IH pars' results' (if fst r then true else parsed)
                (set_attrs (<[par:=snd r]> (attrs w)) w) Hnd)
      as (w' & Hrun & Hall & Hout & Hw & Hl & Ht); [|done|].
    { clear -Hpars Hnotin. induction Hpars as [|n q ps qs Hq _ IHp]; [constructor|].
      apply not_elem_of_cons in Hnotin as [Hne Hnotin]. constructor.
      - simpl. by rewrite lookup_insert_ne.
      - by apply IHp. }
    exists w'. split.
    { rewrite Hrun. f_equal. f_equal. cbn [existsb].
      destruct (fst r), parsed; done. }
    split.
    { constructor; [|done]. rewrite Hout by done. simpl. apply lookup_insert_eq. }
    split.
    { intros n [Hne Hn]%not_elem_of_cons. rewrite Hout by done. simpl.
      by rewrite lookup_insert_ne. }
    done.
Qed.

(** The loop over the parameters has no [break]: a line is offered to every
    parameter of [self.params], in order, also after one has taken it, and
    each is left as its own [from_parfile_line] leaves it, so a line that
    two parameters accept sets both.  When at least one accepts it, nothing
    is reported. *)
Theorem read_line_offers_every_parameter
    (self : TimingModel) (st : parfile_state) (pl : string) (w : World)
    (names : list string) (pars : list (ParameterObj num))
    (results : list (bool * ParameterObj num))
    (Hnames : lists w !! params self = Some names)
    (Hnodup : NoDup names)
    (Hline : is_skipped (strip pl) = false)
    (Hfresh : line_name (strip pl) ∉ checked_param st)
    (Hpars : Forall2 (λ n p, attrs w !! n = Some p) names pars)
    (Hres : Forall2 (λ p r, from_parfile_line p (strip pl) = Ret r) pars results)
    (Htaken : existsb fst results = true) :
  ∃ st' w',
    read_line from_parfile_line split_prefixed_name self st pl w = (Ret st', w')
    ∧ Forall2 (λ n r, attrs w' !! n = Some (snd r)) names results
    ∧ warnings w' = warnings w.
Proof.
  unfold read_line. unfold is_skipped in Hline.
  apply orb_false_iff in Hline as [Hline Hc2].
  apply orb_false_iff in Hline as [Hblank Hc1].
  apply bool_decide_eq_false_1 in Hblank.
  rewrite decide_False by done. rewrite Hc1, Hc2. cbn [orb].
  destruct (split_strip pl Hblank) as (k0 & krest & Hsplit).
  unfold line_name in Hfresh. rewrite Hsplit in *. cbv zeta.
  rewrite decide_False by done. cbn [fst snd].
  unfold bind at 1, emit at 1. unfold bind at 1, get_list at 1.
  cbn [lists set_trace]. rewrite Hnames. cbn [default]. unfold id.
  unfold bind at 1.
  match goal with |- context [offer_line _ _ _ _ ?w0] =>
    destruct (offer_line_all (strip pl) names pars results false w0 Hnodup)
      as (w2 & Hoffer & Hall & _ & Hw2 & _) end; [done..|].
  rewrite Hoffer, Htaken. cbn [orb]. unfold bind, ret.
  eexists _, _. split; [done|]. split; [done|]. done.
Qed.

(** The list [ignore_params] covers the first line of a name only.  A line
    whose name (first token, upper-cased) has occurred before is handed on
    with the counter appended; when no parameter takes it, it is reported as
    unrecognized, unless [split_prefixed_name] finds one of the prefixes of
    [ignore_prefix] in its first token: a name with a counter is never one
    of [ignore_params], so a second [CLK] or [UNITS] line is reported. *)
Theorem repeated_keyword_is_reported
    (self : TimingModel) (before : list string) (pl : string) (w w1 : World)
    (st1 : parfile_state) (names : list string) (k0 : string) (krest : list string)
    (pars : list (ParameterObj num)) (results : list (bool * ParameterObj num))
    (Hnames : lists w !! params self = Some names)
    (Hnodup : NoDup names)
    (Hbefore : read_lines from_parfile_line split_prefixed_name self
                 (mkParfileState [] ∅) before w = (Ret st1, w1))
    (Hpars : Forall2 (λ n p, attrs w1 !! n = Some p) names pars)
    (Hline : is_skipped (strip pl) = false)
    (Hsplit : split (strip pl) = k0 :: krest)
    (Hseen : upper k0 ∈ map line_name (significant before)) :
  let k := S (occurrences (upper k0) (map line_name (significant before))) in
  let l' := suffix_first (strip pl) k in
  Forall2 (λ p r, from_parfile_line p l' = Ret r) pars results →
  existsb fst results = false →
  (∀ pfx f v, split_prefixed_name (k0 +:+ str k) = Ret (pfx, f, v) →
              pfx ∉ ignore_prefix) →
  ∃ st2 w2,
    read_lines from_parfile_line split_prefixed_name self
      (mkParfileState [] ∅) (before ++ [pl]) w = (Ret st2, w2)
    ∧ warnings w2 = warnings w1 ++ ["Unrecognized parfile line '" +:+ l' +:+ "'"].
Proof.
  intros k l' Hres Hnone Hprefix.
  set (seen := map line_name (significant before)) in *.
  assert (Hinv0 : parfile_inv [] (mkParfileState [] ∅)).
  { split; [done|]. intros n. unfold occurrences. rewrite filter_nil. simpl.
    by rewrite lookup_empty. }
  pose proof (read_lines_inv self before [] _ st1 w w1 Hinv0 Hbefore) as [Hchecked Hrepeat].
  cbn [app] in Hchecked, Hrepeat. fold seen in Hchecked, Hrepeat.
  pose proof (read_lines_frame from_parfile_line split_prefixed_name self before
                _ w w1 _ Hbefore) as [Hl1 _].
  rewrite read_lines_app. unfold bind at 1. rewrite Hbefore.
  cbn [read_lines]. unfold bind at 1.
  (* the iteration on the repeated line *)
  unfold read_line. unfold is_skipped in Hline.
  apply orb_false_iff in Hline as [Hline Hc2].
  apply orb_false_iff in Hline as [Hblank Hc1].
  apply bool_decide_eq_false_1 in Hblank.
  rewrite decide_False by done. rewrite Hc1, Hc2. cbn [orb]. rewrite Hsplit. cbv zeta.
  rewrite Hchecked. rewrite decide_True by done.
  assert (Hocc : 1 ≤ occurrences (upper k0) seen) by (by apply occurrences_elem_of).
  assert (Hn : match repeat_param st1 !! upper k0 with
               | Some c => c + 1
               | None => 2
               end = k).
  { rewrite Hrepeat. unfold k.
    destruct (decide (2 ≤ occurrences (upper k0) seen)); lia. }
  rewrite Hn. cbn [fst snd].
  assert (Hl' : join " " ((k0 +:+ str k) :: krest) = l').
  { unfold l', suffix_first. by rewrite Hsplit. }
  rewrite Hl'.
  unfold bind at 1, emit at 1. unfold bind at 1, get_list at 1.
  cbn [lists set_trace]. rewrite Hl1, Hnames. cbn [default]. unfold id.
  unfold bind at 1.
  match goal with |- context [offer_line _ _ _ _ ?w0] =>
    destruct (offer_line_all l' names pars results false w0 Hnodup)
      as (w2 & Hoffer & _ & _ & Hw2 & _) end; [done..|].
  rewrite Hoffer, Hnone. cbn [orb]. unfold bind at 1.
  unfold report_unrecognized.
  assert (Hs' : split l' = (k0 +:+ str k) :: krest).
  { rewrite <- Hl'. by eapply split_suffix_first. }
  rewrite Hs'.
  destruct (split_prefixed_name (k0 +:+ str k)) as [[[pfx f] v]|e] eqn:Hspn.
  - rewrite decide_False by (by eapply Hprefix).
    unfold warn, ret. eexists _, _. split; [done|]. simpl. by rewrite Hw2.
  - rewrite decide_False by (apply suffixed_not_ignored; unfold k; lia).
    unfold warn, ret. eexists _, _. split; [done|]. simpl. by rewrite Hw2.
Qed.

(** The loop of [read_parfile] changes parameters that the model has, and
    nothing else of the model.  Whatever the file holds, and whether the
    loop ends or raises: the list behind [self.params] is the same list with
    the same names; no attribute is bound that was not, and none is unbound;
    a parameter whose name is not in the list is untouched; the cache is
    left alone. *)
Theorem read_parfile_adds_no_parameter
    (self : TimingModel) (pfile : list string) (st : parfile_state)
    (w w' : World) (o : outcome parfile_state)
    (Hrun : read_lines from_parfile_line split_prefixed_name self st pfile w = (o, w')) :
  lists w' = lists w
  ∧ self_cache w' = self_cache w ∧ caches w' = caches w
  ∧ (∀ n, is_Some (attrs w' !! n) ↔ is_Some (attrs w !! n))
  ∧ (∀ n, n ∉ default [] (lists w !! params self) → attrs w' !! n = attrs w !! n).
Proof.
  pose proof (read_lines_frame from_parfile_line split_prefixed_name self pfile
                st w w' o Hrun) as [Hl Hout].
  pose proof (read_lines_binds_nothing_new self pfile st w w' o Hrun) as (Hs & Hc & Ha).
  done.
Qed.
End ParfileLoop.

(** ** The answer of [is_in_parfile] *)

Section InParfileAnswer.
Context {num val TOA unit_t : Type}.
Local Abbreviation World := (World num val TOA).
Local Abbreviation Comp := (Comp num val TOA).
Local Abbreviation TimingModel := (@TimingModel num val TOA unit_t).

Lemma common_names_nil (para_dict : gmap string (list string)) (xs : list string) :
  common_names para_dict xs = [] ↔ ∀ x, x ∈ xs → para_dict !! x = None.
Proof.
  unfold common_names. induction xs as [|x xs IH].
  - split; [by intros _ x ?%elem_of_nil|done].
  - rewrite filter_cons. destruct (decide (is_Some (para_dict !! x))) as [Hx|Hx].
    + split; [done|]. intros Hall. destruct Hx as [v Hv].
      rewrite Hall in Hv; [done|apply list_elem_of_here].
    + rewrite IH. split.
      * intros Hall y [->|Hy]%elem_of_cons; [|by apply Hall].
        by apply eq_None_not_Some.
      * intros Hall y Hy. by apply Hall, list_elem_of_further.
Qed.

Lemma common_names_cons (para_dict : gmap string (list string)) (xs : list string)
    (y : string) (ys : list string) :
  common_names para_dict xs = y :: ys → ∃ x, x ∈ xs ∧ is_Some (para_dict !! x).
Proof.
  intros Hc. exists y.
  assert (Hy : y ∈ filter (λ x, is_Some (para_dict !! x)) xs).
  { unfold common_names in Hc. rewrite Hc. apply list_elem_of_here. }
  apply list_elem_of_filter in Hy as [Hsome Hin]. done.
Qed.

(** The alias loop answers whether some name of the list has an alias that
    is a key of the parfile dictionary. *)
Lemma alias_loop_answer (para_dict : gmap string (list string)) (w : World)
    (ps : list string) :
  Forall (λ n, is_Some (attrs w !! n)) ps →
  ∃ b, alias_loop para_dict ps w = (Ret b, w)
       ∧ (b = true ↔ ∃ n p a, n ∈ ps ∧ attrs w !! n = Some p
                               ∧ a ∈ aliases p ∧ is_Some (para_dict !! a)).
Proof.
  induction 1 as [|n ps [p Hp] _ (b & Hrun & Hb)].
  - exists false. split; [done|]. split; [done|].
    by intros (n & p & a & ?%elem_of_nil & _).
  - cbn [alias_loop]. unfold bind, getattr_param. rewrite Hp.
    assert (Hskip : (∀ a, a ∈ aliases p → para_dict !! a = None) →
              ∃ b, alias_loop para_dict ps w = (Ret b, w)
                   ∧ (b = true ↔ ∃ n0 p0 a, n0 ∈ n :: ps ∧ attrs w !! n0 = Some p0
                                             ∧ a ∈ aliases p0 ∧ is_Some (para_dict !! a))).
    { intros Hnone. exists b. split; [done|]. rewrite Hb. split.
      - intros (n0 & p0 & a & Hin & Hrest). exists n0, p0, a.
        split; [by apply list_elem_of_further|done].
      - intros (n0 & p0 & a & [->|Hin]%elem_of_cons & Hp0 & Ha & Hsome).
        + rewrite Hp in Hp0. injection Hp0 as <-. rewrite (Hnone a Ha) in Hsome.
          by destruct Hsome.
        + by exists n0, p0, a. }
    destruct (aliases p) as [|a0 al] eqn:Hal.
    + apply Hskip. by intros a ?%elem_of_nil.
    + destruct (common_names para_dict (a0 :: al)) as [|y ys] eqn:Hc.
      * apply Hskip. by apply common_names_nil.
      * exists true. split; [done|]. split; [|done]. intros _.
        destruct (common_names_cons _ _ _ _ Hc) as (a & Ha & Hsome).
        exists n, p, a. rewrite Hal. split; [apply list_elem_of_here|done].
Qed.

(** The answer of [is_in_parfile].  A component with [PLANET_SHAPIRO]
    answers whether the parfile has no key [NO_SS_SHAPIRO], and a component
    with a [BinaryModelName] answers whether the first value of the key
    [BINARY] is that name: in both cases no parameter name is looked at.
    Otherwise, also for a binary component when the parfile has no [BINARY]
    value, the answer is whether the parfile names one of the parameters
    that are left once the first [PSR] is removed, by name or by alias; the
    parameter [PSR] and its aliases do not count. *)
Theorem is_in_parfile_answer
    (self : TimingModel) (para_dict : gmap string (list string)) (w : World)
    (names : list string)
    (Hnames : lists w !! params self = Some names) :
  let r := fst (is_in_parfile self para_dict w) in
  let names' := remove_first "PSR" names in
  if PLANET_SHAPIRO self then
    r = Ret (negb (bool_decide (is_Some (para_dict !! "NO_SS_SHAPIRO"))))
  else
    match BinaryModelName self, para_dict !! "BINARY" with
    | Some b, Some (v :: _) => r = Ret (bool_decide (b = v))
    | _, _ =>
        Forall (λ n, is_Some (attrs w !! n)) names' →
        ∃ b, r = Ret b
             ∧ (b = true ↔ ∃ n, n ∈ names' ∧ named_in_parfile para_dict w n)
    end.
Proof.
  intros r names'. subst r.
  set (w' := set_lists (<[params self := names']> (lists w)) w).
  assert (Hw' : lists w' !! params self = Some names').
  { simpl. apply list_lookup_insert_eq. by eapply lookup_lt_Some. }
  (* the call up to the removal of PSR *)
  assert (Hstart : ∀ rest : Comp bool,
            (let! names0 := get_list (params self) in
             do! (match list_index "PSR" names0 with
                  | Some i => put_list (params self) (delete i names0)
                  | None => ret tt
                  end) in rest) w = rest w').
  { intros rest. unfold bind, get_list. rewrite Hnames. cbn [default]. unfold id.
    unfold w', names', remove_first.
    destruct (list_index "PSR" names) as [i|]; [done|].
    unfold ret. rewrite list_insert_id by done. by destruct w. }
  unfold is_in_parfile. rewrite Hstart.
  destruct (PLANET_SHAPIRO self); [done|].
  assert (Hplain : Forall (λ n, is_Some (attrs w !! n)) names' →
            ∃ b, fst ((let! names0 := get_list (params self) in
                       match common_names para_dict names0 with
                       | [] => alias_loop para_dict names0
                       | _ :: _ => ret true
                       end) w') = Ret b
                 ∧ (b = true ↔ ∃ n, n ∈ names' ∧ named_in_parfile para_dict w n)).
  { intros Hbound. unfold bind, get_list. rewrite Hw'. cbn [default]. unfold id.
    destruct (common_names para_dict names') as [|y ys] eqn:Hc.
    - destruct (alias_loop_answer para_dict w' names' Hbound) as (b & Hrun & Hb).
      exists b. rewrite Hrun. split; [done|]. rewrite Hb. split.
      + intros (n & p & a & Hin & Hp & Ha & Hsome). exists n. split; [done|].
        right. by exists p, a.
      + intros (n & Hin & [Hsome|(p & a & Hp & Ha & Hsome)]).
        * rewrite common_names_nil in Hc. rewrite (Hc n Hin) in Hsome.
          by destruct Hsome.
        * by exists n, p, a.
    - exists true. split; [done|]. split; [|done]. intros _.
      destruct (common_names_cons _ _ _ _ Hc) as (n & Hin & Hsome).
      exists n. split; [done|]. by left. }
  destruct (BinaryModelName self) as [b|]; [|exact Hplain].
  destruct (para_dict !! "BINARY") as [[|v vs]|]; [exact Hplain|done|exact Hplain].
Qed.

(** [is_in_parfile] can be asked again.  With distinct names in
    [self.params], a second call gives the answer of the first and leaves
    the model as the first left it: there is no second [PSR] to remove. *)
Theorem is_in_parfile_again
    (self : TimingModel) (para_dict : gmap string (list string)) (w : World)
    (names : list string)
    (Hnames : lists w !! params self = Some names)
    (Hnodup : NoDup names) :
  let first := is_in_parfile self para_dict w in
  is_in_parfile self para_dict (snd first) = (fst first, snd first).
Proof.
  set (names' := remove_first "PSR" names).
  set (w' := set_lists (<[params self := names']> (lists w)) w).
  assert (Hw' : lists w' !! params self = Some names').
  { simpl. apply list_lookup_insert_eq. by eapply lookup_lt_Some. }
  assert (Hstart : ∀ (w0 : World) names0 (rest : Comp bool),
            lists w0 !! params self = Some names0 →
            (let! names1 := get_list (params self) in
             do! (match list_index "PSR" names1 with
                  | Some i => put_list (params self) (delete i names1)
                  | None => ret tt
                  end) in rest) w0
            = rest (set_lists (<[params self := remove_first "PSR" names0]> (lists w0)) w0)).
  { intros w0 names0 rest Hn0. unfold bind, get_list. rewrite Hn0. cbn [default].
    unfold id, remove_first.
    destruct (list_index "PSR" names0) as [i|]; [done|].
    unfold ret. rewrite list_insert_id by done. by destruct w0. }
  assert (Hfix : remove_first "PSR" names' = names').
  { unfold remove_first at 1. destruct (list_index "PSR" names') as [i|] eqn:Hi; [|done].
    apply list_index_Some in Hi as (Hi & _). exfalso.
    apply (remove_first_NoDup "PSR" names Hnodup). by eapply list_elem_of_lookup_2. }
  assert (Hsame : set_lists (<[params self := names']> (lists w')) w' = w').
  { unfold w'. simpl. by rewrite list_insert_insert_eq. }
  intros first. subst first. unfold is_in_parfile.
  rewrite (Hstart w names) by done. fold names'. fold w'.
  match goal with |- context [snd (?rest w')] =>
    assert (Hpure : snd (rest w') = w') end.
  { destruct (PLANET_SHAPIRO self); [done|].
    destruct (match BinaryModelName self with Some _ => _ | None => _ end); [done|].
    unfold bind, get_list.
    destruct (common_names para_dict _); [|done]. apply alias_loop_pure. }
  rewrite Hpure. rewrite (Hstart w' names') by done. rewrite Hfix, Hsame.
  match goal with |- ?x = _ => destruct x as [o w2] eqn:Hx end.
  simpl in Hpure. by subst w2.
Qed.
End InParfileAnswer.

(** ** [generate_timing_model] *)

Section GenerateTimingModelFacts.
Context {cls attributes_t : Type}.
Variable py_type : string → list component → attributes_t → type_error + cls.

Lemma check_components_forallb (cs : list component) :
  check_components cs
  = if forallb is_model_class cs then inr tt
    else inl (TypeErrorMsg "generate_timing_model() Arg 2has to be a tuple of classes").
Proof.
  induction cs as [|c cs IH]; [done|].
  cbn [check_components forallb]. destruct c as [cname [|]|]; simpl; [exact IH|done..].
Qed.

(** [generate_timing_model] builds the class with [type] exactly when every
    component is a subclass of [TimingModel]; a single component that has no
    length is taken as a tuple of one, and an empty tuple passes.  In every
    other case, a class that is no subclass or an object that is no class,
    the caller gets the one [TypeError] of line 538, whose two string
    literals are joined without a space; the [TypeError] of line 535 that
    names the offending class is raised inside the [try] and replaced by the
    bare [except], so it never reaches the caller. *)
Theorem generate_timing_model_checks_every_component
    (name : string) (components : components_arg) (attributes : attributes_t) :
  let cs := match components with
            | Sized cs => cs
            | Unsized c => [c]
            end in
  generate_timing_model py_type name components attributes
  = if forallb is_model_class cs then py_type name cs attributes
    else inl (TypeErrorMsg "generate_timing_model() Arg 2has to be a tuple of classes").
Proof.
  intros cs. unfold generate_timing_model. fold cs.
  rewrite check_components_forallb. by destruct (forallb is_model_class cs).
Qed.
End GenerateTimingModelFacts.

(** ** The further properties on the example models *)

Lemma use_cache_nested_call_is_plain_witness :
  use_cache (let! x := emit (Entered "designmatrix") in
             let! y := use_cache answer in ret (x, y)) example_world
  = use_cache (let! x := emit (Entered "designmatrix") in
               let! y := answer in ret (x, y)) example_world.
Proof.
  apply (use_cache_nested_call_is_plain (emit (Entered "designmatrix"))
           (λ _, answer) (λ x y, ret (x, y)) example_world).
  intros w. reflexivity.
Defined.

Lemma cache_result_ignores_arguments_witness :
  let first := cache_result Cache_class_attr "phase" answer example_scoped_world in
  fst first = Ret 42
  ∧ cache_result Cache_class_attr "phase" other_answer (snd first) = (Ret 42, snd first).
Proof.
  apply (cache_result_ignores_arguments Cache_class_attr "phase" answer other_answer
           example_scoped_world (set_trace [Entered "phase"] example_scoped_world)
           0 ∅ 42);
    try reflexivity.
  by eexists.
Defined.

Lemma cache_is_fresh_after_return_witness :
  let w1 := snd (use_cache (cache_result Cache_class_attr "phase" answer) example_world) in
  self_cache w1 = PyNone
  ∧ use_cache (cache_result Cache_class_attr "phase" other_answer) w1
    = match other_answer (opened w1) with
      | (Ret v, w2) =>
          (Ret v, set_self_cache PyNone (cache_setattr (length (caches w1)) "phase" v w2))
      | (Raise e, w2) => (Raise e, w2)
      end.
Proof.
  apply (cache_is_fresh_after_return Cache_class_attr "phase"
           (cache_result Cache_class_attr "phase" answer) other_answer example_world
           (snd (use_cache (cache_result Cache_class_attr "phase" answer) example_world))
           42).
  - by left.
  - reflexivity.
  - reflexivity.
Defined.

(** After a top-level call that returned, the function runs again and the
    new result is returned; after one that raised, the old result is. *)
Example cache_lifetime_example :
  fst (use_cache (cache_result Cache_class_attr "phase" other_answer)
         (snd (use_cache (cache_result Cache_class_attr "phase" answer) example_world)))
  = Ret 7
  ∧ fst (use_cache (cache_result Cache_class_attr "phase" other_answer)
           (snd (use_cache (let! x := cache_result Cache_class_attr "phase" answer in
                            (raise ValueError : Comp spec_float nat nat nat))
                   example_world)))
    = Ret 42.
Proof. by vm_compute. Qed.

Lemma cache_is_stale_after_raise_witness :
  let first :=
    use_cache (let! x := cache_result Cache_class_attr "phase" answer in
               (raise ValueError : Comp spec_float nat nat nat)) example_world in
  fst first = Raise ValueError
  ∧ self_cache (snd first) = Scope (length (caches example_world))
  ∧ use_cache (cache_result Cache_class_attr "phase" other_answer) (snd first)
    = (Ret 42, snd first).
Proof.
  apply (cache_is_stale_after_raise Cache_class_attr "phase" answer other_answer
           example_world (snd (answer (opened example_world))) 42 ValueError).
  - by left.
  - reflexivity.
  - reflexivity.
  - reflexivity.
  - by eexists.
Defined.

Lemma add_param_appends_without_check_witness :
  let w' := set_lists (<[params example_model :=
                           ["PSR"; "F0"; "F1"; "DM"; "DM2"] ++ [name DM_param]]>
                         (lists example_world))
              (set_attrs (<[name DM_param := DM_param]> (attrs example_world))
                 example_world) in
  add_param example_model DM_param false example_world = (Ret tt, w')
  ∧ lists w' !! params example_model
    = Some (["PSR"; "F0"; "F1"; "DM"; "DM2"] ++ [name DM_param])
  ∧ attrs w' !! name DM_param = Some DM_param
  ∧ occurrences (name DM_param) (["PSR"; "F0"; "F1"; "DM"; "DM2"] ++ [name DM_param])
    = S (occurrences (name DM_param) ["PSR"; "F0"; "F1"; "DM"; "DM2"])
  ∧ (binary_params example_model = None →
     add_param example_model DM_param true example_world
     = (Raise (AttributeError "binary_params"), w'))
  ∧ (∀ l bs, binary_params example_model = Some l → lists w' !! l = Some bs →
     add_param example_model DM_param true example_world
     = (Ret tt, set_lists (<[l := bs ++ [name DM_param]]> (lists w')) w')).
Proof.
  apply (add_param_appends_without_check example_model DM_param example_world
           ["PSR"; "F0"; "F1"; "DM"; "DM2"]).
  reflexivity.
Defined.

(** DM added a second time is twice in the list. *)
Example add_param_example :
  lists (snd (add_param example_model DM_param false example_world))
    !! params example_model
  = Some ["PSR"; "F0"; "F1"; "DM"; "DM2"; "DM"].
Proof. by vm_compute. Qed.

Lemma prefix_world_bound (pfx : string) :
  Forall (λ n, startswith n pfx = true → is_Some (attrs prefix_world !! n))
    ["PSR"; "DMX_0001"; "DMXR1_0001"; "DMX_0002"].
Proof. repeat constructor; intros _; by eexists. Qed.

Lemma get_prefix_mapping_maps_index_to_last_name_witness :
  ∃ mapping,
    fst (@get_prefix_mapping _ _ _ string example_model "DMX_" prefix_world) = Ret mapping
    ∧ ∀ i, mapping !! i
           = last (filter (λ n, is_prefix_param prefix_world "DMX_" i n = true)
                     ["PSR"; "DMX_0001"; "DMXR1_0001"; "DMX_0002"]).
Proof.
  apply (get_prefix_mapping_maps_index_to_last_name example_model "DMX_" prefix_world
           ["PSR"; "DMX_0001"; "DMXR1_0001"; "DMX_0002"]).
  - reflexivity.
  - apply prefix_world_bound.
Defined.

Example get_prefix_mapping_example :
  fst (@get_prefix_mapping _ _ _ string example_model "DMX_" prefix_world)
  = Ret (<[1 := "DMX_0001"]> (<[2 := "DMX_0002"]> ∅)).
Proof. by vm_compute. Qed.

Lemma example_world_bound_by_name :
  bound_by_name example_world ["PSR"; "F0"; "F1"; "DM"; "DM2"].
Proof. repeat constructor; by eexists. Qed.

Lemma get_params_of_type_selects_by_class_name_witness :
  get_params_of_type example_type_name example_model "FLOAT" example_world
  = (Ret (filter (λ n, has_type example_type_name example_world "FLOAT" n = true)
            ["PSR"; "F0"; "F1"; "DM"; "DM2"]), example_world)
  ∧ (∀ other, upper other = upper "FLOAT" →
       get_params_of_type example_type_name example_model other example_world
       = get_params_of_type example_type_name example_model "FLOAT" example_world)
  ∧ (∀ n p base, n ∈ ["PSR"; "F0"; "F1"; "DM"; "DM2"] →
       attrs example_world !! n = Some p →
       example_type_name p = base +:+ "Parameter" →
       upper "FLOAT" = upper base ∨ upper "FLOAT" = upper (example_type_name p) →
       n ∈ filter (λ n, has_type example_type_name example_world "FLOAT" n = true)
             ["PSR"; "F0"; "F1"; "DM"; "DM2"]).
Proof.
  apply (get_params_of_type_selects_by_class_name example_type_name example_model
           "FLOAT" example_world ["PSR"; "F0"; "F1"; "DM"; "DM2"]).
  - reflexivity.
  - apply example_world_bound_by_name.
Defined.

Example get_params_of_type_example :
  fst (get_params_of_type example_type_name example_model "float" example_world)
  = Ret ["F0"; "F1"; "DM"; "DM2"]
  ∧ fst (get_params_of_type example_type_name example_model "strParameter" example_world)
    = Ret ["PSR"].
Proof. by vm_compute. Qed.

Lemma listings_follow_the_parameter_list_witness :
  __str__ name example_model example_world
  = (Ret (foldr (λ p acc, name p +:+ nl +:+ acc) ""
            [PSR_param; F0_param; F1_param; DM_param; DM2_param]), example_world)
  ∧ as_parfile name example_model example_world
    = (Ret (foldr (λ p acc, name p +:+ acc) ""
              [PSR_param; F0_param; F1_param; DM_param; DM2_param]
            +:+ "UNITS TDB" +:+ nl
            +:+ match BinaryModelName example_model with
                | Some b => "BINARY " +:+ b +:+ nl
                | None => ""
                end), example_world)
  ∧ param_help name "TimingModel" example_model example_world
    = (Ret ("Available parameters for " +:+ "TimingModel" +:+ nl
            +:+ foldr (λ p acc, name p +:+ nl +:+ acc) ""
                  [PSR_param; F0_param; F1_param; DM_param; DM2_param]), example_world).
Proof.
  apply (listings_follow_the_parameter_list example_model example_world
           ["PSR"; "F0"; "F1"; "DM"; "DM2"]
           [PSR_param; F0_param; F1_param; DM_param; DM2_param]
           name name name "TimingModel").
  - reflexivity.
  - repeat constructor.
Defined.

Example as_parfile_example :
  fst (as_parfile (λ p, name p +:+ " 0" +:+ nl) example_model example_world)
  = Ret ("PSR 0" +:+ nl +:+ "F0 0" +:+ nl +:+ "F1 0" +:+ nl +:+ "DM 0" +:+ nl
         +:+ "DM2 0" +:+ nl +:+ "UNITS TDB" +:+ nl).
Proof. by vm_compute. Qed.

Example delay_shape_example :
  (length <$> (match fst (@delay _ _ _ _ binary64 example_model [0; 1; 2] example_world) with
               | Ret d => Some d
               | Raise _ => None
               end)) = Some 3.
Proof. by vm_compute. Qed.

(** The barycentric times of the example, with [x - d] standing for
    [x*u.day - d*u.second]: only [L1_delay] has run. *)
Example get_barycentric_toas_example :
  let r := @get_barycentric_toas _ _ _ string binary64
             (λ t, fl (Z.of_nat t)) (λ x d, SFadd 53 1024 x (SFopp d))
             example_model [10; 20] example_world in
  fst r = Ret [fl 8; fl 18]
  ∧ trace (snd r) = [Entered "get_barycentric_toas"; Called "L1" 0; Summed "L1" 0].
Proof. by vm_compute. Qed.

Lemma designmatrix_columns_hold_derivatives_witness :
  ∃ M us w',
    @designmatrix _ _ _ _ binary64 "" (λ u, u +:+ " s") example_model [0; 1] false true
      example_world
    = (Ret (M, requested_columns example_world ["PSR"; "F0"; "F1"; "DM"; "DM2"] false true,
            us), w')
    ∧ ∀ j p,
        requested_columns example_world ["PSR"; "F0"; "F1"; "DM"; "DM2"] false true !! j
        = Some p →
        match @column_value _ _ _ _ binary64 example_model [0; 1] (fl 100) p with
        | Some x => ∃ col, broadcast_to (length [0; 1]) x = Ret col
                           ∧ column j M = map Some col
        | None => column j M = replicate (length [0; 1]) (Some (S754_zero false))
        end.
Proof.
  apply (@designmatrix_columns_hold_derivatives _ _ _ _ binary64 "" (λ u, u +:+ " s")
           example_model [0; 1] example_world ["PSR"; "F0"; "F1"; "DM"; "DM2"]
           F0_param (fl 100) false true).
  - reflexivity.
  - apply example_params_bound.
  - reflexivity.
  - reflexivity.
  - by vm_compute.
  - rewrite example_requested_columns. repeat constructor.
Defined.

Lemma designmatrix_units_skip_columns_witness :
  ∃ M us w',
    @designmatrix _ _ _ _ binary64 "" (λ u, u +:+ " s") example_model [0; 1] false true
      example_world
    = (Ret (M, requested_columns example_world ["PSR"; "F0"; "F1"; "DM"; "DM2"] false true,
            us), w')
    ∧ us = omap (@column_unit _ _ _ _ "" (λ u, u +:+ " s") example_model [0; 1])
             (requested_columns example_world ["PSR"; "F0"; "F1"; "DM"; "DM2"] false true)
    ∧ length us
      ≤ length (requested_columns example_world ["PSR"; "F0"; "F1"; "DM"; "DM2"] false true)
    ∧ ∀ p,
        p ∈ requested_columns example_world ["PSR"; "F0"; "F1"; "DM"; "DM2"] false true →
        no_derivative_path example_model p →
        length us
        < length (requested_columns example_world ["PSR"; "F0"; "F1"; "DM"; "DM2"] false true).
Proof.
  apply (@designmatrix_units_skip_columns _ _ _ _ binary64 "" (λ u, u +:+ " s")
           example_model [0; 1] example_world ["PSR"; "F0"; "F1"; "DM"; "DM2"]
           F0_param (fl 100) false true).
  - reflexivity.
  - apply example_params_bound.
  - reflexivity.
  - reflexivity.
  - by vm_compute.
  - rewrite example_requested_columns. repeat constructor.
Defined.

Lemma designmatrix_needs_F0_witness :
  let r := @designmatrix _ _ _ _ binary64 "" (λ u, u +:+ " s") example_model [0; 1]
             false true no_F0_world in
  fst r = Raise (AttributeError "F0")
  ∧ trace (snd r) = trace no_F0_world ++ [Entered "designmatrix"].
Proof.
  apply (@designmatrix_needs_F0 _ _ _ _ binary64 "" (λ u, u +:+ " s")
           example_model [0; 1] no_F0_world ["PSR"; "DM"] false true).
  - reflexivity.
  - intros _. repeat constructor; by eexists.
  - reflexivity.
Defined.

Example split_join_example :
  split (suffix_first "  DMX_0001   3.5  1" 2) = ["DMX_00012"; "3.5"; "1"].
Proof. by vm_compute. Qed.

Lemma from_parfile_line_spec_returns (p : ParameterObj spec_float) (l : string) :
  is_ret (from_parfile_line_spec p l) = true.
Proof.
  unfold from_parfile_line_spec. destruct (split l) as [|k0 [|v ks]]; try done.
  by case_decide.
Qed.

Lemma read_parfile_loop_always_ends_witness :
  ∃ st w',
    read_lines from_parfile_line_spec no_prefixed_name example_model
      (mkParfileState [] ∅) ["# a comment"; ""; "F0 61.4"; "EPHEM DE405"; "JUMP"] example_world
    = (Ret st, w')
    ∧ read_parfile from_parfile_line_spec no_prefixed_name example_model
        ["# a comment"; ""; "F0 61.4"; "EPHEM DE405"; "JUMP"] example_world
      = setup example_model w'
    ∧ (Forall (λ pl, is_skipped (strip pl) = true)
         ["# a comment"; ""; "F0 61.4"; "EPHEM DE405"; "JUMP"] → w' = example_world).
Proof.
  apply (read_parfile_loop_always_ends from_parfile_line_spec no_prefixed_name
           example_model ["# a comment"; ""; "F0 61.4"; "EPHEM DE405"; "JUMP"]
           example_world ["PSR"; "F0"; "F1"; "DM"; "DM2"]).
  - reflexivity.
  - apply example_params_bound.
  - apply from_parfile_line_spec_returns.
Defined.

(** The line that no parameter takes and that is not to be ignored is
    reported; the ignored keyword is not. *)
Example read_parfile_warnings_example :
  warnings (snd (read_parfile from_parfile_line_spec no_prefixed_name example_model
                   ["# a comment"; ""; "F0 61.4"; "EPHEM DE405"; "JUMP"] example_world))
  = ["Unrecognized parfile line 'JUMP'"].
Proof. by vm_compute. Qed.

Lemma repeated_keyword_is_reported_witness :
  ∃ st2 w2,
    read_lines from_parfile_line_spec no_prefixed_name example_model
      (mkParfileState [] ∅) (["CLK UTC(NIST)"] ++ ["clk UTC(NIST)"]) example_world
    = (Ret st2, w2)
    ∧ warnings w2
      = warnings (snd (read_lines from_parfile_line_spec no_prefixed_name example_model
                         (mkParfileState [] ∅) ["CLK UTC(NIST)"] example_world))
        ++ ["Unrecognized parfile line '"
            +:+ suffix_first (strip "clk UTC(NIST)")
                  (S (occurrences (upper "clk")
                        (map line_name (significant ["CLK UTC(NIST)"]))))
            +:+ "'"].
Proof.
  apply (repeated_keyword_is_reported from_parfile_line_spec no_prefixed_name
           example_model ["CLK UTC(NIST)"] "clk UTC(NIST)" example_world
           (snd (read_lines from_parfile_line_spec no_prefixed_name example_model
                   (mkParfileState [] ∅) ["CLK UTC(NIST)"] example_world))
           (mkParfileState ["CLK"] ∅) ["PSR"; "F0"; "F1"; "DM"; "DM2"]
           "clk" ["UTC(NIST)"]
           [PSR_param; F0_param; F1_param; DM_param; DM2_param]
           [(false, PSR_param); (false, F0_param); (false, F1_param);
            (false, DM_param); (false, DM2_param)]).
  - reflexivity.
  - by apply (bool_decide_unpack _).
  - by vm_compute.
  - repeat constructor.
  - reflexivity.
  - reflexivity.
  - vm_compute. apply list_elem_of_here.
  - repeat constructor.
  - reflexivity.
  - intros pfx f v Hs. discriminate Hs.
Defined.

Example repeated_keyword_example :
  warnings (snd (read_lines from_parfile_line_spec no_prefixed_name example_model
                   (mkParfileState [] ∅) ["CLK UTC(NIST)"; "clk UTC(NIST)"] example_world))
  = ["Unrecognized parfile line 'clk2 UTC(NIST)'"].
Proof. by vm_compute. Qed.

Lemma read_line_offers_every_parameter_witness :
  ∃ st' w',
    read_line from_parfile_line_spec no_prefixed_name example_model
      (mkParfileState [] ∅) "PSRJ J0437-4715" two_takers_world = (Ret st', w')
    ∧ Forall2 (λ n r, attrs w' !! n = Some (snd r)) ["PSR"; "PSRJ"]
        [(true, mkParameter "PSR" (PVStr "J0437-4715") true ["PSRJ"; "PSRB"] false "" 0);
         (true, mkParameter "PSRJ" (PVStr "J0437-4715") true [] false "" 0)]
    ∧ warnings w' = warnings two_takers_world.
Proof.
  apply (read_line_offers_every_parameter from_parfile_line_spec no_prefixed_name
           example_model (mkParfileState [] ∅) "PSRJ J0437-4715" two_takers_world
           ["PSR"; "PSRJ"] [PSR_param; PSRJ_param]).
  - reflexivity.
  - by apply (bool_decide_unpack _).
  - reflexivity.
  - apply not_elem_of_nil.
  - repeat constructor.
  - repeat constructor.
  - reflexivity.
Defined.

Lemma read_parfile_adds_no_parameter_witness :
  let run := read_lines from_parfile_line_spec no_prefixed_name example_model
               (mkParfileState [] ∅) ["F0 61.4"; "RAJ 04:37:15.8"; "JUMP"] example_world in
  lists (snd run) = lists example_world
  ∧ self_cache (snd run) = self_cache example_world
  ∧ caches (snd run) = caches example_world
  ∧ (∀ n, is_Some (attrs (snd run) !! n) ↔ is_Some (attrs example_world !! n))
  ∧ (∀ n, n ∉ default [] (lists example_world !! params example_model) →
          attrs (snd run) !! n = attrs example_world !! n).
Proof.
  apply (read_parfile_adds_no_parameter from_parfile_line_spec no_prefixed_name
           example_model ["F0 61.4"; "RAJ 04:37:15.8"; "JUMP"] (mkParfileState [] ∅)
           example_world _
           (fst (read_lines from_parfile_line_spec no_prefixed_name example_model
                   (mkParfileState [] ∅) ["F0 61.4"; "RAJ 04:37:15.8"; "JUMP"]
                   example_world))).
  apply surjective_pairing.
Defined.

Lemma is_in_parfile_answer_witness :
  let r := fst (is_in_parfile example_model (<["PSR" := ["J0437-4715"]]> ∅) example_world) in
  let names' := remove_first "PSR" ["PSR"; "F0"; "F1"; "DM"; "DM2"] in
  if PLANET_SHAPIRO example_model then
    r = Ret (negb (bool_decide
                     (is_Some ((<["PSR" := ["J0437-4715"]]> ∅ : gmap string (list string))
                                 !! "NO_SS_SHAPIRO"))))
  else
    match BinaryModelName example_model,
          (<["PSR" := ["J0437-4715"]]> ∅ : gmap string (list string)) !! "BINARY" with
    | Some b, Some (v :: _) => r = Ret (bool_decide (b = v))
    | _, _ =>
        Forall (λ n, is_Some (attrs example_world !! n)) names' →
        ∃ b, r = Ret b
             ∧ (b = true ↔ ∃ n, n ∈ names'
                                 ∧ named_in_parfile (<["PSR" := ["J0437-4715"]]> ∅)
                                     example_world n)
    end.
Proof.
  apply (is_in_parfile_answer example_model (<["PSR" := ["J0437-4715"]]> ∅) example_world
           ["PSR"; "F0"; "F1"; "DM"; "DM2"]).
  reflexivity.
Defined.

(** A parfile that has only the line of PSR does not make the component
    count as included; one that has a line of DM does. *)
Example is_in_parfile_answer_example :
  fst (is_in_parfile example_model (<["PSR" := ["J0437-4715"]]> ∅) example_world)
  = Ret false
  ∧ fst (is_in_parfile example_model (<["PSRJ" := ["J0437-4715"]]> ∅) example_world)
    = Ret false
  ∧ fst (is_in_parfile example_model (<["DM" := ["2.64"]]> ∅) example_world) = Ret true.
Proof. by vm_compute. Qed.

Lemma is_in_parfile_again_witness :
  let first := is_in_parfile example_model (<["DM" := ["2.64"]]> ∅) example_world in
  is_in_parfile example_model (<["DM" := ["2.64"]]> ∅) (snd first)
  = (fst first, snd first).
Proof.
  apply (is_in_parfile_again example_model (<["DM" := ["2.64"]]> ∅) example_world
           ["PSR"; "F0"; "F1"; "DM"; "DM2"]).
  - reflexivity.
  - by apply (bool_decide_unpack _).
Defined.

Example generate_timing_model_example :
  generate_timing_model example_py_type "MyModel"
    (Sized [PyClass "Astrometry" true; PyClass "Spindown" true]) tt
  = inr ("MyModel", [PyClass "Astrometry" true; PyClass "Spindown" true])
  ∧ generate_timing_model example_py_type "MyModel" (Unsized (PyClass "Spindown" true)) tt
    = inr ("MyModel", [PyClass "Spindown" true])
  ∧ generate_timing_model example_py_type "MyModel"
      (Sized [PyClass "Spindown" true; PyClass "dict" false]) tt
    = inl (TypeErrorMsg "generate_timing_model() Arg 2has to be a tuple of classes")
  ∧ generate_timing_model example_py_type "Empty" (Sized []) tt = inr ("Empty", []).
Proof. by vm_compute. Qed.

(** ** The fit parameters of [emcee_fitter] *)

Section FitterFacts.
Context {num val TOA unit_t obj : Type} `{Numeric num} `{PhaseOps num}.
Local Abbreviation World := (World num val TOA).
Local Abbreviation Comp := (Comp num val TOA).
Local Abbreviation TimingModel := (@TimingModel num val TOA unit_t).
Variable u_dimensionless : unit_t.
Variable u_over_F0 : unit_t → unit_t.
Variable obj_of : pvalue num → obj.
Variable scaled_uncertainty : ParameterObj num → num → outcome obj.
Variable dot_value : obj → outcome obj.

Lemma last_to_value_snoc (xs : list obj) (x : obj) (w : World) :
  is_ret (dot_value x) = true →
  ∃ ys, last_to_value dot_value (xs ++ [x]) w = (Ret ys, w)
        ∧ length ys = S (length xs).
Proof.
  intros Hx. unfold last_to_value. rewrite last_snoc.
  unfold bind, lift. destruct (dot_value x) as [v|]; [|done].
  eexists. split; [done|]. rewrite length_insert, length_app. simpl. lia.
Qed.

Lemma get_lnprior_vals_loop_returns (errfact : num) (w : World) (ps : list string) :
  (∀ p, is_ret (scaled_uncertainty p errfact) = true) →
  (∀ x, is_ret (dot_value x) = true) →
  Forall (λ n, is_Some (attrs w !! n)) ps →
  ∀ vals errs, ∃ vals' errs',
    get_lnprior_vals_loop obj_of scaled_uncertainty dot_value errfact ps vals errs w
    = (Ret (vals', errs'), w)
    ∧ length vals' = length vals + length ps
    ∧ length errs' = length errs + length ps.
Proof.
  intros Herr Hval. induction 1 as [|n ps [p Hp] _ IH]; intros vals errs.
  - exists vals, errs. simpl. split; [done|]. lia.
  - cbn [get_lnprior_vals_loop].
    unfold bind at 1, getattr_param at 1. rewrite Hp.
    unfold bind at 1, getattr_param at 1. rewrite Hp.
    unfold bind at 1, lift at 1. specialize (Herr p).
    destruct (scaled_uncertainty p errfact) as [err|]; [|done].
    unfold bind at 1.
    assert (Hboth : ∃ vals1 errs1,
      (if decide (n ∈ ["RAJ"; "DECJ"; "T0"]) then
         let! fitvals' := last_to_value dot_value (vals ++ [obj_of (value p)]) in
         if decide (n ≠ "T0") then
           let! fiterrs' := last_to_value dot_value (errs ++ [err]) in
           ret (fitvals', fiterrs')
         else ret (fitvals', errs ++ [err])
       else ret (vals ++ [obj_of (value p)], errs ++ [err])) w
      = (Ret (vals1, errs1), w)
      ∧ length vals1 = S (length vals) ∧ length errs1 = S (length errs)).
    { case_decide.
      - destruct (last_to_value_snoc vals (obj_of (value p)) w (Hval _))
          as (vals1 & Hv & Hlv).
        unfold bind at 1. rewrite Hv. case_decide.
        + destruct (last_to_value_snoc errs err w (Hval _)) as (errs1 & He & Hle).
          unfold bind. rewrite He. by eexists _, _.
        + eexists _, _. split; [done|]. split; [done|].
          rewrite length_app. simpl. lia.
      - eexists _, _. split; [done|]. rewrite !length_app. simpl. lia. }
    destruct Hboth as (vals1 & errs1 & -> & Hlv & Hle). cbn [fst snd].
    destruct (IH vals1 errs1) as (vals' & errs' & Hrun & Hlv' & Hle').
    exists vals', errs'. split; [done|]. simpl. lia.
Qed.

Lemma free_params_bound (w : World) (names : list string) :
  Forall (λ n, is_Some (attrs w !! n)) (free_params w names).
Proof.
  apply Forall_forall. intros n [Hn _]%list_elem_of_filter.
  destruct (attrs w !! n); [by eexists|done].
Qed.

(** The names that a returning [designmatrix] returns. *)
Lemma designmatrix_returns_requested (self : TimingModel) (toas : list TOA)
    (incfrozen incoffset : bool) (w w1 : World) (names : list string) M cols us :
  lists w !! params self = Some names →
  (incfrozen = false → Forall (λ par, is_Some (attrs w !! par)) names) →
  designmatrix u_dimensionless u_over_F0 self toas incfrozen incoffset w
  = (Ret (M, cols, us), w1) →
  cols = requested_columns w names incfrozen incoffset.
Proof.
  intros Hnames Hbound. unfold designmatrix.
  intros (w0 & w2 & Hbody & Hl & Ha)%use_cache_inv.
  unfold invoke in Hbody. unfold bind at 1, emit at 1 in Hbody.
  unfold bind at 1, get_list at 1 in Hbody. cbn [lists set_trace] in Hbody.
  rewrite Hl, Hnames in Hbody. cbn [default] in Hbody. unfold id in Hbody.
  unfold bind at 1 in Hbody.
  rewrite select_params_eval in Hbody by (cbn [attrs set_trace]; rewrite Ha; done).
  unfold bind at 1 in Hbody.
  destruct (F0_value _) as [[F0|e] w4]; [|done].
  unfold bind at 1 in Hbody.
  destruct (delay self toas w4) as [[d|e] w5]; [|done].
  unfold bind at 1 in Hbody.
  destruct (fill_columns _ _ _ _ _ _ _ _ _ w5) as [[Mu|e] w6]; [|done].
  injection Hbody as <- <- <- <-. unfold requested_columns. f_equal.
  destruct incfrozen; [done|]. by apply free_params_attrs.
Qed.

(** The fit parameters of the fitter are the free (unfrozen) parameters of
    the model, in the order of [self.params]; there is one value and one
    error for each; and they are the parameters, in the same order, of the
    columns that [designmatrix(toas)] returns after its offset column.  The
    model is left as it is. *)
Theorem get_lnprior_vals_keys_are_free_params
    (model : TimingModel) (errfact : num) (w : World) (names : list string)
    (Hnames : lists w !! params model = Some names)
    (Hbound : Forall (λ par, is_Some (attrs w !! par)) names)
    (Herr : ∀ p, is_ret (scaled_uncertainty p errfact) = true)
    (Hval : ∀ x, is_ret (dot_value x) = true) :
  ∃ fitvals fiterrs,
    get_lnprior_vals obj_of scaled_uncertainty dot_value model errfact w
    = (Ret (free_params w names, fitvals, fiterrs), w)
    ∧ length fitvals = length (free_params w names)
    ∧ length fiterrs = length (free_params w names)
    ∧ ∀ toas M cols us w1,
        designmatrix u_dimensionless u_over_F0 model toas false true w
        = (Ret (M, cols, us), w1) →
        cols = "Offset" :: free_params w names.
Proof.
  destruct (get_lnprior_vals_loop_returns errfact w (free_params w names) Herr Hval
              (free_params_bound w names) [] []) as (vals & errs & Hrun & Hlv & Hle).
  exists vals, errs. split; [|split; [done|split; [done|]]].
  - unfold get_lnprior_vals. unfold bind at 1, get_list at 1. rewrite Hnames.
    cbn [default]. unfold id.
    unfold bind at 1. rewrite select_params_eval by done.
    unfold bind. by rewrite Hrun.
  - intros toas M cols us w1 Hdm.
    by apply (designmatrix_returns_requested model toas false true w w1 names M cols us).
Qed.
End FitterFacts.

Lemma get_lnprior_vals_keys_are_free_params_witness :
  ∃ fitvals fiterrs,
    @get_lnprior_vals _ _ _ string _ id example_scaled_uncertainty
      example_dot_value example_model (fl2 3 (-1)) example_world
    = (Ret (free_params example_world ["PSR"; "F0"; "F1"; "DM"; "DM2"], fitvals, fiterrs),
       example_world)
    ∧ length fitvals = length (free_params example_world ["PSR"; "F0"; "F1"; "DM"; "DM2"])
    ∧ length fiterrs = length (free_params example_world ["PSR"; "F0"; "F1"; "DM"; "DM2"])
    ∧ ∀ toas M cols us w1,
        @designmatrix _ _ _ _ binary64 "" (λ u, u +:+ " s") example_model toas false true
          example_world
        = (Ret (M, cols, us), w1) →
        cols = "Offset" :: free_params example_world ["PSR"; "F0"; "F1"; "DM"; "DM2"].
Proof.
  apply (@get_lnprior_vals_keys_are_free_params _ _ _ _ _ binary64 "" (λ u, u +:+ " s")
           id example_scaled_uncertainty example_dot_value
           example_model (fl2 3 (-1)) example_world ["PSR"; "F0"; "F1"; "DM"; "DM2"]).
  - reflexivity.
  - apply example_params_bound.
  - done.
  - done.
Defined.

Example get_lnprior_vals_example :
  fst (@get_lnprior_vals _ _ _ string _ id example_scaled_uncertainty
         example_dot_value example_model (fl2 3 (-1)) example_world)
  = Ret (["F0"; "DM"; "DM2"], [PVNum (fl 100); PVNone; PVNone],
         [PVNum (fl2 3 (-1)); PVNum (fl2 3 (-1)); PVNum (fl2 3 (-1))]).
Proof. by vm_compute. Qed.

(** ** [chains_to_dict] *)

Section ChainsFacts.
Context {num : Type}.

Lemma slice_last_entries (ii : nat) (a : array3 num) :
  wf_array3 a → ii < dim2 a →
  ∃ rs, slice_last ii a = Ret (mkMatrix (dim0 a) (dim1 a) rs)
        ∧ Forall (λ r, length r = dim1 a) rs
        ∧ ∀ k s, entry2 (mkMatrix (dim0 a) (dim1 a) rs) k s = entry3 a k s ii.
Proof.
  intros [Hlen Hall] Hii. unfold slice_last. rewrite decide_True by done.
  assert (Hplane : ∀ plane : list (list num),
            Forall (λ cell, length cell = dim2 a) plane →
            ∃ row, mapM (λ cell : list num, cell !! ii) plane = Some row
                   ∧ length row = length plane
                   ∧ ∀ s, row !! s = match plane !! s with
                                     | Some cell => cell !! ii
                                     | None => None
                                     end).
  { induction 1 as [|cell plane Hcell _ (row & Hrow & Hl & Hs)].
    - exists []. by repeat split.
    - destruct (lookup_lt_is_Some_2 cell ii) as [x Hx]; [lia|].
      exists (x :: row). split; [|split].
      + apply mapM_Some_2. constructor; [done|]. by apply mapM_Some_1.
      + simpl. by rewrite Hl.
      + intros [|s]; simpl; [done|apply Hs]. }
  assert (Hrows : ∃ rs : list (list num),
                    mapM (M:=option) (mapM (M:=option) (λ cell : list num, cell !! ii))
                      (cells a) = Some rs
                        ∧ Forall (λ r, length r = dim1 a) rs
                        ∧ ∀ k s, match rs !! k with
                                 | Some row => row !! s
                                 | None => None
                                 end
                                 = match cells a !! k with
                                   | Some plane =>
                                       match plane !! s with
                                       | Some cell => cell !! ii
                                       | None => None
                                       end
                                   | None => None
                                   end).
  { clear Hlen. induction Hall as [|plane planes [Hpl Hcells] _ (rs & Hrs & Hl & Hs)].
    - exists []. by repeat split.
    - destruct (Hplane plane Hcells) as (row & Hrow & Hlr & Hsr).
      exists (row :: rs). split; [|split].
      + apply mapM_Some_2. constructor; [done|]. by apply mapM_Some_1.
      + constructor; [lia|done].
      + intros [|k] s; simpl; [apply Hsr|apply Hs]. }
  destruct Hrows as (rs & -> & Hl & Hs). by exists rs.
Qed.

Lemma transpose_rows_entries (n : nat) (rs : list (list num)) :
  Forall (λ r, length r = n) rs →
  length (transpose_rows n rs) = n
  ∧ ∀ s k, s < n →
      match transpose_rows n rs !! s with
      | Some row => row !! k
      | None => None
      end
      = match rs !! k with
        | Some row => row !! s
        | None => None
        end.
Proof.
  induction 1 as [|r rs Hr _ (Hlen & Hent)]; cbn [transpose_rows].
  - split; [apply length_replicate|].
    intros s k Hs. by rewrite lookup_replicate_2.
  - split; [rewrite length_zip_with; lia|].
    intros s k Hs.
    destruct (lookup_lt_is_Some_2 r s) as [x Hx]; [lia|].
    destruct (lookup_lt_is_Some_2 (transpose_rows n rs) s) as [t Ht]; [lia|].
    rewrite lookup_zip_with, Hx. simpl. rewrite Ht. simpl.
    destruct k as [|k]; simpl; [by rewrite Hx|].
    specialize (Hent s k Hs). by rewrite Ht in Hent.
Qed.

(** The chains of the parameters [ii], ..., [ii + n - 1]. *)
Lemma chains_from_entries (chain : array3 num) (n : nat) :
  wf_array3 chain →
  ∀ ii, ii + n ≤ dim2 chain →
    ∃ ms, chains_from chain ii n = Ret ms
          ∧ length ms = n
          ∧ ∀ j m, ms !! j = Some m →
              nrows m = dim1 chain ∧ ncols m = dim0 chain
              ∧ ∀ s k, s < dim1 chain → entry2 m s k = entry3 chain k s (ii + j).
Proof.
  intros Hwf. induction n as [|n IH]; intros ii Hii.
  - exists []. split; [done|]. split; [done|]. intros j m Hj.
    by rewrite lookup_nil in Hj.
  - cbn [chains_from].
    destruct (slice_last_entries ii chain Hwf) as (rs & -> & Hall & Hent); [lia|].
    destruct (IH (S ii)) as (ms & -> & Hlen & Hms); [lia|].
    eexists. split; [done|]. split; [simpl; by rewrite Hlen|].
    intros [|j] m Hj; simpl in Hj.
    + injection Hj as <-. split; [done|]. split; [done|].
      intros s k Hs. unfold entry2 at 1, transpose. cbn [rows ncols].
      destruct (transpose_rows_entries (dim1 chain) rs Hall) as (_ & Ht).
      rewrite Ht by done. rewrite Nat.add_0_r, <- Hent. done.
    + destruct (Hms j m Hj) as (Hn & Hc & He). split; [done|]. split; [done|].
      intros s k Hs. rewrite He by done. f_equal. lia.
Qed.

Lemma chains_from_out_of_bounds (chain : array3 num) (n : nat) :
  wf_array3 chain →
  ∀ ii, ii ≤ dim2 chain → dim2 chain < ii + n →
    chains_from chain ii n = Raise IndexError.
Proof.
  intros Hwf. induction n as [|n IH]; intros ii Hle Hlt; [lia|].
  cbn [chains_from]. destruct (decide (ii < dim2 chain)) as [Hii|Hii].
  - destruct (slice_last_entries ii chain Hwf Hii) as (rs & -> & _).
    rewrite IH by lia. done.
  - unfold slice_last. by rewrite decide_False.
Qed.

Lemma dict_of_other {A} (ks : list string) (n : string) :
  n ∉ ks →
  ∀ (vs : list A) (d0 : gmap string A),
    foldl (λ d kv, <[kv.1 := kv.2]> d) d0 (zip ks vs) !! n = d0 !! n.
Proof.
  induction ks as [|k ks IH]; intros Hn vs d0; [done|].
  apply not_elem_of_cons in Hn as [Hne Hn].
  destruct vs as [|v vs]; [done|]. simpl. rewrite IH by done.
  by rewrite lookup_insert_ne.
Qed.

(** In [dict(zip(ks, vs))] a key has the value that stands at its last
    position in [ks]. *)
Lemma dict_of_last {A} (ks : list string) :
  ∀ (vs : list A) (d0 : gmap string A) (i : nat) (n : string),
    length ks = length vs →
    ks !! i = Some n → (∀ j, i < j → ks !! j ≠ Some n) →
    foldl (λ d kv, <[kv.1 := kv.2]> d) d0 (zip ks vs) !! n = vs !! i.
Proof.
  induction ks as [|k ks IH]; intros vs d0 i n Hlen Hi Hlast; [done|].
  destruct vs as [|v vs]; [done|]. simpl in Hlen. simpl.
  destruct i as [|i]; simpl in Hi.
  - injection Hi as ->. rewrite dict_of_other.
    + simpl. apply lookup_insert_eq.
    + intros [j Hj]%list_elem_of_lookup_1. by apply (Hlast (S j)); [lia|].
  - change ((v :: vs) !! S i) with (vs !! i).
    apply IH; [lia|done|]. intros j Hj. apply (Hlast (S j)). lia.
Qed.

Lemma last_position (ks : list string) (n : string) :
  n ∈ ks → ∃ i, ks !! i = Some n ∧ ∀ j, i < j → ks !! j ≠ Some n.
Proof.
  induction ks as [|k ks IH]; [by intros ?%elem_of_nil|].
  destruct (decide (n ∈ ks)) as [Hin|Hnin].
  - intros _. destruct (IH Hin) as (i & Hi & Hlast). exists (S i). split; [done|].
    intros [|j] Hj; [lia|]. simpl. apply Hlast. lia.
  - intros [->|?]%elem_of_cons; [|done]. exists 0. split; [done|].
    intros [|j] Hj; [lia|]. simpl. intros Hk. apply Hnin. by eapply list_elem_of_lookup_2.
Qed.

(** [chains_to_dict] on a chain of shape (walkers, steps, parameters).  With
    more names than the chain has parameters it raises [IndexError].
    Otherwise the dictionary has the names as its keys, and the value of a
    name is the chain of the parameter at the last position of that name: an
    array of shape (steps, walkers) whose entry [s, k] is the entry
    [k, s, i] of the chain. *)
Theorem chains_to_dict_gives_a_chain_per_name
    (names : list string) (chain : array3 num)
    (Hwf : wf_array3 chain) :
  (dim2 chain < length names → chains_to_dict names chain = Raise IndexError)
  ∧ (length names ≤ dim2 chain →
     ∃ d, chains_to_dict names chain = Ret d
          ∧ (∀ n, is_Some (d !! n) ↔ n ∈ names)
          ∧ ∀ i n, names !! i = Some n → (∀ j, i < j → names !! j ≠ Some n) →
              ∃ m, d !! n = Some m
                   ∧ nrows m = dim1 chain ∧ ncols m = dim0 chain
                   ∧ ∀ s k, s < dim1 chain → entry2 m s k = entry3 chain k s i).
Proof.
  unfold chains_to_dict. split.
  - intros Hlt. rewrite chains_from_out_of_bounds; [done|done|lia|lia].
  - intros Hle.
    destruct (chains_from_entries chain (length names) Hwf 0) as (ms & -> & Hlen & Hms);
      [lia|].
    eexists. split; [done|].
    assert (Hat : ∀ i n, names !! i = Some n → (∀ j, i < j → names !! j ≠ Some n) →
              dict_of (zip names ms) !! n = ms !! i).
    { intros i n Hi Hlast. unfold dict_of. by apply dict_of_last. }
    split.
    + intros n. split.
      * intros Hsome. destruct (decide (n ∈ names)) as [?|Hnin]; [done|].
        unfold dict_of in Hsome. rewrite dict_of_other in Hsome by done.
        rewrite lookup_empty in Hsome. by destruct Hsome.
      * intros Hin. destruct (last_position names n Hin) as (i & Hi & Hlast).
        rewrite (Hat i n Hi Hlast). apply lookup_lt_is_Some_2.
        rewrite Hlen. by eapply lookup_lt_Some.
    + intros i n Hi Hlast. rewrite (Hat i n Hi Hlast).
      destruct (lookup_lt_is_Some_2 ms i) as [m Hm].
      { rewrite Hlen. by eapply lookup_lt_Some. }
      exists m. split; [done|]. by apply (Hms i m Hm).
Qed.
End ChainsFacts.

Lemma example_chain_wf : wf_array3 example_chain.
Proof. split; [done|]. repeat constructor. Qed.

Lemma chains_to_dict_gives_a_chain_per_name_witness :
  (dim2 example_chain < length ["F0"; "F1"] →
   chains_to_dict ["F0"; "F1"] example_chain = Raise IndexError)
  ∧ (length ["F0"; "F1"] ≤ dim2 example_chain →
     ∃ d, chains_to_dict ["F0"; "F1"] example_chain = Ret d
          ∧ (∀ n, is_Some (d !! n) ↔ n ∈ ["F0"; "F1"])
          ∧ ∀ i n, ["F0"; "F1"] !! i = Some n →
              (∀ j, i < j → ["F0"; "F1"] !! j ≠ Some n) →
              ∃ m, d !! n = Some m
                   ∧ nrows m = dim1 example_chain ∧ ncols m = dim0 example_chain
                   ∧ ∀ s k, s < dim1 example_chain →
                            entry2 m s k = entry3 example_chain k s i).
Proof.
  apply (chains_to_dict_gives_a_chain_per_name ["F0"; "F1"] example_chain).
  apply example_chain_wf.
Defined.

Example chains_to_dict_example :
  chains_to_dict ["F0"; "F1"] example_chain
  = Ret (<["F0" := mkMatrix 3 2 [[10; 40]; [20; 50]; [30; 60]]]>
           (<["F1" := mkMatrix 3 2 [[11; 41]; [21; 51]; [31; 61]]]> ∅))
  ∧ chains_to_dict ["F0"; "F1"; "DM"] example_chain = Raise IndexError.
Proof. by vm_compute. Qed.

(** * [delay], the cache and repeated lines, in full *)

(** ** [delay] sums the levels in the order of the keys *)

Section DelayOrder.
Context {num val TOA unit_t : Type} `{Numeric num} `{PhaseOps num}.
Local Abbreviation World := (World num val TOA).
Local Abbreviation Comp := (Comp num val TOA).
Local Abbreviation TimingModel := (@TimingModel num val TOA unit_t).

Lemma accumulate_delay_app (dfs1 dfs2 : list (list TOA → outcome (ndarray num)))
    (toas : list TOA) :
  ∀ acc,
    accumulate_delay (dfs1 ++ dfs2) toas acc
    = match accumulate_delay dfs1 toas acc with
      | Ret acc1 => accumulate_delay dfs2 toas acc1
      | Raise e => Raise e
      end.
Proof.
  induction dfs1 as [|df dfs1 IH]; intros acc; simpl; [done|].
  destruct (df toas) as [x|e]; [|done].
  destruct (iadd acc x) as [acc'|e]; [|done]. apply IH.
Qed.

(** The loop over one level returns what the accumulation of its functions
    gives; its events are of that level, and when it does not raise they are
    the events of all its functions. *)
Lemma delay_level_value (lvl : string)
    (dfs : list (list TOA → outcome (ndarray num))) (toas : list TOA) :
  ∀ i acc, ∃ t,
    emits (delay_level lvl i dfs toas acc : Comp _) (accumulate_delay dfs toas acc) t
    ∧ Forall (λ e, event_level e = Some lvl) t
    ∧ (is_ret (accumulate_delay dfs toas acc) = true
       → t = level_events lvl i (length dfs)).
Proof.
  induction dfs as [|df dfs IH]; intros i acc.
  - exists []. split; [apply emits_ret|]. split; [constructor|done].
  - simpl. destruct (df toas) as [x|e] eqn:Hdf.
    + destruct (iadd acc x) as [acc'|e] eqn:Hadd.
      * destruct (IH (S i) acc') as (t & He & Hall & Hret).
        exists ([Called lvl i] ++ [] ++ [] ++ [Summed lvl i] ++ t). split.
        { eapply emits_bind; [apply emits_emit|].
          eapply emits_bind; [apply emits_lift|]. rewrite Hadd.
          eapply emits_bind; [apply emits_lift|].
          eapply emits_bind; [apply emits_emit|]. done. }
        split; [by repeat constructor|].
        intros Ho. simpl. by rewrite (Hret Ho).
      * exists ([Called lvl i] ++ [] ++ []). split.
        { eapply emits_bind; [apply emits_emit|].
          eapply emits_bind; [apply emits_lift|]. rewrite Hadd.
          apply emits_bind_raise, emits_lift. }
        split; [by repeat constructor|done].
    + exists ([Called lvl i] ++ []). split.
      { eapply emits_bind; [apply emits_emit|].
        apply emits_bind_raise, emits_lift. }
      split; [by repeat constructor|done].
Qed.

(** A dictionary has one value per key. *)
Lemma dict_get_NoDup {A} (d : list (string * A)) (k : string) (v : A) :
  NoDup (map fst d) → (k, v) ∈ d → dict_get d k = Some v.
Proof.
  induction d as [|[k' v'] d IH]; intros Hnd Hin; [by apply elem_of_nil in Hin|].
  simpl in Hnd. apply NoDup_cons in Hnd as [Hnot Hnd]. simpl.
  apply elem_of_cons in Hin as [Heq|Hin].
  - injection Heq as -> ->. by rewrite decide_True.
  - rewrite decide_False; [by apply IH|].
    intros ->. apply Hnot. apply list_elem_of_fmap. by exists (k, v).
Qed.

(** The outer loop over the levels [sfx], in the order of their keys: it
    returns what the accumulation of all their functions, level after level,
    gives; and whenever a function of a later level is called, every
    function of every earlier level has been summed. *)
Lemma delay_levels_in_key_order (self : TimingModel) (toas : list TOA)
    (sfx : list (string * list (list TOA → outcome (ndarray num)))) :
  NoDup (map fst sfx) →
  (∀ k fs, (k, fs) ∈ sfx → dict_get (delay_funcs self) k = Some fs) →
  ∀ acc, ∃ t,
    emits (delay_levels self (map fst sfx) toas acc : Comp _)
      (accumulate_delay (concat (map snd sfx)) toas acc) t
    ∧ Forall (λ e, ∃ k, event_level e = Some k ∧ k ∈ map fst sfx) t
    ∧ ∀ i j ka kb fsa before n after,
        i < j →
        map fst sfx !! i = Some ka → map fst sfx !! j = Some kb →
        dict_get (delay_funcs self) ka = Some fsa →
        t = before ++ Called kb n :: after →
        ∀ m, m < length fsa → Summed ka m ∈ before.
Proof.
  induction sfx as [|[k fs] sfx IH]; intros Hnd Hget acc.
  - exists []. split; [apply emits_ret|]. split; [constructor|].
    intros i j ka kb fsa before n after _ Hi. simpl in Hi.
    by rewrite lookup_nil in Hi.
  - simpl in Hnd. apply NoDup_cons in Hnd as [Hnot Hnd].
    assert (Hk : dict_get (delay_funcs self) k = Some fs)
      by apply Hget, list_elem_of_here.
    cbn [map fst snd concat delay_levels]. rewrite Hk, accumulate_delay_app.
    destruct (delay_level_value k fs toas 0 acc) as (t1 & He1 & Hall1 & Hret1).
    assert (Hlater : ∀ j kb, map fst sfx !! j = Some kb → kb ≠ k).
    { intros j kb Hj ->. apply Hnot. by eapply list_elem_of_lookup_2. }
    assert (Hnot1 : ∀ kb n, kb ≠ k → (Called kb n : event num TOA) ∉ t1).
    { intros kb n Hne Hin. rewrite Forall_forall in Hall1.
      specialize (Hall1 _ Hin). simpl in Hall1. congruence. }
    destruct (accumulate_delay fs toas acc) as [acc1|e1].
    + destruct (IH Hnd) with (acc := acc1) as (t2 & He2 & Hall2 & Hord2).
      { intros k' fs' Hin. by apply Hget, list_elem_of_further. }
      exists (t1 ++ t2). split; [by eapply emits_bind|]. split.
      { apply Forall_app. split.
        - eapply Forall_impl; [done|]. intros e He. exists k.
          split; [done|]. apply list_elem_of_here.
        - eapply Forall_impl; [done|]. intros e (k' & He & Hin). exists k'.
          split; [done|]. by apply list_elem_of_further. }
      intros i j ka kb fsa before n after Hij Hi Hj Hga Ht m Hm.
      destruct j as [|j]; [lia|]. simpl in Hj.
      destruct (prefix_of_split _ _ _ _ _ Ht (Hnot1 kb n (Hlater j kb Hj)))
        as [rest ->].
      rewrite <- app_assoc in Ht. apply app_inv_head in Ht.
      apply elem_of_app. destruct i as [|i]; simpl in Hi.
      * left. injection Hi as <-. rewrite Hk in Hga. injection Hga as <-.
        rewrite (Hret1 eq_refl). apply level_events_summed; lia.
      * right. apply (Hord2 i j ka kb fsa rest n after); [lia|done..].
    + exists t1. split; [by apply emits_bind_raise|]. split.
      { eapply Forall_impl; [done|]. intros e He. exists k.
        split; [done|]. apply list_elem_of_here. }
      intros i j ka kb fsa before n after Hij Hi Hj Hga Ht m Hm.
      destruct j as [|j]; [lia|]. simpl in Hj. exfalso.
      apply (Hnot1 kb n (Hlater j kb Hj)). rewrite Ht.
      apply elem_of_app. right. apply list_elem_of_here.
Qed.

(** C2, as amended.  [delay] returns the total that starts at
    [zeros(len(toas))] and to which the results of all the delay functions,
    each called with the observations only, are added level by level in the
    order in which [delay_funcs.keys()] yields the levels.  Whenever a
    function of a level yielded later is called, every function of every
    level yielded earlier has been summed into the total: the total with
    which the later levels start is the sum over the earlier ones.  So the
    level L1 is complete before a function of L2 runs when the keys come
    with L1 before L2; with L2 before L1 it is the level L2 that is complete
    before a function of L1 runs. *)
Theorem delay_sums_levels_in_key_order
    (self : TimingModel) (toas : list TOA) (w : World)
    (Hdict : NoDup (map fst (delay_funcs self))) :
  fst (delay self toas w)
  = accumulate_delay (concat (map snd (delay_funcs self))) toas (np_zeros (length toas))
  ∧ (∀ i j earlier later,
       i < j →
       map fst (delay_funcs self) !! i = Some earlier →
       map fst (delay_funcs self) !! j = Some later →
       level_summed_before_level_runs earlier later self toas w)
  ∧ (∀ pre post d,
       delay_funcs self = pre ++ post →
       fst (delay self toas w) = Ret d →
       ∃ d1, accumulate_delay (concat (map snd pre)) toas (np_zeros (length toas)) = Ret d1
             ∧ accumulate_delay (concat (map snd post)) toas d1 = Ret d).
Proof.
  destruct (delay_levels_in_key_order self toas (delay_funcs self) Hdict)
    with (acc := np_zeros (length toas)) as (t & He & _ & Hord).
  { intros k fs Hin. by apply dict_get_NoDup. }
  assert (Ht : traces (delay self toas : Comp _)
                 (accumulate_delay (concat (map snd (delay_funcs self))) toas
                    (np_zeros (length toas)))
                 (Entered "delay" :: t)).
  { unfold delay. by apply traces_use_cache, traces_invoke, emits_traces. }
  destruct (Ht w) as [Hval Htw]. split; [done|]. split.
  - intros i j earlier later Hij Hi Hj before n after fs m Htrace Hget Hm.
    rewrite Htw in Htrace. apply app_inv_head in Htrace.
    destruct before as [|b before]; [discriminate Htrace|].
    injection Htrace as <- Htrace.
    apply list_elem_of_further.
    by apply (Hord i j earlier later fs before n after Hij Hi Hj Hget Htrace).
  - intros pre post d Hsplit Hd. rewrite Hval, Hsplit in Hd.
    rewrite map_app, concat_app, accumulate_delay_app in Hd.
    destruct (accumulate_delay (concat (map snd pre)) toas _) as [d1|e]; [|done].
    by exists d1.
Qed.
End DelayOrder.

Lemma delay_sums_levels_in_key_order_witness :
  fst (@delay _ _ _ _ binary64 L2_first_model [0; 1] example_world)
  = accumulate_delay (H:=binary64) (concat (map snd (delay_funcs L2_first_model))) [0; 1]
      (@np_zeros _ binary64 (length [0; 1]))
  ∧ (∀ i j earlier later,
       i < j →
       map fst (delay_funcs L2_first_model) !! i = Some earlier →
       map fst (delay_funcs L2_first_model) !! j = Some later →
       @level_summed_before_level_runs _ _ _ _ binary64 earlier later
         L2_first_model [0; 1] example_world)
  ∧ (∀ pre post d,
       delay_funcs L2_first_model = pre ++ post →
       fst (@delay _ _ _ _ binary64 L2_first_model [0; 1] example_world) = Ret d →
       ∃ d1, accumulate_delay (H:=binary64) (concat (map snd pre)) [0; 1]
               (@np_zeros _ binary64 (length [0; 1])) = Ret d1
             ∧ accumulate_delay (H:=binary64) (concat (map snd post)) [0; 1] d1 = Ret d).
Proof.
  apply (delay_sums_levels_in_key_order L2_first_model [0; 1] example_world).
  by apply (bool_decide_unpack _).
Defined.

(** With the keys in the order L2, L1 the total is the same, and the
    function of level L2 is called and summed before that of level L1. *)
Example delay_L2_first_example :
  fst (@delay _ _ _ _ binary64 L2_first_model [0; 1] example_world)
  = Ret [fl 3; fl 3]
  ∧ trace (snd (@delay _ _ _ _ binary64 L2_first_model [0; 1] example_world))
    = [Entered "delay"; Called "L2" 0; Summed "L2" 0; Called "L1" 0; Summed "L1" 0].
Proof. by vm_compute. Qed.

(** ** The decorated methods are computed on every call *)

Section NeverEnters.
Context {num val TOA : Type}.
Local Abbreviation World := (World num val TOA).
Local Abbreviation Comp := (Comp num val TOA).









End NeverEnters.

Section Recomputation.
Context {num val TOA unit_t : Type} `{Numeric num} `{PhaseOps num}.
Local Abbreviation World := (World num val TOA).
Local Abbreviation Comp := (Comp num val TOA).
Local Abbreviation TimingModel := (@TimingModel num val TOA unit_t).




End Recomputation.



(** The trace of [delay] called twice within one active scope, and the
    [Cache] instance after it. *)
Example delay_twice_in_scope_example :
  let first := @delay _ _ _ _ binary64 example_model [0; 1] example_scoped_world in
  let second := @delay _ _ _ _ binary64 example_model [0; 1] (snd first) in
  count_entered "delay" (trace (snd second)) = 2
  ∧ fst second = Ret [fl 3; fl 3]
  ∧ caches (snd second) = [∅].
Proof. by vm_compute. Qed.

(** ** A repeated line is matched under the suffixed name *)

Section RepeatedLines.
Context {num val TOA unit_t : Type}.
Local Abbreviation World := (World num val TOA).
Local Abbreviation Comp := (Comp num val TOA).
Local Abbreviation TimingModel := (@TimingModel num val TOA unit_t).
Variable from_parfile_line : ParameterObj num → string → outcome (bool * ParameterObj num).
Variable split_prefixed_name : string → outcome (string * string * nat).

(** C8, as amended.  The line [pl] is read after the lines [before], among
    which its name (first token, upper-cased) has occurred; it is the [k]-th
    line of that name, [k >= 2].  Then [read_parfile] matches against the
    parameters the line with [k] appended to its first token, and no other:
    every parameter of [self.params] is left as its own [from_parfile_line]
    leaves it on that rewritten line, and nothing else is bound or changed.
    So a parameter that recognises the suffixed name is set by the line,
    also when an earlier line has set it, and then no warning is logged.
    Over the whole file the lines matched are the significant lines in
    order, the [k]-th of a name with [k] appended for [k >= 2]. *)
Theorem read_parfile_matches_repeats_under_suffixed_name
    (self : TimingModel) (before : list string) (pl : string) (w w1 : World)
    (st1 : parfile_state) (names : list string) (k0 : string) (krest : list string)
    (pars : list (ParameterObj num)) (results : list (bool * ParameterObj num))
    (Hnames : lists w !! params self = Some names)
    (Hnodup : NoDup names)
    (Hbefore : read_lines from_parfile_line split_prefixed_name self
                 (mkParfileState [] ∅) before w = (Ret st1, w1))
    (Hpars : Forall2 (λ n p, attrs w1 !! n = Some p) names pars)
    (Hline : is_skipped (strip pl) = false)
    (Hsplit : split (strip pl) = k0 :: krest)
    (Hseen : upper k0 ∈ map line_name (significant before))
    (Hres : Forall2
              (λ p r, from_parfile_line p
                        (suffix_first (strip pl)
                           (S (occurrences (upper k0)
                                 (map line_name (significant before))))) = Ret r)
              pars results) :
  let k := S (occurrences (upper k0) (map line_name (significant before))) in
  let l' := suffix_first (strip pl) k in
  2 ≤ k
  ∧ split l' = (k0 +:+ str k) :: krest
  ∧ ∃ st2 w2,
      read_lines from_parfile_line split_prefixed_name self
        (mkParfileState [] ∅) (before ++ [pl]) w = (Ret st2, w2)
      ∧ Forall2 (λ n r, attrs w2 !! n = Some (snd r)) names results
      ∧ (∀ n, n ∉ names → attrs w2 !! n = attrs w1 !! n)
      ∧ (existsb fst results = true → warnings w2 = warnings w1)
      ∧ offered_lines (trace w2)
        = offered_lines (trace w) ++ disambiguate [] (significant (before ++ [pl])).
Proof.
  intros k l'.
  set (seen := map line_name (significant before)) in *.
  assert (Hocc : 1 ≤ occurrences (upper k0) seen) by (by apply occurrences_elem_of).
  assert (Hl' : join " " ((k0 +:+ str k) :: krest) = l').
  { unfold l', suffix_first. by rewrite Hsplit. }
  assert (Hs' : split l' = (k0 +:+ str k) :: krest).
  { rewrite <- Hl'. by eapply split_suffix_first. }
  split; [unfold k; lia|]. split; [done|].
  assert (Hinv0 : parfile_inv [] (mkParfileState [] ∅)).
  { split; [done|]. intros n. unfold occurrences. rewrite filter_nil. simpl.
    by rewrite lookup_empty. }
  pose proof (read_lines_inv from_parfile_line split_prefixed_name self before
                [] _ st1 w w1 Hinv0 Hbefore) as [Hchecked Hrepeat].
  cbn [app] in Hchecked, Hrepeat. fold seen in Hchecked, Hrepeat.
  pose proof (read_lines_frame from_parfile_line split_prefixed_name self before
                _ w w1 _ Hbefore) as [Hl1 _].
  assert (Hrun : ∃ st2 w2,
            read_lines from_parfile_line split_prefixed_name self
              (mkParfileState [] ∅) (before ++ [pl]) w = (Ret st2, w2)
            ∧ Forall2 (λ n r, attrs w2 !! n = Some (snd r)) names results
            ∧ (∀ n, n ∉ names → attrs w2 !! n = attrs w1 !! n)
            ∧ (existsb fst results = true → warnings w2 = warnings w1)).
  { rewrite read_lines_app. unfold bind at 1. rewrite Hbefore.
    cbn [read_lines]. unfold bind at 1.
    unfold read_line. unfold is_skipped in Hline.
    apply orb_false_iff in Hline as [Hline Hc2].
    apply orb_false_iff in Hline as [Hblank Hc1].
    apply bool_decide_eq_false_1 in Hblank.
    rewrite decide_False by done. rewrite Hc1, Hc2. cbn [orb]. rewrite Hsplit. cbv zeta.
    rewrite Hchecked. rewrite decide_True by done.
    assert (Hn : match repeat_param st1 !! upper k0 with
                 | Some c => c + 1
                 | None => 2
                 end = k).
    { rewrite Hrepeat. unfold k.
      destruct (decide (2 ≤ occurrences (upper k0) seen)); lia. }
    rewrite Hn. cbn [fst snd]. rewrite Hl'.
    unfold bind at 1, emit at 1. unfold bind at 1, get_list at 1.
    cbn [lists set_trace]. rewrite Hl1, Hnames. cbn [default]. unfold id.
    unfold bind at 1.
    match goal with |- context [offer_line _ _ _ _ ?w0] =>
      destruct (offer_line_all from_parfile_line l' names pars results false w0 Hnodup)
        as (w2 & Hoffer & Hall & Hout & Hw2 & _) end; [done..|].
    rewrite Hoffer. cbn [orb]. unfold bind at 1.
    destruct (existsb fst results) eqn:Hany.
    - unfold ret. eexists _, _. split; [done|]. split; [done|].
      split; [|done]. intros n Hn'. by rewrite Hout.
    - destruct (report_unrecognized_returns split_prefixed_name l' w2) as [w3 Hrep].
      { by eexists _, _. }
      rewrite Hrep. unfold bind, ret.
      apply report_unrecognized_frame in Hrep as (_ & _ & Ha3).
      eexists _, _. split; [done|]. rewrite Ha3. split; [done|].
      split; [|done]. intros n Hn'. by rewrite Hout. }
  destruct Hrun as (st2 & w2 & Hrun & Hall & Hout & Hwarn).
  exists st2, w2. split; [done|]. split; [done|]. split; [done|]. split; [done|].
  by apply (read_lines_returns from_parfile_line split_prefixed_name self
              (before ++ [pl]) [] _ st2 w w2 Hinv0 Hrun).
Qed.
End RepeatedLines.

(** In the file [DM2 5], [DM 1], [DM 2] the third line is the second of the
    name DM: it is matched as [DM2 2], which the parameter DM2 takes and the
    parameter DM does not. *)
Lemma read_parfile_matches_repeats_under_suffixed_name_witness :
  let k := S (occurrences (upper "DM") (map line_name (significant ["DM2 5"; "DM 1"]))) in
  let l' := suffix_first (strip "DM 2") k in
  2 ≤ k
  ∧ split l' = ("DM" +:+ str k) :: ["2"]
  ∧ ∃ st2 w2,
      read_lines from_parfile_line_spec no_prefixed_name example_model
        (mkParfileState [] ∅) (["DM2 5"; "DM 1"] ++ ["DM 2"]) example_world
      = (Ret st2, w2)
      ∧ Forall2 (λ n r, attrs w2 !! n = Some (snd r))
          ["PSR"; "F0"; "F1"; "DM"; "DM2"]
          [(false, PSR_param); (false, F0_param); (false, F1_param);
           (false, mkParameter "DM" (PVStr "1") false [] false "" 0);
           (true, mkParameter "DM2" (PVStr "2") false [] false "" 0)]
      ∧ (∀ n, n ∉ ["PSR"; "F0"; "F1"; "DM"; "DM2"] →
              attrs w2 !! n
              = attrs (snd (read_lines from_parfile_line_spec no_prefixed_name
                              example_model (mkParfileState [] ∅) ["DM2 5"; "DM 1"]
                              example_world)) !! n)
      ∧ (existsb fst
           [(false, PSR_param); (false, F0_param); (false, F1_param);
            (false, mkParameter "DM" (PVStr "1") false [] false "" 0);
            (true, mkParameter "DM2" (PVStr "2") false [] false "" 0)] = true →
         warnings w2
         = warnings (snd (read_lines from_parfile_line_spec no_prefixed_name
                            example_model (mkParfileState [] ∅) ["DM2 5"; "DM 1"]
                            example_world)))
      ∧ offered_lines (trace w2)
        = offered_lines (trace example_world)
          ++ disambiguate [] (significant (["DM2 5"; "DM 1"] ++ ["DM 2"])).
Proof.
  apply (read_parfile_matches_repeats_under_suffixed_name
           from_parfile_line_spec no_prefixed_name
           example_model ["DM2 5"; "DM 1"] "DM 2" example_world
           (snd (read_lines from_parfile_line_spec no_prefixed_name example_model
                   (mkParfileState [] ∅) ["DM2 5"; "DM 1"] example_world))
           (mkParfileState ["DM2"; "DM"] ∅) ["PSR"; "F0"; "F1"; "DM"; "DM2"]
           "DM" ["2"]
           [PSR_param; F0_param; F1_param;
            mkParameter "DM" (PVStr "1") false [] false "" 0;
            mkParameter "DM2" (PVStr "5") false [] false "" 0]
           [(false, PSR_param); (false, F0_param); (false, F1_param);
            (false, mkParameter "DM" (PVStr "1") false [] false "" 0);
            (true, mkParameter "DM2" (PVStr "2") false [] false "" 0)]).
  - reflexivity.
  - by apply (bool_decide_unpack _).
  - by vm_compute.
  - repeat constructor.
  - reflexivity.
  - reflexivity.
  - vm_compute. apply list_elem_of_further, list_elem_of_here.
  - repeat constructor.
Defined.

(** The parameters after the three lines: DM keeps the value of its own
    line, DM2 has the value of the repeated DM line, and no warning is
    logged. *)
Example read_parfile_repeated_line_example :
  let w2 := snd (read_lines from_parfile_line_spec no_prefixed_name example_model
                   (mkParfileState [] ∅) ["DM2 5"; "DM 1"; "DM 2"] example_world) in
  (value <$> attrs w2 !! "DM") = Some (PVStr "1")
  ∧ (value <$> attrs w2 !! "DM2") = Some (PVStr "2")
  ∧ warnings w2 = [].
Proof. by vm_compute. Qed.
